(** * Openfront helpers: population parser, session recorder and CSV export

    A shallow embedding of the content script (the version with the
    session recorder) and of the background script, with the properties
    of the design document proved or refuted on it.

    Conventions of the embedding
    - a JavaScript string is the list of its UTF-16 code units ([jsstring]);
    - a JavaScript number is an IEEE-754 binary64 value ([number]), with the
      arithmetic of [SpecFloat] at precision 53 and maximal exponent 1024;
    - [Math.pow], [Number::toString] and [encodeURIComponent] are
      parameters: the language leaves the first to the implementation, and
      the statements do not depend on the other two;
    - [Date.now()] is an integer number of milliseconds, read once per tick;
    - the module-level variables of the content script form the record
      [Globals], threaded explicitly through [updateRecording];
    - a call of [chrome.storage.local.set] is an element of the list of
      writes a tick issues, in program order. *)

From Stdlib Require Import String Ascii.
From Stdlib Require Import ZArith NArith List Bool Lia.
From Stdlib Require Import SpecFloat.
Import ListNotations.

Local Open Scope Z_scope.

(* ------------------------------------------------------------------ *)
(** * JavaScript strings *)

Module JsString.

Definition cu := N.
Definition jsstring := list cu.

Definition ch (a : ascii) : cu := N_of_ascii a.

Fixpoint str (s : string) : jsstring :=
  match s with
  | EmptyString => []
  | String a s' => ch a :: str s'
  end.

Definition jsstring_eq_dec : forall a b : jsstring, {a = b} + {a <> b} :=
  list_eq_dec N.eq_dec.

Definition eqb (a b : jsstring) : bool :=
  if jsstring_eq_dec a b then true else false.

(** [\d] *)
Definition is_digit (c : cu) : bool := ((48 <=? c) && (c <=? 57))%N.

(** [\s]: WhiteSpace and LineTerminator code points of ECMAScript. *)
Definition is_space (c : cu) : bool :=
  ((9 <=? c) && (c <=? 13) || (c =? 32) || (c =? 160) || (c =? 5760)
   || (8192 <=? c) && (c <=? 8202) || (c =? 8232) || (c =? 8233)
   || (c =? 8239) || (c =? 8287) || (c =? 12288) || (c =? 65279))%N.

(** [.] without the [s] flag: anything but a line terminator. *)
Definition is_dot (c : cu) : bool :=
  negb ((c =? 10) || (c =? 13) || (c =? 8232) || (c =? 8233))%N.

Definition is_char (a : ascii) (c : cu) : bool := (c =? ch a)%N.

(** [String.prototype.trim] *)
Fixpoint trimStart (s : jsstring) : jsstring :=
  match s with
  | c :: s' => if is_space c then trimStart s' else s
  | [] => []
  end.

Definition trim (s : jsstring) : jsstring :=
  rev (trimStart (rev (trimStart s))).

(** [String.prototype.toUpperCase] on the letters [a]-[z]; no other code
    unit is mapped to [K], [M] or [B], the only results the callers test. *)
Definition upper_cu (c : cu) : cu :=
  if ((97 <=? c) && (c <=? 122))%N then (c - 32)%N else c.

Definition toUpperCase (s : jsstring) : jsstring := map upper_cu s.

(** Truthiness of a string that may be [null]. *)
Definition truthy (o : option jsstring) : bool :=
  match o with
  | Some (_ :: _) => true
  | _ => false
  end.

(** [a !== b] on values that are strings or [null]. *)
Definition strict_neq (a b : option jsstring) : bool :=
  match a, b with
  | None, None => false
  | Some x, Some y => negb (eqb x y)
  | _, _ => true
  end.

End JsString.
Import JsString.

(* ------------------------------------------------------------------ *)
(** * Regular expressions

    The fragment of ECMAScript regular expressions the sources use:
    quantifiers [*], [+] and [*?] occur on single-character atoms only,
    [?] on groups.  The matcher is the backtracking matcher of the
    language specification, in continuation-passing style: greedy
    quantifiers try the longest repetition first, the lazy one the
    shortest, and the first successful continuation wins. *)

Module Regex.

Inductive regex : Type :=
| Eps
| Class (p : cu -> bool)
| Seq (r1 r2 : regex)
| Opt (r : regex)
| Star (p : cu -> bool)
| Plus (p : cu -> bool)
| LazyStar (p : cu -> bool)
| Group (i : nat) (r : regex)
| Bol
| Eol.

Definition captures := list (nat * jsstring).

Fixpoint group (i : nat) (c : captures) : option jsstring :=
  match c with
  | [] => None
  | (j, s) :: c' => if Nat.eqb i j then Some s else group i c'
  end.

(** The text consumed between the suffix [s] and its suffix [s']. *)
Definition consumed (s s' : jsstring) : jsstring :=
  firstn (length s - length s') s.

Section Exec.
Context {A : Type}.

Fixpoint star_greedy (p : cu -> bool) (s : jsstring)
    (k : jsstring -> option A) : option A :=
  match s with
  | c :: s' =>
      if p c then
        match star_greedy p s' k with
        | Some a => Some a
        | None => k s
        end
      else k s
  | [] => k []
  end.

Fixpoint star_lazy (p : cu -> bool) (s : jsstring)
    (k : jsstring -> option A) : option A :=
  match k s with
  | Some a => Some a
  | None =>
      match s with
      | c :: s' => if p c then star_lazy p s' k else None
      | [] => None
      end
  end.

Fixpoint exec (r : regex) (inp s : jsstring) (caps : captures)
    (k : jsstring -> captures -> option A) : option A :=
  match r with
  | Eps => k s caps
  | Class p =>
      match s with
      | c :: s' => if p c then k s' caps else None
      | [] => None
      end
  | Seq r1 r2 =>
      exec r1 inp s caps (fun s1 caps1 => exec r2 inp s1 caps1 k)
  | Opt r1 =>
      match exec r1 inp s caps k with
      | Some a => Some a
      | None => k s caps
      end
  | Star p => star_greedy p s (fun s' => k s' caps)
  | Plus p =>
      match s with
      | c :: s' =>
          if p c then star_greedy p s' (fun s'' => k s'' caps) else None
      | [] => None
      end
  | LazyStar p => star_lazy p s (fun s' => k s' caps)
  | Group i r1 =>
      exec r1 inp s caps
        (fun s' caps' => k s' ((i, consumed s s') :: caps'))
  | Bol => if Nat.eqb (length s) (length inp) then k s caps else None
  | Eol =>
      match s with
      | [] => k s caps
      | _ :: _ => None
      end
  end.
End Exec.

(** [String.prototype.match] with a non-global expression: the match at
    the leftmost start index, or [null]. *)
Fixpoint search (r : regex) (inp s : jsstring) : option captures :=
  match exec r inp s [] (fun _ caps => Some caps) with
  | Some c => Some c
  | None =>
      match s with
      | [] => None
      | _ :: s' => search r inp s'
      end
  end.

Definition re_match (r : regex) (text : jsstring) : option captures :=
  search r text text.

Fixpoint seq (l : list regex) : regex :=
  match l with
  | [] => Eps
  | [r] => r
  | r :: l' => Seq r (seq l')
  end.

End Regex.
Import Regex.

(* ------------------------------------------------------------------ *)
(** * JavaScript numbers *)

Module JsNumber.

Definition prec : Z := 53.
Definition emax : Z := 1024.

Definition number := spec_float.

Definition fadd : number -> number -> number := SFadd prec emax.
Definition fsub : number -> number -> number := SFsub prec emax.
Definition fmul : number -> number -> number := SFmul prec emax.
Definition fdiv : number -> number -> number := SFdiv prec emax.

Definition NaN : number := S754_nan.
Definition pos_zero : number := S754_zero false.
Definition pos_infinity : number := S754_infinity false.

(** The number value of an integer (exact below 2^53). *)
Definition of_Z (z : Z) : number := binary_normalize prec emax z 0 false.

(** The number value of the decimal [n / 10^k], rounded to nearest, ties
    to even, as a numeric literal or [parseFloat] yields it. *)
Definition of_decimal (n : Z) (k : nat) : number :=
  match n with
  | Zpos _ =>
      let '(q, e, l) :=
        SFdiv_core_binary prec emax n 0 (10 ^ Z.of_nat k) 0 in
      binary_round_aux prec emax false q e l
  | _ => pos_zero
  end.


Definition is_finite (x : number) : bool :=
  match x with
  | S754_zero _ | S754_finite _ _ _ => true
  | _ => false
  end.

Definition is_zero (x : number) : bool :=
  match x with S754_zero _ => true | _ => false end.


Definition digit_val (c : cu) : Z := Z.of_N (c - 48).

Fixpoint digits_val (acc : Z) (s : jsstring) : Z :=
  match s with
  | [] => acc
  | c :: s' => digits_val (10 * acc + digit_val c) s'
  end.

Fixpoint span (p : cu -> bool) (s : jsstring) : jsstring * jsstring :=
  match s with
  | c :: s' =>
      if p c then let (a, b) := span p s' in (c :: a, b) else ([], s)
  | [] => ([], [])
  end.

(** [parseFloat] on unsigned decimal text without exponent, which is all
    the capture groups of the population pattern can hold: leading white
    space is skipped, the longest prefix [digits] or [digits.digits] is
    converted, anything after it is ignored, and no digit at all gives
    [NaN]. *)
Definition parseFloat (s : jsstring) : number :=
  let (ip, r) := span is_digit (trimStart s) in
  let fp :=
    match r with
    | c :: r' => if is_char "." c then fst (span is_digit r') else []
    | [] => []
    end in
  match ip ++ fp with
  | [] => NaN
  | ds => of_decimal (digits_val 0 ds) (length fp)
  end.

(** [Math.round]: the integer nearest to [x], ties toward +infinity;
    [floor (x + 1/2)] computed exactly, the sign of a zero result being
    that of [x]. *)
Definition Math_round (x : number) : number :=
  match x with
  | S754_finite s m e =>
      if 0 <=? e then x
      else
        let n := (2 * cond_Zopp s (Zpos m) + 2 ^ (- e)) / 2 ^ (1 - e) in
        match n with
        | Z0 => S754_zero s
        | _ => of_Z n
        end
  | _ => x
  end.

(** A decimal literal of the source text. *)
Definition lit (s : string) : number := parseFloat (str s).

End JsNumber.
Import JsNumber.

(* ------------------------------------------------------------------ *)
(** * The value parser ([parsePopulationValues], [getMultiplier]) *)

Record PopulationValues : Type := {
  current : number;
  maximum : number;
  percentage : number;
  growthMultiplier : number
}.

(** [\d+(?:\.\d+)?] *)
Definition number_re : regex :=
  Seq (Plus is_digit) (Opt (Seq (Class (is_char ".")) (Plus is_digit))).

(** [[kKmMbB]] *)
Definition is_unit (c : cu) : bool := existsb (N.eqb c) (str "kKmMbB").

(** [/(\d+(?:\.\d+)?)\s*([kKmMbB]?)\s*\/\s*(\d+(?:\.\d+)?)\s*([kKmMbB]?)/] *)
Definition population_re : regex :=
  seq [ Group 1 number_re; Star is_space; Group 2 (Opt (Class is_unit));
        Star is_space; Class (is_char "/"); Star is_space;
        Group 3 number_re; Star is_space; Group 4 (Opt (Class is_unit)) ].

(** [match[i]]; every group of [population_re] takes part in every match,
    so the default is never used. *)
Definition match_at (i : nat) (m : captures) : jsstring :=
  match group i m with
  | Some s => s
  | None => []
  end.

Definition getMultiplier (multiplier : jsstring) : number :=
  match multiplier with
  | [] => of_Z 1
  | _ =>
      let u := toUpperCase multiplier in
      if eqb u (str "K") then of_Z 1000
      else if eqb u (str "M") then of_Z 1000000
      else if eqb u (str "B") then of_Z 1000000000
      else of_Z 1
  end.

Section Parser.

(** [Math.pow] (the operator [**]): implementation-approximated in
    ECMAScript, hence a parameter of the embedding. *)
Variable Math_pow : number -> number -> number.

Definition growth (current maximum : number) : number :=
  let maxGrowthRateForMaxPop :=
    fadd (of_Z 10)
         (fmul (lit "0.07697433367625858") (Math_pow maximum (lit "0.73"))) in
  let actualGrowthRate :=
    fadd (of_Z 10)
         (fmul (fdiv (Math_pow current (lit "0.73")) (of_Z 4))
               (fsub (of_Z 1) (fdiv current maximum))) in
  fdiv actualGrowthRate maxGrowthRateForMaxPop.

Definition parsePopulationValues (populationText : jsstring)
  : option PopulationValues :=
  match re_match population_re populationText with
  | None => None
  | Some m =>
      let current :=
        fmul (parseFloat (match_at 1 m)) (getMultiplier (match_at 2 m)) in
      let maximum :=
        fmul (parseFloat (match_at 3 m)) (getMultiplier (match_at 4 m)) in
      let percentage := Math_round (fmul (fdiv current maximum) (of_Z 100)) in
      Some {| current := current; maximum := maximum;
              percentage := percentage;
              growthMultiplier := growth current maximum |}
  end.

(** The base text of [updatePopulationDisplay]:
    [/^(.*?)(?:\s*\([^)]*\))?$/], then [trim] of the first group; the
    text itself when the expression does not match. *)
Definition base_re : regex :=
  seq [ Bol; Group 1 (LazyStar is_dot);
        Opt (seq [ Star is_space; Class (is_char "(");
                   Star (fun c => negb (is_char ")" c));
                   Class (is_char ")") ]);
        Eol ].

Definition baseText (textContent : jsstring) : jsstring :=
  match re_match base_re textContent with
  | Some m => trim (match_at 1 m)
  | None => textContent
  end.

(** The parser of the design document: base text, then the pattern. *)
Definition parse (textContent : jsstring) : option PopulationValues :=
  parsePopulationValues (baseText textContent).

End Parser.

(* ------------------------------------------------------------------ *)
(** * The session recorder ([getGameId], [saveRecordingToStorage],
      [updateRecording]) *)

Inductive GameState : Type := NOT_ACTIVE | RECORDING | DONE_RECORDING.

Definition GameState_eqb (a b : GameState) : bool :=
  match a, b with
  | NOT_ACTIVE, NOT_ACTIVE | RECORDING, RECORDING
  | DONE_RECORDING, DONE_RECORDING => true
  | _, _ => false
  end.

(** The module-level variables of the content script. *)
Record Globals : Type := {
  gameState : GameState;
  gameStart : Z;
  recording : list number;
  lastRecorded : Z;
  lastStorageSave : Z;
  currentGameId : option jsstring
}.

(** What a tick reads from its environment: the clock, the fragment of
    the page address, and [new URLSearchParams(location.search).get('join')]. *)
Record Env : Type := {
  now : Z;
  location_hash : jsstring;
  search_join : option jsstring
}.

(** The argument of one call of [chrome.storage.local.set]. *)
Record StorageSet : Type := {
  key : jsstring;
  value_recording : list number;
  value_timestamp : Z
}.

Definition initial (loaded_at : Z) : Globals :=
  {| gameState := NOT_ACTIVE; gameStart := loaded_at; recording := [];
     lastRecorded := 0; lastStorageSave := 0; currentGameId := None |}.

Definition is_alnum (c : cu) : bool :=
  ((65 <=? c) && (c <=? 90) || (97 <=? c) && (c <=? 122)
   || (48 <=? c) && (c <=? 57))%N.

(** [/#join=([A-Za-z0-9]+)/] *)
Definition join_re : regex :=
  seq [ Class (is_char "#"); Class (is_char "j"); Class (is_char "o");
        Class (is_char "i"); Class (is_char "n"); Class (is_char "=");
        Group 1 (Plus is_alnum) ].

Definition getGameId (env : Env) : option jsstring :=
  let hashMatch := re_match join_re (location_hash env) in
  match hashMatch with
  | Some m =>
      if truthy (group 1 m) then group 1 m
      else if truthy (search_join env) then search_join env else None
  | None => if truthy (search_join env) then search_join env else None
  end.

(** The call of [chrome.storage.local.set] is issued before the function
    first suspends, with the values the variables hold at that moment. *)
Definition saveRecordingToStorage (env : Env) (g : Globals)
  : list StorageSet :=
  if negb (truthy (currentGameId g)) || Nat.eqb (length (recording g)) 0
  then []
  else
    match currentGameId g with
    | Some id =>
        [ {| key := id; value_recording := recording g;
             value_timestamp := now env |} ]
    | None => []
    end.

Definition updateRecording (env : Env) (valid : bool) (population : number)
    (g : Globals) : Globals * list StorageSet :=
  let gameId := getGameId env in
  if negb valid then
    let final :=
      if negb (GameState_eqb (gameState g) NOT_ACTIVE) then
        if truthy (currentGameId g) && Nat.ltb 0 (length (recording g))
        then saveRecordingToStorage env g else []
      else [] in
    ({| gameState := NOT_ACTIVE; gameStart := now env; recording := [];
        lastRecorded := 0; lastStorageSave := 0; currentGameId := None |},
     final)
  else
    let '(g1, previous) :=
      if strict_neq gameId (currentGameId g) then
        ({| gameState := RECORDING; gameStart := now env; recording := [];
            lastRecorded := 0; lastStorageSave := 0;
            currentGameId := gameId |},
         if truthy (currentGameId g) && Nat.ltb 0 (length (recording g))
         then saveRecordingToStorage env g else [])
      else (g, []) in
    let g2 :=
      if now env - lastRecorded g1 >? 1000 then
        {| gameState := gameState g1; gameStart := gameStart g1;
           recording := recording g1 ++ [population];
           lastRecorded := now env;
           lastStorageSave := lastStorageSave g1;
           currentGameId := currentGameId g1 |}
      else g1 in
    if now env - lastStorageSave g2 >? 5000 then
      ({| gameState := gameState g2; gameStart := gameStart g2;
          recording := recording g2; lastRecorded := lastRecorded g2;
          lastStorageSave := now env;
          currentGameId := currentGameId g2 |},
       previous ++ saveRecordingToStorage env g2)
    else (g2, previous).

(** One polling tick as the recorder sees it. *)
Record Tick : Type := {
  tick_env : Env;
  tick_valid : bool;
  tick_population : number
}.

Definition step (g : Globals) (t : Tick) : Globals * list StorageSet :=
  updateRecording (tick_env t) (tick_valid t) (tick_population t) g.

(** A sequence of ticks, with the writes of each tick in order. *)
Fixpoint run (g : Globals) (ticks : list Tick)
  : Globals * list (list StorageSet) :=
  match ticks with
  | [] => (g, [])
  | t :: ticks' =>
      let (g1, w) := step g t in
      let (g2, ws) := run g1 ticks' in
      (g2, w :: ws)
  end.

Inductive reachable : Globals -> Prop :=
| reachable_initial : forall t0, reachable (initial t0)
| reachable_step : forall g t, reachable g -> reachable (fst (step g t)).

(** The recorder part of [updatePopulationDisplay]: [text] is the text of
    the population element, [None] when the element is not found. *)
Definition updatePopulationDisplay (Math_pow : number -> number -> number)
    (env : Env) (text : option jsstring) (g : Globals)
  : Globals * list StorageSet :=
  match text with
  | None => updateRecording env false (of_Z 0) g
  | Some textContent =>
      match parse Math_pow textContent with
      | None => updateRecording env false (of_Z 0) g
      | Some values => updateRecording env true (current values) g
      end
  end.

(* ------------------------------------------------------------------ *)
(** * The bulk export (the [chrome.action.onClicked] listener) *)

(** A value of the storage area as the listener inspects it: the record
    may be missing ([null]), and so may its [recording]. *)
Record StoredRecord : Type := {
  stored_recording : option (list number);
  stored_timestamp : Z
}.

(** The object [chrome.storage.local.get(null)] resolves to, as the list
    of its properties in [for ... in] order. *)
Definition StorageItems := list (jsstring * option StoredRecord).

Inductive Effect : Type :=
| ConsoleLog (message : jsstring)
| ConsoleError
| Download (url filename : jsstring) (saveAs : bool).

Definition nl : jsstring := [10%N].

Definition header : jsstring := str "game_id,population_values" ++ nl.

(** [result[gameId] && result[gameId].recording
     && result[gameId].recording.length > 0] *)
Definition exported (v : option StoredRecord) : option (list number) :=
  match v with
  | Some {| stored_recording := Some (x :: l) |} => Some (x :: l)
  | _ => None
  end.

Section BulkExport.

(** [Number::toString] and [encodeURIComponent] (which throws on a lone
    surrogate) belong to the runtime. *)
Variable numberToString : number -> jsstring.
Variable encodeURIComponent : jsstring -> option jsstring.

(** [Array.prototype.join] on an array of numbers. *)
Definition join (sep : jsstring) (l : list number) : jsstring :=
  match l with
  | [] => []
  | x :: l' =>
      fold_left (fun acc y => acc ++ sep ++ numberToString y) l'
                (numberToString x)
  end.

(** The loop that builds [csvContent]. *)
Definition csvContent (result : StorageItems) : jsstring :=
  fold_left
    (fun csv (item : jsstring * option StoredRecord) =>
       let (gameId, v) := item in
       match exported v with
       | Some rec => csv ++ gameId ++ str "," ++ join (str ",") rec ++ nl
       | None => csv
       end)
    result header.

(** [replace(/[:.]/g, '-')] *)
Definition dashes (s : jsstring) : jsstring :=
  map (fun c => if is_char ":" c || is_char "." c then ch "-" else c) s.

(** The listener, given what the storage area holds and
    [new Date().toISOString()]. *)
Definition onClicked (result : StorageItems) (iso : jsstring)
  : list Effect :=
  if Nat.eqb (length result) 0 then
    [ ConsoleLog (str "No recording data found in storage") ]
  else
    match encodeURIComponent (csvContent result) with
    | Some encoded =>
        [ Download (str "data:text/csv;charset=utf-8," ++ encoded)
                   (str "openfront_population_history_" ++ dashes iso
                      ++ str ".csv")
                   true ]
    | None => [ ConsoleError ]
    end.

End BulkExport.

(* ------------------------------------------------------------------ *)
(** * Notions used in the statements *)

(** The tick is a session switch: [gameId !== currentGameId]. *)
Definition switches (env : Env) (g : Globals) : bool :=
  strict_neq (getGameId env) (currentGameId g).

(** The tick appends a sample: the value is valid and more than 1000 ms
    lie between the clock and the last sample of the session, whose time
    is 0 when the tick starts the session. *)
Definition sampled (env : Env) (valid : bool) (g : Globals) : bool :=
  valid && (now env - (if switches env g then 0 else lastRecorded g) >? 1000).

(** The times at which the ticks of a run append a sample. *)
Fixpoint sample_times (g : Globals) (ticks : list Tick) : list Z :=
  match ticks with
  | [] => []
  | t :: ticks' =>
      (if sampled (tick_env t) (tick_valid t) g then [now (tick_env t)]
       else [])
      ++ sample_times (fst (step g t)) ticks'
  end.

(** Every tick is valid and carries the session id the recorder holds. *)
Definition same_session (g : Globals) (ticks : list Tick) : bool :=
  forallb (fun t => tick_valid t && negb (switches (tick_env t) g)) ticks.

(** Successive elements are more than 1000 apart. *)
Fixpoint spaced (l : list Z) : Prop :=
  match l with
  | a :: (b :: _) as l' => b - a > 1000 /\ spaced l'
  | _ => True
  end.

(** The write that persists the buffer of [g] at the time of [env]. *)
Definition flush_of (env : Env) (g : Globals) (id : jsstring) : StorageSet :=
  {| key := id; value_recording := recording g; value_timestamp := now env |}.

Definition nonempty {A : Type} (l : list A) : bool :=
  match l with [] => false | _ :: _ => true end.

(** In a reachable state, [NOT_ACTIVE] goes with a null session id, and a
    session id that is not null is not the empty string. *)
Definition well_formed (g : Globals) : Prop :=
  (gameState g = NOT_ACTIVE -> currentGameId g = None)
  /\ (currentGameId g = None \/ truthy (currentGameId g) = true).

(* ------------------------------------------------------------------ *)
(** * Scenarios *)

(** A clock value of the present day. *)
Definition t0 : Z := 1700000000000.

(** The page of the game [id] at time [t], and a page whose address names
    no game. *)
Definition at_game (id : string) (t : Z) : Env :=
  {| now := t; location_hash := str ("#join=" ++ id); search_join := None |}.

Definition no_game (t : Z) : Env :=
  {| now := t; location_hash := []; search_join := None |}.

Definition valid_tick (env : Env) (population : Z) : Tick :=
  {| tick_env := env; tick_valid := true; tick_population := of_Z population |}.

Definition invalid_tick (env : Env) : Tick :=
  {| tick_env := env; tick_valid := false; tick_population := of_Z 0 |}.

(** Game [A] is recorded, then the address loses the game id while the
    population stays on display. *)
Definition left_game_A : Globals :=
  fst (run (initial t0)
         [ valid_tick (at_game "A" t0) 100;
           valid_tick (no_game (t0 + 100)) 101 ]).

(** [n] valid ticks, 100 ms apart, the first at time [t]. *)
Fixpoint every_100ms (env_at : Z -> Env) (population : Z) (t : Z) (n : nat)
  : list Tick :=
  match n with
  | O => []
  | S n' =>
      valid_tick (env_at t) population
      :: every_100ms env_at population (t + 100) n'
  end.

(** A stand-in for [Math.pow] where a closed instance of a statement is
    wanted; no statement depends on its values. *)
Definition pow_stand_in (x y : number) : number := x.

(** The rows of the export as the design document words them: the fields
    of a row separated by commas, one row per record whose recording is
    not empty. *)
Fixpoint comma_separated (fields : list jsstring) : jsstring :=
  match fields with
  | [] => []
  | [x] => x
  | x :: fields' => x ++ str "," ++ comma_separated fields'
  end.

Fixpoint data_records (result : StorageItems)
  : list (jsstring * list number) :=
  match result with
  | [] => []
  | (gameId, Some {| stored_recording := Some (x :: l) |}) :: result' =>
      (gameId, x :: l) :: data_records result'
  | _ :: result' => data_records result'
  end.

(* ------------------------------------------------------------------ *)
(** * The shape of the population text, in the words of the design
      document *)

(** A non-empty run of decimal digits. *)
Definition digits (s : jsstring) : bool := nonempty s && forallb is_digit s.

Definition spaces (s : jsstring) : bool := forallb is_space s.

(** No unit, or one letter among [k], [K], [m], [M], [b], [B]. *)
Definition unit_text (u : jsstring) : bool :=
  match u with
  | [] => true
  | [c] => is_unit c
  | _ => false
  end.

Definition fraction_ok (f : option jsstring) : bool :=
  match f with
  | Some d => digits d
  | None => true
  end.

Definition fraction_digits (f : option jsstring) : jsstring :=
  match f with
  | Some d => d
  | None => []
  end.

(** The text of an unsigned decimal with integer part [i] and optional
    fractional part [f]. *)
Definition number_text (i : jsstring) (f : option jsstring) : jsstring :=
  i ++ match f with
       | Some d => ch "." :: d
       | None => []
       end.

(** Its number value: the decimal, rounded once to binary64. *)
Definition decimal_value (i : jsstring) (f : option jsstring) : number :=
  of_decimal (digits_val 0 (i ++ fraction_digits f))
             (length (fraction_digits f)).

Definition unit_multiplier (u : jsstring) : number :=
  if eqb u (str "k") || eqb u (str "K") then of_Z 1000
  else if eqb u (str "m") || eqb u (str "M") then of_Z 1000000
  else if eqb u (str "b") || eqb u (str "B") then of_Z 1000000000
  else of_Z 1.

(** [<number><unit>? / <number><unit>?] with optional white space around
    the units and the slash. *)
Definition population_text (i1 : jsstring) (f1 : option jsstring)
    (w1 u1 w2 w3 i2 : jsstring) (f2 : option jsstring) (w4 u2 : jsstring)
  : jsstring :=
  number_text i1 f1 ++ w1 ++ u1 ++ w2 ++ ch "/" :: w3
    ++ number_text i2 f2 ++ w4 ++ u2.

(** The first code unit, if any, is outside of the class [p]. *)
Definition nohead (p : cu -> bool) (s : jsstring) : bool :=
  match s with
  | [] => true
  | c :: _ => negb (p c)
  end.

(** What follows the population text cannot prolong it. *)
Definition ends_match (rest : jsstring) : bool :=
  nohead is_digit rest && nohead (is_char ".") rest
  && nohead is_space rest && nohead is_unit rest.

(** The language of an expression without anchors: the texts a match may
    consume, whatever the order in which the matcher tries them. *)
Fixpoint lang (r : regex) (s : jsstring) : Prop :=
  match r with
  | Eps => s = []
  | Class p => exists c, s = [c] /\ p c = true
  | Seq r1 r2 => exists s1 s2, s = s1 ++ s2 /\ lang r1 s1 /\ lang r2 s2
  | Opt r1 => s = [] \/ lang r1 s
  | Star p | LazyStar p => forallb p s = true
  | Plus p => nonempty s && forallb p s = true
  | Group _ r1 => lang r1 s
  | Bol | Eol => False
  end.

Fixpoint anchor_free (r : regex) : bool :=
  match r with
  | Seq r1 r2 => anchor_free r1 && anchor_free r2
  | Opt r1 | Group _ r1 => anchor_free r1
  | Bol | Eol => false
  | _ => true
  end.

(** The text is, in its entirety, a population text. *)
Definition has_shape (s : jsstring) : Prop :=
  exists i1 f1 w1 u1 w2 w3 i2 f2 w4 u2,
    s = population_text i1 f1 w1 u1 w2 w3 i2 f2 w4 u2
    /\ digits i1 = true /\ fraction_ok f1 = true /\ spaces w1 = true
    /\ unit_text u1 = true /\ spaces w2 = true /\ spaces w3 = true
    /\ digits i2 = true /\ fraction_ok f2 = true /\ spaces w4 = true
    /\ unit_text u2 = true.

(** Some part of the text is a population text. *)
Definition contains_shape (s : jsstring) : Prop :=
  exists pre core post, s = pre ++ core ++ post /\ has_shape core.

(** The captures of a match: matching [s] against [r] turns the captures
    [c] into [c']. *)
Fixpoint captured (r : regex) (s : jsstring) (c c' : captures) : Prop :=
  match r with
  | Eps => s = [] /\ c' = c
  | Class p => (exists x, s = [x] /\ p x = true) /\ c' = c
  | Seq r1 r2 =>
      exists s1 s2 c1,
        s = s1 ++ s2 /\ captured r1 s1 c c1 /\ captured r2 s2 c1 c'
  | Opt r1 => (s = [] /\ c' = c) \/ captured r1 s c c'
  | Star p | LazyStar p => forallb p s = true /\ c' = c
  | Plus p => nonempty s && forallb p s = true /\ c' = c
  | Group i r1 => exists c1, captured r1 s c c1 /\ c' = (i, s) :: c1
  | Bol | Eol => False
  end.

Fixpoint group_free (r : regex) : bool :=
  match r with
  | Seq r1 r2 => group_free r1 && group_free r2
  | Opt r1 => group_free r1
  | Group _ _ => false
  | _ => true
  end.

(** The values of the design document for the numbers and units of a
    population text. *)
Definition values_of (Math_pow : number -> number -> number)
    (i1 : jsstring) (f1 : option jsstring) (u1 : jsstring)
    (i2 : jsstring) (f2 : option jsstring) (u2 : jsstring)
  : PopulationValues :=
  let current := fmul (decimal_value i1 f1) (unit_multiplier u1) in
  let maximum := fmul (decimal_value i2 f2) (unit_multiplier u2) in
  {| current := current; maximum := maximum;
     percentage := Math_round (fmul (fdiv current maximum) (of_Z 100));
     growthMultiplier := growth Math_pow current maximum |}.


(** The result of an operation on values of sign [sx]. *)
Definition signed (sx : bool) (r : number) : Prop :=
  match r with
  | S754_zero s | S754_finite s _ _ | S754_infinity s => s = sx
  | S754_nan => False
  end.


(* ------------------------------------------------------------------ *)
(** * Further notions: writes of a run, annotations, infinities *)

(** Successive elements are more than [d] apart. *)
Fixpoint spaced_by (d : Z) (l : list Z) : Prop :=
  match l with
  | a :: (b :: _) as l' => b - a > d /\ spaced_by d l'
  | _ => True
  end.

(** The times of the writes of a run, in order. *)
Definition write_times (g : Globals) (ticks : list Tick) : list Z :=
  map value_timestamp (concat (snd (run g ticks))).

(** The record the storage area holds after the write [w]. *)
Definition stored_of (w : StorageSet) : StoredRecord :=
  {| stored_recording := Some (value_recording w);
     stored_timestamp := value_timestamp w |}.

(** [\s*\([^)]*\)], the trailing annotation of [base_re]. *)
Definition annotation_re : regex :=
  seq [ Star is_space; Class (is_char "(");
        Star (fun c => negb (is_char ")" c)); Class (is_char ")") ].

(** No code unit of the text is the character [a]. *)
Definition without (a : ascii) (s : jsstring) : bool :=
  forallb (fun c => negb (is_char a c)) s.

Definition is_infinite (x : number) : bool :=
  match x with S754_infinity _ => true | _ => false end.

(** The states the recorder reaches when it is driven by the polling of
    the display. *)
Inductive polled (Math_pow : number -> number -> number) : Globals -> Prop :=
| polled_initial : forall t, polled Math_pow (initial t)
| polled_tick : forall g env text,
    polled Math_pow g ->
    polled Math_pow (fst (updatePopulationDisplay Math_pow env text g)).

(** A point where the base expression may cut the text: no line
    terminator stands before it, and what follows it to the end of the
    text is nothing, or a trailing annotation. *)
Definition cuts (text b : jsstring) : Prop :=
  forallb is_dot b = true
  /\ exists tail, text = b ++ tail /\ (tail = [] \/ lang annotation_re tail).

(** In the words of the design document: the number value of the exact
    product of the decimal [i.f] and the integer [mult], and
    [c / m * 100] rounded half up, both computed on integers. *)
Definition exact_product (i : jsstring) (f : option jsstring) (mult : Z)
  : number :=
  of_decimal (digits_val 0 (i ++ fraction_digits f) * mult)
             (length (fraction_digits f)).

Definition exact_percentage (c m : Z) : Z := (2 * (100 * c) + m) / (2 * m).

(** What follows a population text cannot prolong the match.  After a
    unit anything may follow.  Without a unit, neither a unit letter nor
    white space follows; and when the second number ends the match, no
    digit follows it, nor, if it has no fractional part, a dot and a
    digit. *)
Definition no_fraction_follows (s : jsstring) : bool :=
  match s with
  | c :: d :: _ => negb (is_char "." c && is_digit d)
  | _ => true
  end.

Definition greedy_end (f2 : option jsstring) (w4 u2 rest : jsstring) : bool :=
  match u2 with
  | _ :: _ => true
  | [] =>
      nohead is_unit rest && nohead is_space rest
      && match w4 with
         | _ :: _ => true
         | [] =>
             nohead is_digit rest
             && match f2 with
                | Some _ => true
                | None => no_fraction_follows rest
                end
         end
  end.

(** No population text starts in [text] before the end of its prefix
    [pre]. *)
Definition leftmost (text pre : jsstring) : Prop :=
  forall p1 p2, text = p1 ++ p2 -> (length p1 < length pre)%nat ->
  forall c1 c2, p2 = c1 ++ c2 -> ~ has_shape c1.

(* ------------------------------------------------------------------ *)
(** * The display ([updatePopulationDisplay], the child nodes of the
      population element) *)

(** A child node: a text node with its data, an element with its tag
    name and text content, or a node of another type, which adds nothing
    to the text content of its parent. *)
Inductive Node : Type :=
| TextNode (data : jsstring)
| ElementNode (tagName : jsstring) (content : jsstring)
| OtherNode.

(** [htmlElement.textContent] *)
Definition textContent_of (childNodes : list Node) : jsstring :=
  concat (map (fun n => match n with
                        | TextNode d => d
                        | ElementNode _ c => c
                        | OtherNode => []
                        end) childNodes).

(** [node.nodeType === Node.TEXT_NODE && node.textContent
     && node.textContent.includes('%')] *)
Definition has_percent (n : Node) : bool :=
  match n with
  | TextNode d => nonempty d && existsb (is_char "%") d
  | _ => false
  end.

(** The loop that removes the text nodes with a percent sign; the index
    stays in place after a removal. *)
Fixpoint removePercentNodes (childNodes : list Node) : list Node :=
  match childNodes with
  | [] => []
  | n :: rest =>
      if has_percent n then removePercentNodes rest
      else n :: removePercentNodes rest
  end.

(** [node.nodeType === Node.ELEMENT_NODE && node.tagName === 'SPAN'] *)
Definition is_span (n : Node) : bool :=
  match n with
  | ElementNode t _ => eqb t (str "SPAN")
  | _ => false
  end.

(** The search of the first [SPAN] child, then [insertBefore] it, or
    [appendChild] when there is none. *)
Fixpoint insertMetrics (metrics : Node) (childNodes : list Node)
  : list Node :=
  match childNodes with
  | [] => [metrics]
  | n :: rest =>
      if is_span n then metrics :: n :: rest
      else n :: insertMetrics metrics rest
  end.

Section Display.

Variable Math_pow : number -> number -> number.

(** [Number::toString] and [Number.prototype.toFixed] with two digits. *)
Variable numberToString : number -> jsstring.
Variable toFixed2 : number -> jsstring.

Definition metricsText (values : PopulationValues) : jsstring :=
  str " pop: " ++ numberToString (percentage values) ++ str "% g: "
    ++ toFixed2 (growthMultiplier values).

(** The child nodes of the population element after one update: the text
    is read first, then the nodes with a percent sign are removed, then
    the text is parsed and the metrics are inserted. *)
Definition refreshDisplay (childNodes : list Node) : list Node :=
  let textContent := textContent_of childNodes in
  let cleaned := removePercentNodes childNodes in
  match parse Math_pow textContent with
  | None => cleaned
  | Some values => insertMetrics (TextNode (metricsText values)) cleaned
  end.

End Display.

(* ------------------------------------------------------------------ *)
(** * The recorder: basic facts *)

Lemma truthy_Some : forall o, truthy o = true ->
  exists c id, o = Some (c :: id).
Proof.
  intros [[|c id]|]; simpl; intros H; try discriminate.
  exists c, id; reflexivity.
Qed.

Lemma getGameId_truthy : forall env,
  getGameId env = None \/ truthy (getGameId env) = true.
Proof.
  intros env. unfold getGameId.
  destruct (re_match join_re (location_hash env)) as [m|].
  - destruct (truthy (group 1 m)) eqn:E1; [right; exact E1|].
    destruct (truthy (search_join env)) eqn:E2; [right; exact E2|left; reflexivity].
  - destruct (truthy (search_join env)) eqn:E2; [right; exact E2|left; reflexivity].
Qed.

Lemma ltb_length_nonempty : forall (A : Type) (l : list A),
  Nat.ltb 0 (length l) = nonempty l.
Proof. intros A [|x l]; reflexivity. Qed.

Lemma eqb_length_nonempty : forall (A : Type) (l : list A),
  Nat.eqb (length l) 0 = negb (nonempty l).
Proof. intros A [|x l]; reflexivity. Qed.

Lemma save_spec : forall env g,
  saveRecordingToStorage env g =
  match currentGameId g with
  | Some (c :: id) =>
      if nonempty (recording g) then [flush_of env g (c :: id)] else []
  | _ => []
  end.
Proof.
  intros env g. unfold saveRecordingToStorage, flush_of.
  rewrite eqb_length_nonempty.
  destruct (currentGameId g) as [[|c id]|]; simpl; try reflexivity.
  destruct (nonempty (recording g)); reflexivity.
Qed.

(** The two valid cases of [updateRecording], with the conditions
    evaluated. *)
Lemma update_switch : forall env pop g,
  switches env g = true ->
  updateRecording env true pop g =
  ({| gameState := RECORDING; gameStart := now env;
      recording := if now env >? 1000 then [pop] else [];
      lastRecorded := if now env >? 1000 then now env else 0;
      lastStorageSave := if now env >? 5000 then now env else 0;
      currentGameId := getGameId env |},
   (if truthy (currentGameId g) && nonempty (recording g)
    then saveRecordingToStorage env g else [])
   ++ (if now env >? 5000 then
         match getGameId env with
         | Some id => if now env >? 1000 then
               [ {| key := id; value_recording := [pop];
                    value_timestamp := now env |} ] else []
         | None => []
         end
       else [])).
Proof.
  intros env pop g Hs. unfold switches in Hs.
  unfold updateRecording. cbv zeta. rewrite Hs, ltb_length_nonempty.
  cbn. rewrite !Z.sub_0_r.
  destruct (now env >? 1000) eqn:E1; cbn; rewrite ?Z.sub_0_r;
    destruct (now env >? 5000) eqn:E5; cbn.
  - f_equal. f_equal. rewrite save_spec; cbn.
    destruct (getGameId_truthy env) as [H|H].
    + rewrite H. reflexivity.
    + destruct (truthy_Some _ H) as (c & id & ->). reflexivity.
  - rewrite app_nil_r. reflexivity.
  - f_equal. f_equal. rewrite save_spec; cbn.
    destruct (getGameId env) as [[|c id]|]; reflexivity.
  - rewrite app_nil_r. reflexivity.
Qed.

Lemma update_same : forall env pop g,
  switches env g = false ->
  updateRecording env true pop g =
  let g2 :=
    {| gameState := gameState g; gameStart := gameStart g;
       recording := recording g
         ++ (if now env - lastRecorded g >? 1000 then [pop] else []);
       lastRecorded :=
         if now env - lastRecorded g >? 1000 then now env
         else lastRecorded g;
       lastStorageSave := lastStorageSave g;
       currentGameId := currentGameId g |} in
  if now env - lastStorageSave g >? 5000 then
    ({| gameState := gameState g; gameStart := gameStart g;
        recording := recording g2; lastRecorded := lastRecorded g2;
        lastStorageSave := now env; currentGameId := currentGameId g |},
     saveRecordingToStorage env g2)
  else (g2, []).
Proof.
  intros env pop g Hs. unfold switches in Hs.
  unfold updateRecording. cbv zeta. rewrite Hs. cbn.
  destruct g as [gs st rec lr ls id]; cbn.
  destruct (now env - lr >? 1000); cbn;
    destruct (now env - ls >? 5000); cbn; rewrite ?app_nil_r; reflexivity.
Qed.

Lemma update_invalid : forall env pop g,
  updateRecording env false pop g =
  (initial (now env),
   if negb (GameState_eqb (gameState g) NOT_ACTIVE)
      && truthy (currentGameId g) && nonempty (recording g)
   then saveRecordingToStorage env g else []).
Proof.
  intros env pop g. unfold updateRecording; cbv zeta.
  rewrite ltb_length_nonempty. cbn.
  destruct (GameState_eqb (gameState g) NOT_ACTIVE); reflexivity.
Qed.

Lemma step_well_formed : forall g t,
  well_formed g -> well_formed (fst (step g t)).
Proof.
  intros g [env valid pop] [H1 H2]. unfold step; cbn.
  destruct valid.
  - destruct (switches env g) eqn:Hs.
    + rewrite update_switch by exact Hs. cbn.
      split; [discriminate | apply getGameId_truthy].
    + rewrite update_same by exact Hs. cbn.
      destruct (now env - lastStorageSave g >? 5000); cbn;
        split; assumption.
  - rewrite update_invalid. cbn. split; [reflexivity | left; reflexivity].
Qed.

Lemma reachable_well_formed : forall g, reachable g -> well_formed g.
Proof.
  induction 1 as [t0 | g t _ IH].
  - split; [reflexivity | left; reflexivity].
  - apply step_well_formed, IH.
Qed.

Lemma save_In : forall env g w,
  In w (saveRecordingToStorage env g) ->
  currentGameId g = Some (key w) /\ key w <> []
  /\ value_recording w = recording g /\ recording g <> [].
Proof.
  intros env g w. rewrite save_spec.
  destruct (currentGameId g) as [[|c id]|]; cbn; try tauto.
  destruct (recording g) as [|x l] eqn:E; cbn; [tauto|].
  intros [<-|[]]. cbn. rewrite E. repeat split; discriminate.
Qed.

Lemma guarded_save : forall env g,
  (if truthy (currentGameId g) && nonempty (recording g)
   then saveRecordingToStorage env g else [])
  = saveRecordingToStorage env g.
Proof.
  intros env g. rewrite save_spec.
  destruct (currentGameId g) as [[|c id]|]; cbn; try reflexivity.
  destruct (nonempty (recording g)); reflexivity.
Qed.

Lemma step_writes : forall g t w,
  In w (snd (step g t)) -> key w <> [] /\ value_recording w <> [].
Proof.
  intros g [env valid pop] w. unfold step; cbn.
  destruct valid.
  - destruct (switches env g) eqn:Hs.
    + rewrite update_switch by exact Hs. cbn. rewrite guarded_save.
      intros H. apply in_app_or in H. destruct H as [H|H].
      * apply save_In in H. destruct H as (_ & H1 & H2 & H3).
        split; [exact H1 | rewrite H2; exact H3].
      * destruct (now env >? 5000); [|destruct H].
        destruct (getGameId_truthy env) as [E|E].
        -- rewrite E in H. destruct H.
        -- destruct (truthy_Some _ E) as (c & id & E'). rewrite E' in H.
           destruct (now env >? 1000); [|destruct H].
           destruct H as [<-|[]]. cbn. split; discriminate.
    + rewrite update_same by exact Hs. cbv zeta.
      destruct (now env - lastStorageSave g >? 5000); cbn; [|tauto].
      intros H. apply save_In in H. destruct H as (_ & H1 & H2 & H3).
      split; [exact H1 | rewrite H2; exact H3].
  - rewrite update_invalid. cbn.
    destruct (negb (GameState_eqb (gameState g) NOT_ACTIVE)); cbn; [|tauto].
    rewrite guarded_save.
    intros H. apply save_In in H. destruct H as (_ & H1 & H2 & H3).
    split; [exact H1 | rewrite H2; exact H3].
Qed.

Lemma run_writes : forall ticks g ws w,
  In ws (snd (run g ticks)) -> In w ws ->
  key w <> [] /\ value_recording w <> [].
Proof.
  induction ticks as [|t ticks IH]; intros g ws w; cbn.
  - tauto.
  - destruct (step g t) as [g1 w1] eqn:E1.
    destruct (run g1 ticks) as [g2 ws2] eqn:E2. cbn.
    intros [<-|Hin] Hw.
    + apply (step_writes g t). rewrite E1. exact Hw.
    + apply (IH g1 ws w); [rewrite E2; exact Hin | exact Hw].
Qed.

(** C10. Every write the recorder issues carries a non-null, non-empty
    session id as key and a non-empty list of samples as value:
    [saveRecordingToStorage] writes nothing when the current session id is
    null or the buffer is empty, a write it issues is keyed by the current
    id and holds the buffer, and this extends to every write of every tick
    of every run of [updateRecording]. *)
Theorem writes_keyed_and_nonempty :
  (forall env g,
     currentGameId g = None \/ recording g = [] ->
     saveRecordingToStorage env g = [])
  /\ (forall env g w,
        In w (saveRecordingToStorage env g) ->
        currentGameId g = Some (key w) /\ key w <> []
        /\ value_recording w = recording g /\ value_recording w <> [])
  /\ (forall g ticks ws w,
        In ws (snd (run g ticks)) -> In w ws ->
        key w <> [] /\ value_recording w <> []).
Proof.
  split; [|split].
  - intros env g [H|H]; rewrite save_spec, H; [reflexivity|].
    destruct (currentGameId g) as [[|c id]|]; reflexivity.
  - intros env g w H. apply save_In in H.
    destruct H as (H0 & H1 & H2 & H3). rewrite H2. auto.
  - intros g ticks ws w. apply run_writes.
Qed.

(* ------------------------------------------------------------------ *)
(** * The recorder: sampling *)

Lemma same_session_step : forall g t,
  tick_valid t = true -> switches (tick_env t) g = false ->
  currentGameId (fst (step g t)) = currentGameId g
  /\ lastRecorded (fst (step g t)) =
       (if sampled (tick_env t) true g then now (tick_env t)
        else lastRecorded g)
  /\ recording (fst (step g t)) =
       recording g
       ++ (if sampled (tick_env t) true g then [tick_population t] else []).
Proof.
  intros g [env valid pop]; cbn [tick_env tick_valid tick_population].
  intros -> Hs. unfold step; cbn [tick_env tick_valid tick_population].
  rewrite update_same by exact Hs. unfold sampled. rewrite Hs. cbn.
  destruct (now env - lastStorageSave g >? 5000); cbn; auto.
Qed.

Lemma spaced_cons : forall a b l,
  b - a > 1000 -> spaced (b :: l) -> spaced (a :: b :: l).
Proof. intros a b l H1 H2. split; assumption. Qed.

Lemma same_session_run : forall ticks g,
  same_session g ticks = true ->
  spaced (lastRecorded g :: sample_times g ticks)
  /\ length (recording (fst (run g ticks))) =
       (length (recording g) + length (sample_times g ticks))%nat.
Proof.
  induction ticks as [|t ticks IH]; intros g Hs.
  - cbn. split; [exact I | lia].
  - cbn in Hs. apply andb_prop in Hs. destruct Hs as [Ht Hs].
    apply andb_prop in Ht. destruct Ht as [Hv Hsw].
    apply negb_true_iff in Hsw.
    destruct (same_session_step g t Hv Hsw) as (Hid & Hlr & Hrec).
    assert (Hs' : same_session (fst (step g t)) ticks = true).
    { unfold same_session, switches in *. rewrite Hid. exact Hs. }
    destruct (IH _ Hs') as [IH1 IH2].
    cbn [sample_times run]. rewrite Hv.
    destruct (step g t) as [g1 w1] eqn:E1. cbn [fst] in *.
    destruct (run g1 ticks) as [g2 ws] eqn:E2. cbn [fst] in *.
    rewrite IH2, Hrec, length_app.
    destruct (sampled (tick_env t) true g) eqn:Esam.
    + rewrite Hlr in IH1. cbn [app length]. split; [|lia].
      apply spaced_cons; [|exact IH1].
      unfold sampled in Esam. rewrite Hsw in Esam. cbn in Esam.
      apply Z.gtb_lt in Esam. lia.
    + rewrite Hlr in IH1. cbn [app length]. split; [exact IH1 | lia].
Qed.

(** C1 (as amended). A tick appends the population value exactly when the
    value is valid and more than 1000 ms lie between the clock and the
    last sample of the session (time 0 when the tick starts the session):
    a tick without a valid value leaves an empty buffer, a session switch
    leaves the buffer with the new sample alone, any other valid tick
    keeps the buffer and adds the sample at its end.  The state of the
    recorder plays no part.  Within one session the appends are more than
    1000 ms apart, whatever the times of the ticks. *)
Theorem sampling_rule :
  (forall env valid pop g,
     recording (fst (updateRecording env valid pop g)) =
       (if valid then if switches env g then [] else recording g else [])
       ++ (if sampled env valid g then [pop] else [])
     /\ lastRecorded (fst (updateRecording env valid pop g)) =
          (if sampled env valid g then now env
           else if valid && negb (switches env g) then lastRecorded g
           else 0))
  /\ (forall g ticks,
        same_session g ticks = true ->
        spaced (lastRecorded g :: sample_times g ticks)
        /\ length (recording (fst (run g ticks))) =
             (length (recording g) + length (sample_times g ticks))%nat).
Proof.
  split; [|intros g ticks; apply same_session_run].
  intros env valid pop g. unfold sampled. destruct valid.
  - destruct (switches env g) eqn:Hs.
    + rewrite update_switch by exact Hs. cbn. rewrite Z.sub_0_r.
      destruct (now env >? 1000); auto.
    + rewrite update_same by exact Hs. cbn.
      destruct (now env - lastStorageSave g >? 5000); cbn;
        destruct (now env - lastRecorded g >? 1000); auto.
  - rewrite update_invalid. cbn. auto.
Qed.

Lemma sampling_rule_witness :
  spaced (lastRecorded (initial t0)
            :: sample_times (initial t0)
                 [ valid_tick (no_game t0) 100;
                   valid_tick (no_game (t0 + 1000)) 101;
                   valid_tick (no_game (t0 + 1001)) 102 ])
  /\ length (recording (fst (run (initial t0)
                 [ valid_tick (no_game t0) 100;
                   valid_tick (no_game (t0 + 1000)) 101;
                   valid_tick (no_game (t0 + 1001)) 102 ]))) = 2%nat.
Proof.
  exact (proj2 sampling_rule (initial t0)
           [ valid_tick (no_game t0) 100;
             valid_tick (no_game (t0 + 1000)) 101;
             valid_tick (no_game (t0 + 1001)) 102 ]
           eq_refl).
Defined.

(** C1 as stated fails.  On a page without game id the first valid tick
    appends its value although the state stays [NOT_ACTIVE]; and in state
    [RECORDING] a tick exactly 1000 ms after the last sample appends
    nothing. *)
Lemma sampling_counterexample :
  (let g1 := fst (updateRecording (no_game t0) true (of_Z 100) (initial t0)) in
   gameState g1 = NOT_ACTIVE /\ recording g1 = [of_Z 100])
  /\ (let g1 :=
        fst (updateRecording (at_game "A" t0) true (of_Z 100) (initial t0)) in
      let g2 :=
        fst (updateRecording (at_game "A" (t0 + 1000)) true (of_Z 101) g1) in
      gameState g2 = RECORDING /\ lastRecorded g1 = t0
      /\ recording g2 = [of_Z 100]).
Proof. vm_compute. repeat split. Qed.

(* ------------------------------------------------------------------ *)
(** * The recorder: end of a session *)

Lemma left_game_A_reachable : reachable left_game_A.
Proof.
  exact (reachable_step _ (valid_tick (no_game (t0 + 100)) 101)
           (reachable_step _ (valid_tick (at_game "A" t0) 100)
              (reachable_initial t0))).
Qed.

(** C3 (as amended). When a tick discards the buffer (no valid value, or a
    session switch) and the session id the recorder holds is not null, a
    write of the whole buffer under that id is the first thing the tick
    issues; when the id is null nothing of the old buffer is written: the
    only write such a tick can issue holds the first sample of the new
    session. *)
Theorem discard_flushes_named_session :
  forall env valid pop g,
    reachable g ->
    valid = false \/ switches env g = true ->
    (forall id, currentGameId g = Some id -> recording g <> [] ->
       exists rest,
         snd (updateRecording env valid pop g) = flush_of env g id :: rest)
    /\ (currentGameId g = None ->
        forall w, In w (snd (updateRecording env valid pop g)) ->
          Some (key w) = getGameId env /\ value_recording w = [pop]).
Proof.
  intros env valid pop g Hr Hd.
  destruct (reachable_well_formed _ Hr) as [Hna Hid].
  assert (Hcase : valid = false \/ valid = true /\ switches env g = true).
  { destruct valid; [right; destruct Hd as [Hd|Hd]; [discriminate|auto]
                    | left; reflexivity]. }
  clear Hd. split.
  - intros id Eid Hrec.
    assert (Hsave : saveRecordingToStorage env g = [flush_of env g id]).
    { rewrite save_spec, Eid. rewrite Eid in Hid.
      destruct Hid as [Hid|Hid]; [discriminate|].
      destruct id as [|c id]; [discriminate|].
      destruct (recording g); [contradiction|reflexivity]. }
    destruct Hcase as [->|[-> Hs]].
    + rewrite update_invalid. cbn [snd].
      destruct (gameState g) eqn:Egs.
      * rewrite (Hna eq_refl) in Eid. discriminate.
      * cbn [GameState_eqb negb andb]. rewrite guarded_save, Hsave.
        eexists; reflexivity.
      * cbn [GameState_eqb negb andb]. rewrite guarded_save, Hsave.
        eexists; reflexivity.
    + rewrite update_switch by exact Hs. cbn [snd].
      rewrite guarded_save, Hsave. eexists; reflexivity.
  - intros Eid w.
    destruct Hcase as [->|[-> Hs]].
    + rewrite update_invalid. cbn [snd]. rewrite Eid. cbn [truthy].
      rewrite andb_false_r. intros [].
    + rewrite update_switch by exact Hs. cbn [snd]. rewrite Eid.
      cbn [truthy andb app].
      destruct (now env >? 5000); [|intros []].
      destruct (getGameId env) as [id|]; [|intros []].
      destruct (now env >? 1000); [|intros []].
      intros [<-|[]]. split; reflexivity.
Qed.

Lemma discard_flushes_named_session_witness :
  exists rest,
    snd (updateRecording (no_game (t0 + 100)) false (of_Z 0)
           (fst (step (initial t0) (valid_tick (at_game "A" t0) 100))))
    = flush_of (no_game (t0 + 100))
        (fst (step (initial t0) (valid_tick (at_game "A" t0) 100)))
        (str "A") :: rest.
Proof.
  apply (discard_flushes_named_session (no_game (t0 + 100)) false (of_Z 0)
           (fst (step (initial t0) (valid_tick (at_game "A" t0) 100)))
           (reachable_step _ (valid_tick (at_game "A" t0) 100)
              (reachable_initial t0))
           (or_introl eq_refl)).
  - reflexivity.
  - vm_compute. discriminate.
Defined.

(** C3 as stated fails.  After game [A] the address loses the game id:
    the sample 101 is recorded in state [RECORDING] under a null id; the
    next tick, without a valid value or with the id of game [B], discards
    it and no write ever holds it. *)
Lemma discard_counterexample :
  gameState left_game_A = RECORDING
  /\ recording left_game_A = [of_Z 101]
  /\ updateRecording (no_game (t0 + 200)) false (of_Z 0) left_game_A
     = (initial (t0 + 200), [])
  /\ snd (run (initial t0)
            [ valid_tick (at_game "A" t0) 100;
              valid_tick (no_game (t0 + 100)) 101;
              valid_tick (at_game "B" (t0 + 200)) 102 ])
     = [ [ {| key := str "A"; value_recording := [of_Z 100];
              value_timestamp := t0 |} ];
         [ {| key := str "A"; value_recording := [of_Z 100];
              value_timestamp := t0 + 100 |} ];
         [ {| key := str "B"; value_recording := [of_Z 102];
              value_timestamp := t0 + 200 |} ] ].
Proof. vm_compute. repeat split. Qed.

(** C4 (as amended). A tick without a valid value in state [RECORDING]
    issues one write of the buffer under the current session id when that
    id is not null and the buffer is not empty, and no write otherwise; it
    leaves state [NOT_ACTIVE] with an empty buffer, a null id and both
    timers at 0.  A second such tick issues no write and leaves these
    fields as they are ([gameStart] alone takes the new clock value). *)
Theorem invalid_tick_ends_session :
  forall env pop g,
    gameState g = RECORDING ->
    updateRecording env false pop g =
      (initial (now env),
       match currentGameId g with
       | Some (c :: id) =>
           if nonempty (recording g) then [flush_of env g (c :: id)] else []
       | _ => []
       end)
    /\ forall env' pop',
         updateRecording env' false pop'
           (fst (updateRecording env false pop g))
         = (initial (now env'), []).
Proof.
  intros env pop g Hgs. split.
  - rewrite update_invalid, Hgs. cbn [GameState_eqb negb andb].
    rewrite guarded_save, save_spec. reflexivity.
  - intros env' pop'. rewrite !update_invalid. reflexivity.
Qed.

Lemma invalid_tick_ends_session_witness :
  updateRecording (no_game (t0 + 100)) false (of_Z 0)
    (fst (step (initial t0) (valid_tick (at_game "A" t0) 100)))
  = (initial (t0 + 100),
     [ {| key := str "A"; value_recording := [of_Z 100];
          value_timestamp := t0 + 100 |} ]).
Proof.
  apply (proj1 (invalid_tick_ends_session (no_game (t0 + 100)) (of_Z 0)
                  (fst (step (initial t0) (valid_tick (at_game "A" t0) 100)))
                  eq_refl)).
Defined.

(** C4 as stated fails: the final write is not unconditional.  In state
    [RECORDING] with the sample 101 in the buffer and a null session id,
    a tick without a valid value issues no write at all. *)
Lemma invalid_tick_counterexample :
  gameState left_game_A = RECORDING
  /\ currentGameId left_game_A = None
  /\ recording left_game_A = [of_Z 101]
  /\ snd (updateRecording (no_game (t0 + 200)) false (of_Z 0) left_game_A)
     = [].
Proof. vm_compute. repeat split. Qed.

(** C5 (as amended). A valid tick whose session id differs from the one
    the recorder holds first writes the old buffer under the old id, when
    that id is not null and the buffer is not empty; then the recorder is
    in state [RECORDING] under the new id, its buffer holds the new
    sample and nothing else, and its timers hold the clock value or 0.
    Whatever else the tick writes is keyed by the new id and holds the new
    sample alone. *)
Theorem switch_starts_fresh_session :
  forall env pop g,
    switches env g = true ->
    let g' := fst (updateRecording env true pop g) in
    let ws := snd (updateRecording env true pop g) in
    gameState g' = RECORDING
    /\ currentGameId g' = getGameId env
    /\ recording g' = (if now env >? 1000 then [pop] else [])
    /\ lastRecorded g' = (if now env >? 1000 then now env else 0)
    /\ lastStorageSave g' = (if now env >? 5000 then now env else 0)
    /\ exists new,
         ws = match currentGameId g with
              | Some (c :: id) =>
                  if nonempty (recording g) then [flush_of env g (c :: id)]
                  else []
              | _ => []
              end ++ new
         /\ forall w, In w new ->
              Some (key w) = getGameId env /\ value_recording w = [pop].
Proof.
  intros env pop g Hs. cbv zeta.
  rewrite update_switch by exact Hs. cbn [fst snd gameState currentGameId
    recording lastRecorded lastStorageSave].
  repeat (split; [reflexivity|]).
  eexists. split.
  - rewrite guarded_save, save_spec. reflexivity.
  - intros w.
    destruct (now env >? 5000); [|intros []].
    destruct (getGameId env) as [id|]; [|intros []].
    destruct (now env >? 1000); [|intros []].
    intros [<-|[]]. split; reflexivity.
Qed.

Lemma switch_starts_fresh_session_witness :
  let g := fst (step (initial t0) (valid_tick (at_game "A" t0) 100)) in
  let g' := fst (updateRecording (at_game "B" (t0 + 100)) true (of_Z 101) g) in
  let ws := snd (updateRecording (at_game "B" (t0 + 100)) true (of_Z 101) g) in
  gameState g' = RECORDING
  /\ currentGameId g' = getGameId (at_game "B" (t0 + 100))
  /\ recording g' = [of_Z 101]
  /\ lastRecorded g' = t0 + 100
  /\ lastStorageSave g' = t0 + 100
  /\ exists new,
       ws = [flush_of (at_game "B" (t0 + 100)) g (str "A")] ++ new
       /\ forall w, In w new ->
            Some (key w) = getGameId (at_game "B" (t0 + 100))
            /\ value_recording w = [of_Z 101].
Proof.
  exact (switch_starts_fresh_session (at_game "B" (t0 + 100)) (of_Z 101)
           (fst (step (initial t0) (valid_tick (at_game "A" t0) 100)))
           eq_refl).
Defined.

(** C5 as stated fails.  The session that follows game [A] under a null
    id holds the sample 101; the switch to game [B] writes the new buffer
    of [B] and nothing of the old one. *)
Lemma switch_counterexample :
  gameState left_game_A = RECORDING
  /\ recording left_game_A = [of_Z 101]
  /\ snd (updateRecording (at_game "B" (t0 + 200)) true (of_Z 102)
            left_game_A)
     = [ {| key := str "B"; value_recording := [of_Z 102];
            value_timestamp := t0 + 200 |} ].
Proof. vm_compute. repeat split. Qed.

Lemma writes_keyed_and_nonempty_witness :
  saveRecordingToStorage (no_game t0) (initial t0) = []
  /\ (forall w,
        In w (snd (step (initial t0) (valid_tick (at_game "A" t0) 100))) ->
        key w <> [] /\ value_recording w <> []).
Proof.
  split.
  - apply (proj1 writes_keyed_and_nonempty). left. reflexivity.
  - intros w Hw.
    apply (proj2 (proj2 writes_keyed_and_nonempty) (initial t0)
             [valid_tick (at_game "A" t0) 100] _ w (or_introl eq_refl) Hw).
Defined.

(* ------------------------------------------------------------------ *)
(** * The bulk export *)

Section ExportFacts.

Variable numberToString : number -> jsstring.
Variable encodeURIComponent : jsstring -> option jsstring.

Lemma join_fold : forall l acc,
  fold_left (fun acc y => acc ++ str "," ++ numberToString y) l acc
  = acc ++ concat (map (fun y => str "," ++ numberToString y) l).
Proof.
  induction l as [|y l IH]; intros acc; cbn [fold_left map concat].
  - rewrite app_nil_r. reflexivity.
  - rewrite IH, <- !app_assoc. reflexivity.
Qed.

Lemma comma_separated_cons : forall x l,
  comma_separated (x :: l)
  = x ++ concat (map (fun y => str "," ++ y) l).
Proof.
  intros x l. revert x.
  induction l as [|y l IH]; intros x.
  - cbn. rewrite app_nil_r. reflexivity.
  - change (comma_separated (x :: y :: l))
      with (x ++ str "," ++ comma_separated (y :: l)).
    rewrite IH. cbn [map concat]. rewrite <- !app_assoc. reflexivity.
Qed.

Lemma join_comma_separated : forall gameId x l,
  gameId ++ str "," ++ join numberToString (str ",") (x :: l)
  = comma_separated (gameId :: map numberToString (x :: l)).
Proof.
  intros gameId x l. unfold join. rewrite join_fold.
  rewrite (comma_separated_cons gameId). cbn [map concat].
  rewrite map_map, <- !app_assoc. reflexivity.
Qed.

Lemma csv_fold : forall result acc,
  fold_left
    (fun csv (item : jsstring * option StoredRecord) =>
       let (gameId, v) := item in
       match exported v with
       | Some rec =>
           csv ++ gameId ++ str "," ++ join numberToString (str ",") rec ++ nl
       | None => csv
       end)
    result acc
  = acc ++ concat
      (map (fun r : jsstring * list number =>
              comma_separated (fst r :: map numberToString (snd r)) ++ nl)
           (data_records result)).
Proof.
  induction result as [|[gameId v] result IH]; intros acc.
  - cbn. rewrite app_nil_r. reflexivity.
  - cbn [fold_left]. rewrite IH.
    destruct v as [[[[|x l]|] ts]|]; cbn [exported data_records map concat];
      try reflexivity.
    cbn [fst snd]. rewrite <- join_comma_separated, <- !app_assoc.
    reflexivity.
Qed.

(** C9. The content of the export is the header line
    [game_id,population_values], then, in the order of the storage
    area, one line [<sessionId>,<v1>,...,<vn>] for each record whose
    recording is not empty, and nothing for a record whose recording is
    empty or missing.  When the storage area has no key the listener
    logs that there is no data and starts no download; otherwise the
    download it starts carries exactly that content. *)
Theorem export_rows :
  forall (result : StorageItems) (iso : jsstring),
    csvContent numberToString result
    = str "game_id,population_values" ++ nl
      ++ concat
           (map (fun r : jsstring * list number =>
                   comma_separated (fst r :: map numberToString (snd r))
                   ++ nl)
                (data_records result))
    /\ onClicked numberToString encodeURIComponent [] iso
       = [ ConsoleLog (str "No recording data found in storage") ]
    /\ forall item,
         onClicked numberToString encodeURIComponent (item :: result) iso
         = match encodeURIComponent
                   (csvContent numberToString (item :: result)) with
           | Some encoded =>
               [ Download (str "data:text/csv;charset=utf-8," ++ encoded)
                   (str "openfront_population_history_" ++ dashes iso
                      ++ str ".csv") true ]
           | None => [ ConsoleError ]
           end.
Proof.
  intros result iso. split; [|split].
  - unfold csvContent. rewrite csv_fold. unfold header.
    rewrite <- app_assoc. reflexivity.
  - reflexivity.
  - intros item. reflexivity.
Qed.

End ExportFacts.

(* ------------------------------------------------------------------ *)
(** * Character classes *)

Ltac eval_codes :=
  repeat match goal with
         | |- context [ch ?a] =>
             let v := eval vm_compute in (ch a) in change (ch a) with v
         | H : context [ch ?a] |- _ =>
             let v := eval vm_compute in (ch a) in change (ch a) with v in H
         | |- context [str ?a] =>
             let v := eval vm_compute in (str a) in change (str a) with v
         | H : context [str ?a] |- _ =>
             let v := eval vm_compute in (str a) in change (str a) with v in H
         end.

Ltac split_true H :=
  first [ apply andb_prop in H;
          let H1 := fresh H in let H2 := fresh H in
          destruct H as [H1 H2]; split_true H1; split_true H2
        | apply orb_prop in H;
          let H1 := fresh H in
          destruct H as [H1|H1]; split_true H1
        | apply N.leb_le in H
        | apply N.eqb_eq in H
        | apply negb_true_iff in H; split_false H
        | discriminate H
        | idtac ]
with split_false H :=
  first [ apply orb_false_elim in H;
          let H1 := fresh H in let H2 := fresh H in
          destruct H as [H1 H2]; split_false H1; split_false H2
        | apply andb_false_iff in H;
          let H1 := fresh H in
          destruct H as [H1|H1]; split_false H1
        | apply N.leb_gt in H
        | apply N.eqb_neq in H
        | apply negb_false_iff in H; split_true H
        | discriminate H
        | idtac ].

Ltac decide_tests :=
  repeat match goal with
         | |- context [(?a <=? ?b)%N] =>
             first [ replace (a <=? b)%N with true
                       by (symmetry; apply N.leb_le; lia)
                   | replace (a <=? b)%N with false
                       by (symmetry; apply N.leb_gt; lia) ]
         | |- context [(?a =? ?b)%N] =>
             first [ replace (a =? b)%N with true
                       by (symmetry; apply N.eqb_eq; lia)
                   | replace (a =? b)%N with false
                       by (symmetry; apply N.eqb_neq; lia) ]
         end.

Ltac charclass H :=
  unfold is_digit, is_space, is_unit, is_char, is_dot, is_alnum in *;
  eval_codes; cbn [existsb] in *;
  split_true H; decide_tests; reflexivity.

Lemma digit_not_space : forall c, is_digit c = true -> is_space c = false.
Proof. intros c H. charclass H. Qed.

Lemma digit_not_unit : forall c, is_digit c = true -> is_unit c = false.
Proof. intros c H. charclass H. Qed.

Lemma digit_not_dot : forall c, is_digit c = true -> is_char "." c = false.
Proof. intros c H. charclass H. Qed.

Lemma space_not_digit : forall c, is_space c = true -> is_digit c = false.
Proof. intros c H. charclass H. Qed.

Lemma space_not_unit : forall c, is_space c = true -> is_unit c = false.
Proof. intros c H. charclass H. Qed.

Lemma space_not_dot : forall c, is_space c = true -> is_char "." c = false.
Proof. intros c H. charclass H. Qed.

Lemma unit_not_digit : forall c, is_unit c = true -> is_digit c = false.
Proof. intros c H. charclass H. Qed.

Lemma unit_not_space : forall c, is_unit c = true -> is_space c = false.
Proof. intros c H. charclass H. Qed.

Lemma unit_not_dot : forall c, is_unit c = true -> is_char "." c = false.
Proof. intros c H. charclass H. Qed.

(* ------------------------------------------------------------------ *)
(** * The matcher on a text of known shape *)

Lemma nohead_app : forall (p q : cu -> bool) a s,
  forallb q a = true ->
  (forall c, q c = true -> p c = false) ->
  nohead p s = true -> nohead p (a ++ s) = true.
Proof.
  intros p q [|c a] s Ha Hpq Hs; cbn in *; [exact Hs|].
  apply andb_prop in Ha. destruct Ha as [Hc _].
  rewrite (Hpq c Hc). reflexivity.
Qed.

Lemma nohead_false : forall p c s,
  nohead p (c :: s) = true -> p c = false.
Proof. intros p c s H. cbn in H. apply negb_true_iff in H. exact H. Qed.

Lemma consumed_app : forall a s, consumed (a ++ s) s = a.
Proof.
  intros a s. unfold consumed.
  rewrite length_app, Nat.add_sub, firstn_app, Nat.sub_diag, firstn_all.
  cbn. apply app_nil_r.
Qed.

Lemma star_greedy_run : forall (A : Type) p (k : jsstring -> option A) a s x,
  forallb p a = true -> nohead p s = true -> k s = Some x ->
  star_greedy p (a ++ s) k = Some x.
Proof.
  intros A p k a s x. induction a as [|c a IH]; intros Ha Hs Hk.
  - destruct s as [|c s]; cbn; [exact Hk|].
    rewrite (nohead_false _ _ _ Hs). exact Hk.
  - cbn in Ha. apply andb_prop in Ha. destruct Ha as [Hc Ha].
    cbn. rewrite Hc, (IH Ha Hs Hk). reflexivity.
Qed.

Lemma exec_Seq : forall (A : Type) r1 r2 inp s caps
    (k : jsstring -> captures -> option A),
  exec (Seq r1 r2) inp s caps k
  = exec r1 inp s caps (fun s1 caps1 => exec r2 inp s1 caps1 k).
Proof. reflexivity. Qed.

Lemma exec_Opt : forall (A : Type) r inp s caps
    (k : jsstring -> captures -> option A),
  exec (Opt r) inp s caps k
  = match exec r inp s caps k with
    | Some a => Some a
    | None => k s caps
    end.
Proof. reflexivity. Qed.

Lemma exec_Group : forall (A : Type) i r inp s caps
    (k : jsstring -> captures -> option A),
  exec (Group i r) inp s caps k
  = exec r inp s caps (fun s' caps' => k s' ((i, consumed s s') :: caps')).
Proof. reflexivity. Qed.

Lemma exec_Class_cons : forall (A : Type) p inp c s caps
    (k : jsstring -> captures -> option A),
  p c = true -> exec (Class p) inp (c :: s) caps k = k s caps.
Proof. intros. cbn. rewrite H. reflexivity. Qed.

Lemma exec_plus_run : forall (A : Type) p inp a s caps
    (k : jsstring -> captures -> option A) x,
  nonempty a && forallb p a = true -> nohead p s = true ->
  k s caps = Some x ->
  exec (Plus p) inp (a ++ s) caps k = Some x.
Proof.
  intros A p inp [|c a] s caps k x Ha Hs Hk; [discriminate|].
  cbn in Ha. apply andb_prop in Ha. destruct Ha as [Hc Ha].
  cbn. rewrite Hc. apply star_greedy_run; assumption.
Qed.

Lemma exec_class_fails : forall (A : Type) p inp s caps
    (k : jsstring -> captures -> option A),
  nohead p s = true -> exec (Class p) inp s caps k = None.
Proof.
  intros A p inp [|c s] caps k H; cbn; [reflexivity|].
  rewrite (nohead_false _ _ _ H). reflexivity.
Qed.

Lemma exec_number : forall (A : Type) inp i f s caps
    (k : jsstring -> captures -> option A) x,
  digits i = true -> fraction_ok f = true ->
  nohead is_digit s = true -> nohead (is_char ".") s = true ->
  k s caps = Some x ->
  exec number_re inp (number_text i f ++ s) caps k = Some x.
Proof.
  intros A inp i f s caps k x Hi Hf Hd Hp Hk.
  unfold number_re, number_text. rewrite <- app_assoc, exec_Seq.
  apply (exec_plus_run _ is_digit inp i); [exact Hi | |].
  - destruct f as [d|]; [reflexivity | exact Hd].
  - rewrite exec_Opt, exec_Seq.
    destruct f as [d|]; cbn [fraction_ok] in Hf; cbn [app].
    + rewrite exec_Class_cons by reflexivity.
      rewrite (exec_plus_run _ is_digit inp d s caps k x Hf Hd Hk).
      reflexivity.
    + rewrite (exec_class_fails _ (is_char ".") inp s caps _ Hp). exact Hk.
Qed.

Lemma exec_spaces : forall (A : Type) inp w s caps
    (k : jsstring -> captures -> option A) x,
  spaces w = true -> nohead is_space s = true -> k s caps = Some x ->
  exec (Star is_space) inp (w ++ s) caps k = Some x.
Proof.
  intros A inp w s caps k x Hw Hs Hk. cbn [exec].
  apply star_greedy_run; assumption.
Qed.

Lemma exec_unit : forall (A : Type) inp u s caps
    (k : jsstring -> captures -> option A) x,
  unit_text u = true -> nohead is_unit s = true -> k s caps = Some x ->
  exec (Opt (Class is_unit)) inp (u ++ s) caps k = Some x.
Proof.
  intros A inp [|c [|c' u]] s caps k x Hu Hs Hk; cbn [unit_text] in Hu;
    [| |discriminate]; rewrite exec_Opt; cbn [app].
  - rewrite (exec_class_fails _ is_unit inp s caps k Hs). exact Hk.
  - rewrite exec_Class_cons by exact Hu. rewrite Hk. reflexivity.
Qed.

Lemma unit_text_forallb : forall u, unit_text u = true ->
  forallb is_unit u = true.
Proof.
  intros [|c [|c' u]] H; cbn in *; try discriminate; try reflexivity.
  rewrite H. reflexivity.
Qed.

Lemma digits_forallb : forall i, digits i = true -> forallb is_digit i = true.
Proof. intros i H. apply andb_prop in H. tauto. Qed.

Lemma number_text_nohead : forall p i f s,
  digits i = true -> (forall c, is_digit c = true -> p c = false) ->
  nohead p (number_text i f ++ s) = true.
Proof.
  intros p [|c i] f s Hi Hp; [discriminate|].
  cbn in Hi. apply andb_prop in Hi. destruct Hi as [Hc _].
  cbn. rewrite (Hp c Hc). reflexivity.
Qed.

Create HintDb chars.
#[local] Hint Resolve digit_not_space digit_not_unit digit_not_dot
  space_not_digit space_not_unit space_not_dot
  unit_not_digit unit_not_space unit_not_dot : chars.

Ltac nohead_tac :=
  repeat first
    [ reflexivity
    | assumption
    | apply number_text_nohead; [assumption | solve [auto with chars]]
    | match goal with
      | H : spaces ?w = true |- nohead ?p (?w ++ _) = true =>
          apply (nohead_app p is_space w);
          [exact H | solve [auto with chars] | ]
      | H : unit_text ?u = true |- nohead ?p (?u ++ _) = true =>
          apply (nohead_app p is_unit u);
          [exact (unit_text_forallb _ H) | solve [auto with chars] | ]
      end ].

Lemma ends_match_split : forall rest, ends_match rest = true ->
  nohead is_digit rest = true /\ nohead (is_char ".") rest = true
  /\ nohead is_space rest = true /\ nohead is_unit rest = true.
Proof.
  intros rest H. unfold ends_match in H.
  apply andb_prop in H. destruct H as [H H4].
  apply andb_prop in H. destruct H as [H H3].
  apply andb_prop in H. destruct H as [H1 H2]. auto.
Qed.

Lemma population_text_assoc : forall i1 f1 w1 u1 w2 w3 i2 f2 w4 u2 rest,
  population_text i1 f1 w1 u1 w2 w3 i2 f2 w4 u2 ++ rest
  = number_text i1 f1 ++ w1 ++ u1 ++ w2 ++ ch "/" :: w3
      ++ number_text i2 f2 ++ w4 ++ u2 ++ rest.
Proof.
  intros. unfold population_text.
  repeat (rewrite <- ?app_assoc, <- ?app_comm_cons). reflexivity.
Qed.

(** The match on a population text in which no white space follows an
    absent first unit. *)
Lemma exec_population_normal :
  forall inp i1 f1 w1 u1 w2 w3 i2 f2 w4 u2 rest,
    digits i1 = true -> fraction_ok f1 = true -> spaces w1 = true ->
    unit_text u1 = true -> spaces w2 = true -> spaces w3 = true ->
    digits i2 = true -> fraction_ok f2 = true -> spaces w4 = true ->
    unit_text u2 = true -> ends_match rest = true ->
    (u1 = [] -> w2 = []) ->
    exec population_re inp
      (population_text i1 f1 w1 u1 w2 w3 i2 f2 w4 u2 ++ rest) []
      (fun _ caps => Some caps)
    = Some [ (4%nat, u2); (3%nat, number_text i2 f2);
             (2%nat, u1); (1%nat, number_text i1 f1) ].
Proof.
  intros inp i1 f1 w1 u1 w2 w3 i2 f2 w4 u2 rest
         Hi1 Hf1 Hw1 Hu1 Hw2 Hw3 Hi2 Hf2 Hw4 Hu2 Hrest Hnorm.
  destruct (ends_match_split _ Hrest) as (Hr1 & Hr2 & Hr3 & Hr4).
  rewrite population_text_assoc.
  unfold population_re. cbn [seq].
  rewrite exec_Seq, exec_Group.
  apply exec_number; [exact Hi1 | exact Hf1 | | |].
  { nohead_tac. }
  { nohead_tac. }
  rewrite consumed_app, exec_Seq.
  apply exec_spaces; [exact Hw1 | |].
  { destruct u1 as [|c u1].
    - rewrite (Hnorm eq_refl). reflexivity.
    - apply unit_text_forallb in Hu1. cbn in Hu1.
      apply andb_prop in Hu1. destruct Hu1 as [Hc _].
      cbn. rewrite (unit_not_space c Hc). reflexivity. }
  rewrite exec_Seq, exec_Group.
  apply exec_unit; [exact Hu1 | nohead_tac |].
  rewrite consumed_app, exec_Seq.
  apply exec_spaces; [exact Hw2 | reflexivity |].
  rewrite exec_Seq, exec_Class_cons by reflexivity.
  rewrite exec_Seq.
  apply exec_spaces; [exact Hw3 | nohead_tac |].
  rewrite exec_Seq, exec_Group.
  apply exec_number; [exact Hi2 | exact Hf2 | nohead_tac | nohead_tac |].
  rewrite consumed_app, exec_Seq.
  apply exec_spaces; [exact Hw4 | nohead_tac |].
  rewrite exec_Group.
  apply exec_unit; [exact Hu2 | exact Hr4 |].
  rewrite consumed_app. reflexivity.
Qed.

Lemma spaces_app : forall a b,
  spaces a = true -> spaces b = true -> spaces (a ++ b) = true.
Proof.
  intros a b Ha Hb. unfold spaces in *. rewrite forallb_app, Ha, Hb. reflexivity.
Qed.

Lemma exec_population :
  forall inp i1 f1 w1 u1 w2 w3 i2 f2 w4 u2 rest,
    digits i1 = true -> fraction_ok f1 = true -> spaces w1 = true ->
    unit_text u1 = true -> spaces w2 = true -> spaces w3 = true ->
    digits i2 = true -> fraction_ok f2 = true -> spaces w4 = true ->
    unit_text u2 = true -> ends_match rest = true ->
    exec population_re inp
      (population_text i1 f1 w1 u1 w2 w3 i2 f2 w4 u2 ++ rest) []
      (fun _ caps => Some caps)
    = Some [ (4%nat, u2); (3%nat, number_text i2 f2);
             (2%nat, u1); (1%nat, number_text i1 f1) ].
Proof.
  intros inp i1 f1 w1 u1 w2 w3 i2 f2 w4 u2 rest
         Hi1 Hf1 Hw1 Hu1 Hw2 Hw3 Hi2 Hf2 Hw4 Hu2 Hrest.
  destruct u1 as [|c u1].
  - replace (population_text i1 f1 w1 [] w2 w3 i2 f2 w4 u2)
      with (population_text i1 f1 (w1 ++ w2) [] [] w3 i2 f2 w4 u2).
    + apply exec_population_normal; auto using spaces_app.
    + unfold population_text. cbn [app]. rewrite <- !app_assoc. reflexivity.
  - apply exec_population_normal; auto. discriminate.
Qed.

(** A prefix without digit is skipped by the search. *)
Lemma search_skip : forall inp pre s,
  forallb (fun c => negb (is_digit c)) pre = true ->
  search population_re inp (pre ++ s) = search population_re inp s.
Proof.
  intros inp pre s. induction pre as [|c pre IH]; intros H; [reflexivity|].
  cbn in H. apply andb_prop in H. destruct H as [Hc Hpre].
  apply negb_true_iff in Hc.
  cbn [app search].
  replace (exec population_re inp (c :: pre ++ s) [] (fun _ caps => Some caps))
    with (@None captures).
  - apply IH. exact Hpre.
  - unfold population_re, number_re. cbn [seq].
    rewrite !exec_Seq, exec_Group, exec_Seq. cbn [exec]. rewrite Hc.
    reflexivity.
Qed.

Lemma search_here : forall r inp s c,
  exec r inp s [] (fun _ caps => Some caps) = Some c ->
  search r inp s = Some c.
Proof. intros r inp [|x s] c H; cbn [search]; rewrite H; reflexivity. Qed.

(* ------------------------------------------------------------------ *)
(** * The numbers of a population text *)

Lemma span_run : forall p a s,
  forallb p a = true -> nohead p s = true -> span p (a ++ s) = (a, s).
Proof.
  intros p a s. induction a as [|c a IH]; intros Ha Hs.
  - destruct s as [|c s]; cbn; [reflexivity|].
    rewrite (nohead_false _ _ _ Hs). reflexivity.
  - cbn in Ha. apply andb_prop in Ha. destruct Ha as [Hc Ha].
    cbn. rewrite Hc, (IH Ha Hs). reflexivity.
Qed.

Lemma trimStart_digits : forall i s,
  digits i = true -> trimStart (i ++ s) = i ++ s.
Proof.
  intros [|c i] s H; [discriminate|].
  cbn in H. apply andb_prop in H. destruct H as [Hc _].
  cbn. rewrite (digit_not_space c Hc). reflexivity.
Qed.

Lemma parseFloat_number_text : forall i f,
  digits i = true -> fraction_ok f = true ->
  parseFloat (number_text i f) = decimal_value i f.
Proof.
  intros i f Hi Hf. unfold parseFloat, number_text, decimal_value.
  rewrite (trimStart_digits i _ Hi).
  rewrite (span_run is_digit i); [|apply digits_forallb; exact Hi|].
  - destruct f as [d|]; cbn [fraction_digits fraction_ok] in *.
    + change (is_char "." (ch ".")) with true. cbv iota.
      assert (Hd : span is_digit d = (d, [])).
      { rewrite <- (app_nil_r d) at 1.
        apply span_run; [apply digits_forallb; exact Hf | reflexivity]. }
      rewrite Hd. cbn [fst]. destruct i as [|c i]; [discriminate|]. reflexivity.
    + destruct i as [|c i]; [discriminate|]. reflexivity.
  - destruct f as [d|]; reflexivity.
Qed.

Lemma getMultiplier_unit_text : forall u,
  unit_text u = true -> getMultiplier u = unit_multiplier u.
Proof.
  intros [|c [|c' u]] H; cbn [unit_text] in H; [reflexivity| |discriminate].
  unfold is_unit in H. eval_codes. cbn [existsb] in H.
  split_true H; subst c; reflexivity.
Qed.

(** The result of the parser on a population text, possibly after a
    prefix without digit and before a rest that cannot prolong it. *)
Lemma parse_population_text :
  forall pow pre i1 f1 w1 u1 w2 w3 i2 f2 w4 u2 rest,
    forallb (fun c => negb (is_digit c)) pre = true ->
    digits i1 = true -> fraction_ok f1 = true -> spaces w1 = true ->
    unit_text u1 = true -> spaces w2 = true -> spaces w3 = true ->
    digits i2 = true -> fraction_ok f2 = true -> spaces w4 = true ->
    unit_text u2 = true -> ends_match rest = true ->
    parsePopulationValues pow
      (pre ++ population_text i1 f1 w1 u1 w2 w3 i2 f2 w4 u2 ++ rest)
    = Some (values_of pow i1 f1 u1 i2 f2 u2).
Proof.
  intros pow pre i1 f1 w1 u1 w2 w3 i2 f2 w4 u2 rest
         Hpre Hi1 Hf1 Hw1 Hu1 Hw2 Hw3 Hi2 Hf2 Hw4 Hu2 Hrest.
  unfold parsePopulationValues, re_match.
  rewrite (search_skip _ pre _ Hpre).
  rewrite (search_here _ _ _ _
             (exec_population _ i1 f1 w1 u1 w2 w3 i2 f2 w4 u2 rest
                Hi1 Hf1 Hw1 Hu1 Hw2 Hw3 Hi2 Hf2 Hw4 Hu2 Hrest)).
  unfold match_at. cbn [group Nat.eqb].
  rewrite !parseFloat_number_text, !getMultiplier_unit_text by assumption.
  reflexivity.
Qed.

(* ------------------------------------------------------------------ *)
(** * The matcher and the language of an expression *)

Lemma star_greedy_lang : forall (A : Type) p (k : jsstring -> option A) s,
  star_greedy p s k <> None <->
  exists s1 s2, s = s1 ++ s2 /\ forallb p s1 = true /\ k s2 <> None.
Proof.
  intros A p k s. induction s as [|c s IH].
  - cbn. split.
    + intros H. exists [], []. auto.
    + intros (s1 & s2 & E & _ & H).
      symmetry in E. apply app_eq_nil in E. destruct E as [_ ->]. exact H.
  - cbn [star_greedy]. destruct (p c) eqn:Hc.
    + split.
      * destruct (star_greedy p s k) eqn:Es.
        -- intros _. destruct IH as [IH _].
           destruct IH as (s1 & s2 & -> & H1 & H2); [discriminate|].
           exists (c :: s1), s2. cbn. rewrite Hc, H1. auto.
        -- intros H. exists [], (c :: s). auto.
      * intros (s1 & s2 & E & H1 & H2).
        destruct s1 as [|c1 s1]; cbn in E.
        -- subst s2. destruct (star_greedy p s k); [discriminate|exact H2].
        -- injection E as <- ->. cbn in H1.
           apply andb_prop in H1. destruct H1 as [_ H1].
           destruct (star_greedy p (s1 ++ s2) k) eqn:Es; [discriminate|].
           exfalso. apply (proj2 IH); [|reflexivity].
           exists s1, s2. auto.
    + split.
      * intros H. exists [], (c :: s). auto.
      * intros (s1 & s2 & E & H1 & H2).
        destruct s1 as [|c1 s1]; cbn in E.
        -- subst s2. exact H2.
        -- injection E as <- ->. cbn in H1. rewrite Hc in H1. discriminate.
Qed.

Lemma star_lazy_lang : forall (A : Type) p (k : jsstring -> option A) s,
  star_lazy p s k <> None <->
  exists s1 s2, s = s1 ++ s2 /\ forallb p s1 = true /\ k s2 <> None.
Proof.
  intros A p k s. induction s as [|c s IH].
  - cbn. split.
    + intros H. exists [], []. repeat split; auto.
      destruct (k []); [discriminate|exact H].
    + intros (s1 & s2 & E & _ & H).
      symmetry in E. apply app_eq_nil in E. destruct E as [_ ->].
      destruct (k []); [discriminate|exact H].
  - cbn [star_lazy]. destruct (k (c :: s)) eqn:Ek.
    + split; [|discriminate].
      intros _. exists [], (c :: s). rewrite Ek. repeat split; discriminate.
    + destruct (p c) eqn:Hc.
      * rewrite IH. split.
        -- intros (s1 & s2 & -> & H1 & H2).
           exists (c :: s1), s2. cbn. rewrite Hc, H1. auto.
        -- intros (s1 & s2 & E & H1 & H2).
           destruct s1 as [|c1 s1]; cbn in E.
           ++ subst s2. rewrite Ek in H2. contradiction.
           ++ injection E as <- ->. cbn in H1.
              apply andb_prop in H1. destruct H1 as [_ H1].
              exists s1, s2. auto.
      * split; [intros H; contradiction|].
        intros (s1 & s2 & E & H1 & H2).
        destruct s1 as [|c1 s1]; cbn in E.
        -- subst s2. rewrite Ek in H2. contradiction.
        -- injection E as <- ->. cbn in H1. rewrite Hc in H1. discriminate.
Qed.

Lemma exec_lang : forall r, anchor_free r = true ->
  forall (A : Type) inp s caps (k : jsstring -> captures -> option A)
         (P : jsstring -> Prop),
    (forall s' c, k s' c <> None <-> P s') ->
    (exec r inp s caps k <> None <->
     exists s1 s2, s = s1 ++ s2 /\ lang r s1 /\ P s2).
Proof.
  induction r as [|p|r1 IH1 r2 IH2|r1 IH1|p|p|p|i r1 IH1| |];
    intros Haf A inp s caps k P Hk; cbn [anchor_free] in Haf;
    try discriminate.
  - cbn. rewrite Hk. split.
    + intros H. exists [], s. auto.
    + intros (s1 & s2 & -> & -> & H). exact H.
  - cbn. destruct s as [|c s].
    + split; [intros H; contradiction|].
      intros (s1 & s2 & E & (c & -> & _) & _). discriminate.
    + destruct (p c) eqn:Hc.
      * rewrite Hk. split.
        -- intros H. exists [c], s. repeat split; eauto.
        -- intros (s1 & s2 & E & (c' & -> & _) & H).
           injection E as _ ->. exact H.
      * split; [intros H; contradiction|].
        intros (s1 & s2 & E & (c' & -> & Hc') & _).
        injection E as <- _. rewrite Hc in Hc'. discriminate.
  - apply andb_prop in Haf. destruct Haf as [Haf1 Haf2].
    rewrite exec_Seq.
    rewrite (IH1 Haf1 A inp s caps _
               (fun s1 => exists a b, s1 = a ++ b /\ lang r2 a /\ P b)).
    + cbn [lang]. split.
      * intros (s1 & s2 & -> & H1 & a & b & -> & H2 & H3).
        exists (s1 ++ a), b. rewrite app_assoc. eauto 8.
      * intros (s12 & s3 & -> & (s1 & s2 & -> & H1 & H2) & H3).
        exists s1, (s2 ++ s3). rewrite app_assoc. eauto 8.
    + intros s' c. apply (IH2 Haf2). exact Hk.
  - rewrite exec_Opt. cbn [lang].
    pose proof (IH1 Haf A inp s caps k P Hk) as IH.
    destruct (exec r1 inp s caps k) eqn:E.
    + split; [|discriminate]. intros _.
      destruct IH as [IH _].
      destruct IH as (s1 & s2 & -> & H1 & H2); [discriminate|].
      exists s1, s2. auto.
    + rewrite Hk. split.
      * intros H. exists [], s. auto.
      * intros (s1 & s2 & -> & [->|H1] & H2); [exact H2|].
        exfalso. apply (proj2 IH); [|reflexivity]. exists s1, s2. auto.
  - cbn [exec lang]. rewrite star_greedy_lang.
    split; intros (s1 & s2 & E & H1 & H2); exists s1, s2;
      repeat split; auto; apply (Hk s2 caps); exact H2.
  - cbn [lang]. destruct s as [|c s].
    + cbn. split; [intros H; contradiction|].
      intros (s1 & s2 & E & H1 & _).
      symmetry in E. apply app_eq_nil in E. destruct E as [-> _].
      discriminate.
    + cbn [exec]. destruct (p c) eqn:Hc.
      * rewrite star_greedy_lang. split.
        -- intros (s1 & s2 & -> & H1 & H2).
           exists (c :: s1), s2. cbn. rewrite Hc, H1.
           repeat split. apply (Hk s2 caps). exact H2.
        -- intros (s1 & s2 & E & H1 & H2).
           destruct s1 as [|c1 s1]; [discriminate|].
           injection E as <- ->. cbn in H1. rewrite Hc in H1.
           exists s1, s2. repeat split; auto. apply (Hk s2 caps). exact H2.
      * split; [intros H; contradiction|].
        intros (s1 & s2 & E & H1 & _).
        destruct s1 as [|c1 s1]; [discriminate|].
        injection E as <- _. cbn in H1. rewrite Hc in H1. discriminate.
  - cbn [exec lang]. rewrite star_lazy_lang.
    split; intros (s1 & s2 & E & H1 & H2); exists s1, s2;
      repeat split; auto; apply (Hk s2 caps); exact H2.
  - rewrite exec_Group. cbn [lang].
    apply (IH1 Haf). intros s' c. apply Hk.
Qed.

Lemma search_lang : forall r, anchor_free r = true ->
  forall inp s,
    search r inp s <> None <->
    exists pre core post, s = pre ++ core ++ post /\ lang r core.
Proof.
  intros r Haf inp s.
  assert (Hexec : forall s,
            exec r inp s [] (fun _ caps => Some caps) <> None <->
            exists s1 s2, s = s1 ++ s2 /\ lang r s1 /\ True).
  { intros s0. apply (exec_lang r Haf). intros s' c.
    split; [auto | discriminate]. }
  induction s as [|c s IH].
  - cbn [search]. destruct (exec r inp [] [] _) eqn:E.
    + split; [|discriminate]. intros _.
      destruct (proj1 (Hexec [])) as (s1 & s2 & E' & H & _).
      { rewrite E. discriminate. }
      exists [], s1, s2. auto.
    + split; [intros H; contradiction|].
      intros (pre & core & post & E' & H).
      symmetry in E'. apply app_eq_nil in E'. destruct E' as [-> E'].
      apply app_eq_nil in E'. destruct E' as [-> ->].
      exfalso. apply (proj2 (Hexec [])); [|exact E]. exists [], []. auto.
  - cbn [search]. destruct (exec r inp (c :: s) [] _) eqn:E.
    + split; [|discriminate]. intros _.
      destruct (proj1 (Hexec (c :: s))) as (s1 & s2 & E' & H & _).
      { rewrite E. discriminate. }
      exists [], s1, s2. auto.
    + rewrite IH. split.
      * intros (pre & core & post & -> & H).
        exists (c :: pre), core, post. auto.
      * intros (pre & core & post & E' & H).
        destruct pre as [|c' pre].
        -- exfalso. apply (proj2 (Hexec (c :: s))); [|exact E].
           exists core, post. auto.
        -- injection E' as <- ->. exists pre, core, post. auto.
Qed.

Lemma lang_number : forall n,
  lang number_re n <->
  exists i f, n = number_text i f /\ digits i = true /\ fraction_ok f = true.
Proof.
  intros n. unfold number_re. cbn [lang]. split.
  - intros (i & t & -> & Hi & [->|(a & d & -> & (c & -> & Hc) & Hd)]).
    + exists i, None. auto.
    + exists i, (Some d). unfold is_char in Hc. apply N.eqb_eq in Hc.
      subst c. auto.
  - intros (i & [d|] & -> & Hi & Hf); cbn [fraction_ok] in Hf.
    + exists i, (ch "." :: d). repeat split; auto. right.
      exists [ch "."], d. repeat split; auto. exists (ch "."). auto.
    + exists i, []. auto.
Qed.

Lemma lang_unit : forall u,
  lang (Opt (Class is_unit)) u <-> unit_text u = true.
Proof.
  intros u. cbn [lang]. split.
  - intros [->|(c & -> & Hc)]; [reflexivity | exact Hc].
  - destruct u as [|c [|c' u]]; cbn [unit_text]; intros H;
      [left; reflexivity | right; exists c; auto | discriminate].
Qed.

Lemma lang_population : forall s, lang population_re s <-> has_shape s.
Proof.
  intros s. unfold population_re, has_shape. cbn [seq].
  change (lang (Seq ?a ?b) ?x)
    with (exists s1 s2, x = s1 ++ s2 /\ lang a s1 /\ lang b s2).
  split.
  - intros (n1 & t1 & -> & Hn1 & w1 & t2 & -> & Hw1 & u1 & t3 & -> & Hu1
            & w2 & t4 & -> & Hw2 & sl & t5 & -> & (c & -> & Hc)
            & w3 & t6 & -> & Hw3 & n2 & t7 & -> & Hn2
            & w4 & u2 & -> & Hw4 & Hu2).
    apply lang_number in Hn1, Hn2.
    destruct Hn1 as (i1 & f1 & -> & Hi1 & Hf1).
    destruct Hn2 as (i2 & f2 & -> & Hi2 & Hf2).
    apply lang_unit in Hu1, Hu2.
    unfold is_char in Hc. apply N.eqb_eq in Hc. subst c.
    exists i1, f1, w1, u1, w2, w3, i2, f2, w4, u2.
    repeat split; assumption.
  - intros (i1 & f1 & w1 & u1 & w2 & w3 & i2 & f2 & w4 & u2 & -> & Hi1 & Hf1
            & Hw1 & Hu1 & Hw2 & Hw3 & Hi2 & Hf2 & Hw4 & Hu2).
    exists (number_text i1 f1), (w1 ++ u1 ++ w2 ++ ch "/" :: w3
                                  ++ number_text i2 f2 ++ w4 ++ u2).
    split; [reflexivity|]. split; [apply lang_number; eauto|].
    exists w1, (u1 ++ w2 ++ ch "/" :: w3 ++ number_text i2 f2 ++ w4 ++ u2).
    split; [reflexivity|]. split; [exact Hw1|].
    exists u1, (w2 ++ ch "/" :: w3 ++ number_text i2 f2 ++ w4 ++ u2).
    split; [reflexivity|]. split; [apply lang_unit; exact Hu1|].
    exists w2, (ch "/" :: w3 ++ number_text i2 f2 ++ w4 ++ u2).
    split; [reflexivity|]. split; [exact Hw2|].
    exists [ch "/"], (w3 ++ number_text i2 f2 ++ w4 ++ u2).
    split; [reflexivity|]. split; [exists (ch "/"); auto|].
    exists w3, (number_text i2 f2 ++ w4 ++ u2).
    split; [reflexivity|]. split; [exact Hw3|].
    exists (number_text i2 f2), (w4 ++ u2).
    split; [reflexivity|]. split; [apply lang_number; eauto|].
    exists w4, u2.
    split; [reflexivity|]. split; [exact Hw4|].
    apply lang_unit. exact Hu2.
Qed.

Lemma has_shape_head : forall s, has_shape s ->
  exists c t, s = c :: t /\ is_digit c = true.
Proof.
  intros s (i1 & f1 & w1 & u1 & w2 & w3 & i2 & f2 & w4 & u2 & -> & Hi1 & _).
  destruct i1 as [|c i1]; [discriminate|].
  cbn in Hi1. apply andb_prop in Hi1. destruct Hi1 as [Hc _].
  unfold population_text, number_text. cbn [app]. eauto.
Qed.

Lemma population_match_iff : forall t,
  re_match population_re t <> None <-> contains_shape t.
Proof.
  intros t. unfold re_match, contains_shape.
  rewrite (search_lang population_re eq_refl).
  split; intros (pre & core & post & E & H); exists pre, core, post;
    (split; [exact E | apply lang_population; exact H]).
Qed.


(* ------------------------------------------------------------------ *)
(** * What a successful match has consumed and captured *)

Lemma star_greedy_sound : forall (A : Type) p (k : jsstring -> option A) s a,
  star_greedy p s k = Some a ->
  exists s1 s2, s = s1 ++ s2 /\ forallb p s1 = true /\ k s2 = Some a.
Proof.
  intros A p k s a. induction s as [|c s IH]; cbn [star_greedy]; intros H.
  - exists [], []. auto.
  - destruct (p c) eqn:Hc; [|exists [], (c :: s); auto].
    destruct (star_greedy p s k) as [b|] eqn:E.
    + injection H as ->. destruct (IH eq_refl) as (s1 & s2 & -> & H1 & H2).
      exists (c :: s1), s2. cbn. rewrite Hc, H1. auto.
    + exists [], (c :: s). auto.
Qed.

Lemma star_lazy_sound : forall (A : Type) p (k : jsstring -> option A) s a,
  star_lazy p s k = Some a ->
  exists s1 s2, s = s1 ++ s2 /\ forallb p s1 = true /\ k s2 = Some a.
Proof.
  intros A p k s a. induction s as [|c s IH]; cbn [star_lazy]; intros H.
  - exists [], []. destruct (k []); [auto|discriminate].
  - destruct (k (c :: s)) as [b|] eqn:E.
    + exists [], (c :: s). rewrite E. auto.
    + destruct (p c) eqn:Hc; [|discriminate].
      destruct (IH H) as (s1 & s2 & -> & H1 & H2).
      exists (c :: s1), s2. cbn. rewrite Hc, H1. auto.
Qed.

Lemma exec_sound : forall r, anchor_free r = true ->
  forall (A : Type) inp s caps (k : jsstring -> captures -> option A) a,
    exec r inp s caps k = Some a ->
    exists s1 s2 caps',
      s = s1 ++ s2 /\ captured r s1 caps caps' /\ k s2 caps' = Some a.
Proof.
  induction r as [|p|r1 IH1 r2 IH2|r1 IH1|p|p|p|i r1 IH1| |];
    intros Haf A inp s caps k a H; cbn [anchor_free] in Haf;
    try discriminate.
  - exists [], s, caps. cbn. auto.
  - cbn in H. destruct s as [|c s]; [discriminate|].
    destruct (p c) eqn:Hc; [|discriminate].
    exists [c], s, caps. cbn. eauto 6.
  - apply andb_prop in Haf. destruct Haf as [Haf1 Haf2].
    rewrite exec_Seq in H.
    destruct (IH1 Haf1 _ _ _ _ _ _ H) as (s1 & t & c1 & -> & H1 & H').
    destruct (IH2 Haf2 _ _ _ _ _ _ H') as (s2 & s3 & c2 & -> & H2 & H3).
    exists (s1 ++ s2), s3, c2. rewrite app_assoc. cbn [captured].
    eauto 10.
  - rewrite exec_Opt in H.
    destruct (exec r1 inp s caps k) as [b|] eqn:E.
    + injection H as ->.
      destruct (IH1 Haf _ _ _ _ _ _ E) as (s1 & s2 & c1 & -> & H1 & H2).
      exists s1, s2, c1. cbn [captured]. auto.
    + exists [], s, caps. cbn [captured]. auto.
  - cbn [exec] in H. apply star_greedy_sound in H.
    destruct H as (s1 & s2 & -> & H1 & H2).
    exists s1, s2, caps. cbn [captured]. auto.
  - cbn [exec] in H. destruct s as [|c s]; [discriminate|].
    destruct (p c) eqn:Hc; [|discriminate].
    apply star_greedy_sound in H. destruct H as (s1 & s2 & -> & H1 & H2).
    exists (c :: s1), s2, caps. cbn. rewrite Hc, H1. auto.
  - cbn [exec] in H. apply star_lazy_sound in H.
    destruct H as (s1 & s2 & -> & H1 & H2).
    exists s1, s2, caps. cbn [captured]. auto.
  - rewrite exec_Group in H.
    destruct (IH1 Haf _ _ _ _ _ _ H) as (s1 & s2 & c1 & -> & H1 & H2).
    rewrite consumed_app in H2.
    exists s1, s2, ((i, s1) :: c1). cbn [captured]. eauto.
Qed.

Lemma search_sound : forall r, anchor_free r = true ->
  forall inp s m,
    search r inp s = Some m ->
    exists pre core post, s = pre ++ core ++ post /\ captured r core [] m.
Proof.
  intros r Haf inp s m. induction s as [|c s IH]; cbn [search]; intros H.
  - destruct (exec r inp [] [] _) as [b|] eqn:E; [|discriminate].
    injection H as ->.
    destruct (exec_sound r Haf _ _ _ _ _ _ E) as (s1 & s2 & c1 & E1 & H1 & H2).
    injection H2 as ->. exists [], s1, s2. auto.
  - destruct (exec r inp (c :: s) [] _) as [b|] eqn:E.
    + injection H as ->.
      destruct (exec_sound r Haf _ _ _ _ _ _ E)
        as (s1 & s2 & c1 & E1 & H1 & H2).
      injection H2 as ->. exists [], s1, s2. auto.
    + destruct (IH H) as (pre & core & post & -> & H1).
      exists (c :: pre), core, post. auto.
Qed.

Lemma captured_group_free : forall r, group_free r = true ->
  forall s c c', captured r s c c' -> lang r s /\ c' = c.
Proof.
  induction r as [|p|r1 IH1 r2 IH2|r1 IH1|p|p|p|i r1 IH1| |];
    intros Hg s c c' H; cbn [group_free captured lang] in *;
    try discriminate; try tauto.
  - apply andb_prop in Hg. destruct Hg as [Hg1 Hg2].
    destruct H as (s1 & s2 & c1 & -> & H1 & H2).
    destruct (IH1 Hg1 _ _ _ H1) as [L1 ->].
    destruct (IH2 Hg2 _ _ _ H2) as [L2 ->].
    split; [exists s1, s2; auto | reflexivity].
  - destruct H as [[-> ->]|H]; [auto|].
    destruct (IH1 Hg _ _ _ H) as [L1 ->]. auto.
Qed.

Lemma captured_population : forall s m,
  captured population_re s [] m ->
  exists i1 f1 w1 u1 w2 w3 i2 f2 w4 u2,
    s = population_text i1 f1 w1 u1 w2 w3 i2 f2 w4 u2
    /\ m = [ (4%nat, u2); (3%nat, number_text i2 f2);
             (2%nat, u1); (1%nat, number_text i1 f1) ]
    /\ digits i1 = true /\ fraction_ok f1 = true /\ spaces w1 = true
    /\ unit_text u1 = true /\ spaces w2 = true /\ spaces w3 = true
    /\ digits i2 = true /\ fraction_ok f2 = true /\ spaces w4 = true
    /\ unit_text u2 = true.
Proof.
  intros s m. unfold population_re. cbn [seq captured].
  intros (n1 & t1 & c1 & -> & (d1 & Hn1 & ->)
          & w1 & t2 & c2 & -> & [Hw1 ->]
          & u1 & t3 & c3 & -> & (d3 & Hu1 & ->)
          & w2 & t4 & c4 & -> & [Hw2 ->]
          & sl & t5 & c5 & -> & [(x & -> & Hx) ->]
          & w3 & t6 & c6 & -> & [Hw3 ->]
          & n2 & t7 & c7 & -> & (d7 & Hn2 & ->)
          & w4 & u2 & c8 & -> & [Hw4 ->]
          & d9 & Hu2 & ->).
  apply (captured_group_free number_re eq_refl) in Hn1, Hn2.
  destruct Hn1 as [Hn1 ->]. destruct Hn2 as [Hn2 ->].
  assert (Hu : forall (u : jsstring) (c c' : captures),
            (u = [] /\ c' = c
             \/ (exists x, u = [x] /\ is_unit x = true) /\ c' = c) ->
            unit_text u = true /\ c' = c).
  { intros u c c' [[-> ->]|[(y & -> & Hy) ->]]; auto. }
  apply Hu in Hu1, Hu2. clear Hu.
  destruct Hu1 as [Hu1 ->]. destruct Hu2 as [Hu2 ->].
  apply lang_number in Hn1, Hn2.
  destruct Hn1 as (i1 & f1 & -> & Hi1 & Hf1).
  destruct Hn2 as (i2 & f2 & -> & Hi2 & Hf2).
  unfold is_char in Hx. apply N.eqb_eq in Hx. subst x.
  exists i1, f1, w1, u1, w2, w3, i2, f2, w4, u2.
  repeat split; assumption.
Qed.

(** Whatever the parser returns is read off some population text inside
    the text it is given. *)
Lemma parse_sound : forall pow text r,
  parsePopulationValues pow text = Some r ->
  exists pre i1 f1 w1 u1 w2 w3 i2 f2 w4 u2 post,
    text = pre ++ population_text i1 f1 w1 u1 w2 w3 i2 f2 w4 u2 ++ post
    /\ digits i1 = true /\ fraction_ok f1 = true /\ spaces w1 = true
    /\ unit_text u1 = true /\ spaces w2 = true /\ spaces w3 = true
    /\ digits i2 = true /\ fraction_ok f2 = true /\ spaces w4 = true
    /\ unit_text u2 = true
    /\ r = values_of pow i1 f1 u1 i2 f2 u2.
Proof.
  intros pow text r. unfold parsePopulationValues, re_match.
  destruct (search population_re text text) as [m|] eqn:E; [|discriminate].
  intros H. injection H as <-.
  destruct (search_sound population_re eq_refl _ _ _ E)
    as (pre & core & post & -> & Hc).
  destruct (captured_population _ _ Hc)
    as (i1 & f1 & w1 & u1 & w2 & w3 & i2 & f2 & w4 & u2 & -> & -> & Hi1 & Hf1
        & Hw1 & Hu1 & Hw2 & Hw3 & Hi2 & Hf2 & Hw4 & Hu2).
  exists pre, i1, f1, w1, u1, w2, w3, i2, f2, w4, u2, post.
  repeat (split; [first [reflexivity | assumption]|]).
  unfold match_at, values_of. cbn [group Nat.eqb].
  rewrite !parseFloat_number_text, !getMultiplier_unit_text by assumption.
  reflexivity.
Qed.

Lemma Math_round_floor : forall s m e,
  e < 0 ->
  let n := (2 * cond_Zopp s (Zpos m) + 2 ^ (- e)) / 2 ^ (1 - e) in
  n * 2 ^ (1 - e) <= 2 * cond_Zopp s (Zpos m) + 2 ^ (- e)
                  < (n + 1) * 2 ^ (1 - e)
  /\ Math_round (S754_finite s m e)
     = match n with
       | Z0 => S754_zero s
       | _ => of_Z n
       end.
Proof.
  intros s m e He n. split.
  - assert (Hpos : 0 < 2 ^ (1 - e)) by (apply Z.pow_pos_nonneg; lia).
    unfold n. split.
    + rewrite Z.mul_comm. apply Z.mul_div_le. exact Hpos.
    + pose proof (Z.mod_pos_bound
                    (2 * cond_Zopp s (Zpos m) + 2 ^ (- e)) _ Hpos) as Hm.
      pose proof (Z.div_mod (2 * cond_Zopp s (Zpos m) + 2 ^ (- e))
                    (2 ^ (1 - e))) as Hd.
      lia.
  - unfold Math_round. replace (0 <=? e) with false; [reflexivity|].
    symmetry. apply Z.leb_gt. exact He.
Qed.

(** C6 (as amended). On a population text
    [<number><unit>? / <number><unit>?] the
    parser returns [current] = number1 x unit1 and [maximum] = number2 x
    unit2, the product being that of the source, the binary64 product of
    the number value of the decimal and of the multiplier; whatever it
    returns on any text is read in this way off a population text inside
    that text.  The units [k], [m], [b] in either case stand for 1000,
    1000000 and 1000000000 and an absent unit for 1; [percentage] is
    [current / maximum * 100] rounded to the nearest integer with ties
    toward +infinity, so that 49.5 gives 50 and 50.5 gives 51. *)
Theorem parse_exact_values :
  (forall pow text r,
     parsePopulationValues pow text = Some r ->
     exists pre i1 f1 w1 u1 w2 w3 i2 f2 w4 u2 post,
       text = pre ++ population_text i1 f1 w1 u1 w2 w3 i2 f2 w4 u2 ++ post
       /\ digits i1 = true /\ fraction_ok f1 = true /\ spaces w1 = true
       /\ unit_text u1 = true /\ spaces w2 = true /\ spaces w3 = true
       /\ digits i2 = true /\ fraction_ok f2 = true /\ spaces w4 = true
       /\ unit_text u2 = true
       /\ r = values_of pow i1 f1 u1 i2 f2 u2)
  /\ (forall pow pre i1 f1 w1 u1 w2 w3 i2 f2 w4 u2 rest,
        forallb (fun c => negb (is_digit c)) pre = true ->
        digits i1 = true -> fraction_ok f1 = true -> spaces w1 = true ->
        unit_text u1 = true -> spaces w2 = true -> spaces w3 = true ->
        digits i2 = true -> fraction_ok f2 = true -> spaces w4 = true ->
        unit_text u2 = true -> ends_match rest = true ->
        parsePopulationValues pow
          (pre ++ population_text i1 f1 w1 u1 w2 w3 i2 f2 w4 u2 ++ rest)
        = Some (values_of pow i1 f1 u1 i2 f2 u2))
  /\ (forall pow i1 f1 u1 i2 f2 u2,
        let v := values_of pow i1 f1 u1 i2 f2 u2 in
        current v = fmul (decimal_value i1 f1) (unit_multiplier u1)
        /\ maximum v = fmul (decimal_value i2 f2) (unit_multiplier u2)
        /\ percentage v
           = Math_round (fmul (fdiv (current v) (maximum v)) (of_Z 100)))
  /\ (getMultiplier [] = of_Z 1
      /\ getMultiplier (str "k") = of_Z 1000
      /\ getMultiplier (str "K") = of_Z 1000
      /\ getMultiplier (str "m") = of_Z 1000000
      /\ getMultiplier (str "M") = of_Z 1000000
      /\ getMultiplier (str "b") = of_Z 1000000000
      /\ getMultiplier (str "B") = of_Z 1000000000)
  /\ (forall s m e, e < 0 ->
        let n := (2 * cond_Zopp s (Zpos m) + 2 ^ (- e)) / 2 ^ (1 - e) in
        n * 2 ^ (1 - e) <= 2 * cond_Zopp s (Zpos m) + 2 ^ (- e)
                        < (n + 1) * 2 ^ (1 - e)
        /\ Math_round (S754_finite s m e)
           = match n with
             | Z0 => S754_zero s
             | _ => of_Z n
             end)
  /\ Math_round (lit "49.5") = of_Z 50
  /\ Math_round (lit "50.5") = of_Z 51.
Proof.
  split; [exact parse_sound|].
  split; [exact parse_population_text|].
  split; [intros; repeat split|].
  split; [repeat split|].
  split; [exact Math_round_floor|].
  split; reflexivity.
Qed.

Lemma parse_exact_values_witness :
  parsePopulationValues pow_stand_in (str "12.1K / 12.1K")
  = Some {| current := of_Z 12100; maximum := of_Z 12100;
            percentage := of_Z 100;
            growthMultiplier :=
              growth pow_stand_in (of_Z 12100) (of_Z 12100) |}.
Proof.
  exact (proj1 (proj2 parse_exact_values) pow_stand_in []
           (str "12") (Some (str "1")) [] (str "K") (str " ")
           (str " ") (str "12") (Some (str "1")) [] (str "K") []
           eq_refl eq_refl eq_refl eq_refl eq_refl eq_refl eq_refl
           eq_refl eq_refl eq_refl eq_refl eq_refl).
Defined.

(** C6 as stated fails.  The product 4.02 x 1000000 is 4020000, and for
    [4.02M] the parser returns the double below it; 29 / 200 x 100 is
    14.5, which rounds half up to 15, and the parser returns 14, the
    binary64 value of the quotient times 100 being below 14.5. *)
Lemma exact_product_counterexample :
  exact_product (str "4") (Some (str "02")) 1000000 = of_Z 4020000
  /\ (forall pow,
        option_map current (parsePopulationValues pow (str "4.02M / 5M"))
        = Some (lit "4019999.9999999995"))
  /\ lit "4019999.9999999995"
     <> exact_product (str "4") (Some (str "02")) 1000000
  /\ exact_percentage 29 200 = 15
  /\ fmul (fdiv (of_Z 29) (of_Z 200)) (of_Z 100) = lit "14.499999999999998"
  /\ (forall pow,
        option_map (fun r => (current r, maximum r, percentage r))
          (parsePopulationValues pow (str "29 / 200"))
        = Some (of_Z 29, of_Z 200, of_Z 14)).
Proof.
  split; [vm_compute; reflexivity|].
  split; [intros pow; vm_compute; reflexivity|].
  split; [vm_compute; discriminate|].
  split; [reflexivity|].
  split; [vm_compute; reflexivity|].
  intros pow. vm_compute. reflexivity.
Qed.

Lemma digits_val_zeros : forall s acc,
  forallb (is_char "0") s = true -> digits_val acc s = acc * 10 ^ Z.of_nat (length s).
Proof.
  induction s as [|c s IH]; intros acc H.
  - cbn. lia.
  - cbn [forallb] in H. apply andb_prop in H. destruct H as [Hc Hs].
    unfold is_char in Hc. apply N.eqb_eq in Hc. subst c.
    cbn [digits_val length]. rewrite (IH _ Hs).
    change (digit_val (ch "0")) with 0.
    rewrite Nat2Z.inj_succ, Z.pow_succ_r by lia. lia.
Qed.

Lemma multiplier_of_zero : forall u,
  fmul pos_zero (unit_multiplier u) = pos_zero.
Proof.
  intros u. unfold unit_multiplier.
  destruct (eqb u (str "k") || eqb u (str "K")); [reflexivity|].
  destruct (eqb u (str "m") || eqb u (str "M")); [reflexivity|].
  destruct (eqb u (str "b") || eqb u (str "B")); reflexivity.
Qed.

Lemma percentage_of_zero_maximum : forall c m,
  is_zero m = true ->
  is_finite (Math_round (fmul (fdiv c m) (of_Z 100))) = false.
Proof.
  intros c [s| | |] H; try discriminate.
  destruct c as [[]|[]| |[] mc ec]; destruct s; reflexivity.
Qed.

(** C2 (as amended). A maximum of zero is not rejected: whenever the
    parser returns values whose maximum is zero their percentage is not
    finite, and it does return such values on every population text
    whose second number is written with zeros only. *)
Theorem zero_maximum_is_parsed :
  (forall pow text r,
     parsePopulationValues pow text = Some r ->
     is_zero (maximum r) = true -> is_finite (percentage r) = false)
  /\ (forall pow pre i1 f1 w1 u1 w2 w3 i2 f2 w4 u2 rest,
        forallb (fun c => negb (is_digit c)) pre = true ->
        digits i1 = true -> fraction_ok f1 = true -> spaces w1 = true ->
        unit_text u1 = true -> spaces w2 = true -> spaces w3 = true ->
        digits i2 = true -> fraction_ok f2 = true -> spaces w4 = true ->
        unit_text u2 = true -> ends_match rest = true ->
        forallb (is_char "0") (i2 ++ fraction_digits f2) = true ->
        exists r,
          parsePopulationValues pow
            (pre ++ population_text i1 f1 w1 u1 w2 w3 i2 f2 w4 u2 ++ rest)
          = Some r
          /\ maximum r = pos_zero /\ is_finite (percentage r) = false).
Proof.
  split.
  - intros pow text r. unfold parsePopulationValues.
    destruct (re_match population_re text) as [m|]; [|discriminate].
    intros H. injection H as <-. cbn [maximum percentage].
    apply percentage_of_zero_maximum.
  - intros pow pre i1 f1 w1 u1 w2 w3 i2 f2 w4 u2 rest
           Hpre Hi1 Hf1 Hw1 Hu1 Hw2 Hw3 Hi2 Hf2 Hw4 Hu2 Hrest Hz.
    eexists. split; [apply parse_population_text; assumption|].
    cbn [maximum percentage].
    assert (Hm : fmul (decimal_value i2 f2) (unit_multiplier u2) = pos_zero).
    { unfold decimal_value. rewrite (digits_val_zeros _ 0 Hz).
      cbn [Z.mul of_decimal]. apply multiplier_of_zero. }
    split; [exact Hm|].
    apply percentage_of_zero_maximum. rewrite Hm. reflexivity.
Qed.

Lemma zero_maximum_is_parsed_witness :
  exists r,
    parsePopulationValues pow_stand_in (str "5/0") = Some r
    /\ maximum r = pos_zero /\ is_finite (percentage r) = false.
Proof.
  exact (proj2 zero_maximum_is_parsed pow_stand_in []
           (str "5") None [] [] [] [] (str "0") None [] [] []
           eq_refl eq_refl eq_refl eq_refl eq_refl eq_refl eq_refl
           eq_refl eq_refl eq_refl eq_refl eq_refl eq_refl).
Defined.

(** C2 as stated fails.  The texts [5/0] and [0/0] are parsed: the
    maximum is zero and the percentage is +infinity and NaN. *)
Lemma zero_maximum_counterexample :
  (forall pow,
     option_map (fun r => (current r, maximum r, percentage r))
       (parse pow (str "5/0"))
     = Some (of_Z 5, pos_zero, pos_infinity))
  /\ (forall pow,
        option_map (fun r => (current r, maximum r, percentage r))
          (parse pow (str "0/0"))
        = Some (pos_zero, pos_zero, NaN)).
Proof. split; intros pow; reflexivity. Qed.

(** A display that is gone, or whose base text holds no population
    text, ends the session. *)
Lemma display_lost_ends_session : forall pow env text g,
  match text with
  | None => True
  | Some textContent => ~ contains_shape (baseText textContent)
  end ->
  fst (updatePopulationDisplay pow env text g) = initial (now env).
Proof.
  intros pow env [textContent|] g H; unfold updatePopulationDisplay.
  - unfold parse, parsePopulationValues.
    destruct (re_match population_re (baseText textContent)) eqn:E.
    + exfalso. apply H, population_match_iff. rewrite E. discriminate.
    + rewrite update_invalid. reflexivity.
  - rewrite update_invalid. reflexivity.
Qed.

(* ------------------------------------------------------------------ *)
(** * Rounding never invents a NaN *)

Lemma shr_1_nonneg : forall mrs, 0 <= shr_m mrs -> 0 <= shr_m (shr_1 mrs).
Proof.
  intros [m r s] H. cbn in *.
  destruct m as [|[p|p|]|p]; cbn; lia.
Qed.

Lemma iter_shr_1_nonneg : forall p mrs,
  0 <= shr_m mrs -> 0 <= shr_m (iter_pos shr_1 p mrs).
Proof.
  induction p as [p IH|p IH|]; intros mrs H; cbn.
  - apply IH, IH, shr_1_nonneg, H.
  - apply IH, IH, H.
  - apply shr_1_nonneg, H.
Qed.

Lemma shr_fexp_nonneg : forall p e m ex l,
  0 <= m -> 0 <= shr_m (fst (shr_fexp p e m ex l)).
Proof.
  intros p e m ex l H. unfold shr_fexp, shr.
  assert (H0 : 0 <= shr_m (shr_record_of_loc m l)).
  { destruct l as [|[]]; exact H. }
  destruct (fexp p e (Zdigits2 m + ex) - ex) as [|q|q]; cbn [fst];
    [exact H0 | apply iter_shr_1_nonneg; exact H0 | exact H0].
Qed.

Lemma round_nearest_even_nonneg : forall m l,
  0 <= m -> 0 <= round_nearest_even m l.
Proof.
  intros m l H. unfold round_nearest_even.
  destruct l as [|[]]; try destruct (Z.even m); lia.
Qed.

Lemma binary_round_aux_signed : forall p e sx mx ex lx,
  0 <= mx -> signed sx (binary_round_aux p e sx mx ex lx).
Proof.
  intros p e sx mx ex lx H. unfold binary_round_aux.
  pose proof (shr_fexp_nonneg p e mx ex lx H) as H1.
  destruct (shr_fexp p e mx ex lx) as [mrs' e']. cbn [fst] in H1.
  pose proof (shr_fexp_nonneg p e _ e' loc_Exact
                (round_nearest_even_nonneg _ (loc_of_shr_record mrs') H1))
    as H2.
  destruct (shr_fexp p e _ e' loc_Exact) as [mrs'' e'']. cbn [fst] in H2.
  destruct (shr_m mrs'') as [|q|q]; [reflexivity | | lia].
  destruct (e'' <=? e - p); reflexivity.
Qed.






(* ------------------------------------------------------------------ *)
(** * The session identity ([getGameId]) *)

Lemma is_char_eq : forall a c, is_char a c = true -> c = ch a.
Proof. intros a c H. unfold is_char in H. apply N.eqb_eq in H. exact H. Qed.

Lemma captured_join : forall s m,
  captured join_re s [] m ->
  exists id, s = str "#join=" ++ id /\ m = [(1%nat, id)]
             /\ nonempty id && forallb is_alnum id = true.
Proof.
  intros s m. unfold join_re. cbn [seq captured].
  intros (s1 & t1 & c1 & -> & [(x1 & -> & H1) ->]
          & s2 & t2 & c2 & -> & [(x2 & -> & H2) ->]
          & s3 & t3 & c3 & -> & [(x3 & -> & H3) ->]
          & s4 & t4 & c4 & -> & [(x4 & -> & H4) ->]
          & s5 & t5 & c5 & -> & [(x5 & -> & H5) ->]
          & s6 & id & c6 & -> & [(x6 & -> & H6) ->]
          & c7 & [Hid ->] & ->).
  apply is_char_eq in H1, H2, H3, H4, H5, H6. subst.
  exists id. auto.
Qed.

Lemma search_skip_hash : forall inp pre s,
  forallb (fun c => negb (is_char "#" c)) pre = true ->
  search join_re inp (pre ++ s) = search join_re inp s.
Proof.
  intros inp pre s. induction pre as [|c pre IH]; intros H; [reflexivity|].
  cbn in H. apply andb_prop in H. destruct H as [Hc Hpre].
  apply negb_true_iff in Hc.
  cbn [app search].
  replace (exec join_re inp (c :: pre ++ s) [] (fun _ caps => Some caps))
    with (@None captures).
  - apply IH. exact Hpre.
  - unfold join_re. cbn [seq]. rewrite exec_Seq. cbn [exec]. rewrite Hc.
    reflexivity.
Qed.

Lemma exec_join : forall inp id rest,
  nonempty id && forallb is_alnum id = true ->
  nohead is_alnum rest = true ->
  exec join_re inp (str "#join=" ++ id ++ rest) []
    (fun _ caps => Some caps)
  = Some [(1%nat, id)].
Proof.
  intros inp id rest Hid Hrest. unfold join_re. cbn [seq str app].
  repeat (rewrite exec_Seq, exec_Class_cons by reflexivity).
  rewrite exec_Group.
  apply exec_plus_run; [exact Hid | exact Hrest |].
  rewrite consumed_app. reflexivity.
Qed.

(** X1. The game id is read off the first [#join=] of the address
    fragment: when nothing before it is a [#], the id is the whole run of
    letters and digits that follows, and the search parameter is not
    looked at. *)
Theorem getGameId_from_hash :
  forall now_ pre id rest sj,
    forallb (fun c => negb (is_char "#" c)) pre = true ->
    nonempty id && forallb is_alnum id = true ->
    nohead is_alnum rest = true ->
    getGameId {| now := now_;
                 location_hash := pre ++ str "#join=" ++ id ++ rest;
                 search_join := sj |}
    = Some id.
Proof.
  intros now_ pre id rest sj Hpre Hid Hrest.
  unfold getGameId, re_match. cbn [location_hash search_join].
  rewrite (search_skip_hash _ pre _ Hpre).
  rewrite (search_here _ _ _ _ (exec_join _ id rest Hid Hrest)).
  cbn [group Nat.eqb].
  destruct id as [|c id]; [discriminate|]. reflexivity.
Qed.

Lemma getGameId_from_hash_witness :
  getGameId {| now := t0;
               location_hash := str "#join=DgUjVkVW&x";
               search_join := Some (str "other") |}
  = Some (str "DgUjVkVW").
Proof.
  exact (getGameId_from_hash t0 [] (str "DgUjVkVW") (str "&x")
           (Some (str "other")) eq_refl eq_refl eq_refl).
Defined.

(** X2. An id that [getGameId] returns is never the empty string, and it
    is either a run of letters and digits that follows [#join=] in the
    address fragment or the value of the search parameter [join]; the
    latter only when the fragment holds no [#join=] followed by a letter
    or digit, in which case the result is that parameter when it is
    neither null nor empty and null otherwise. *)
Theorem getGameId_sound :
  forall env,
    (forall id, getGameId env = Some id ->
       id <> []
       /\ ((forallb is_alnum id = true
            /\ exists pre post,
                 location_hash env = pre ++ str "#join=" ++ id ++ post)
           \/ search_join env = Some id))
    /\ ((forall pre c post,
           location_hash env = pre ++ str "#join=" ++ c :: post ->
           is_alnum c = false) ->
        getGameId env
        = if truthy (search_join env) then search_join env else None).
Proof.
  intros env. split.
  - intros id H.
    assert (Hne : id <> []).
    { destruct (getGameId_truthy env) as [E|E]; rewrite H in E;
        [discriminate|]. destruct id; [discriminate E|discriminate]. }
    split; [exact Hne|].
    unfold getGameId, re_match in H.
    destruct (search join_re (location_hash env) (location_hash env))
      as [m|] eqn:E.
    + destruct (search_sound join_re eq_refl _ _ _ E)
        as (pre & core & post & Eh & Hc).
      destruct (captured_join _ _ Hc) as (id' & -> & -> & Hid).
      cbn [group Nat.eqb] in H.
      destruct id' as [|c id']; [discriminate|].
      cbn [truthy] in H. injection H as <-.
      left. apply andb_prop in Hid. destruct Hid as [_ Hid].
      split; [exact Hid|]. exists pre, post.
      rewrite Eh, <- app_assoc. reflexivity.
    + right. destruct (truthy (search_join env)); [exact H|discriminate].
  - intros Hno. unfold getGameId, re_match.
    destruct (search join_re (location_hash env) (location_hash env))
      as [m|] eqn:E; [|reflexivity].
    exfalso.
    destruct (search_sound join_re eq_refl _ _ _ E)
      as (pre & core & post & Eh & Hc).
    destruct (captured_join _ _ Hc) as (id' & -> & _ & Hid).
    destruct id' as [|c id']; [discriminate|].
    cbn in Hid. apply andb_prop in Hid. destruct Hid as [Hc' _].
    rewrite (Hno pre c (id' ++ post)) in Hc'; [discriminate|].
    rewrite Eh, <- !app_assoc. reflexivity.
Qed.

Lemma getGameId_sound_witness :
  getGameId {| now := t0; location_hash := str "#lobby";
               search_join := Some (str "abc") |}
  = Some (str "abc").
Proof.
  apply (proj2 (getGameId_sound
                  {| now := t0; location_hash := str "#lobby";
                     search_join := Some (str "abc") |})).
  intros pre c post H. cbn [location_hash] in H.
  assert (Hlen : (length (str "#lobby") >= 7)%nat).
  { rewrite H, !length_app. cbn. lia. }
  cbn in Hlen. lia.
Defined.

(* ------------------------------------------------------------------ *)
(** * The recorder: invariants and the writes of a session *)

Lemma strict_neq_false : forall a b, strict_neq a b = false -> a = b.
Proof.
  intros [x|] [y|]; cbn; intros H; try discriminate; [|reflexivity].
  apply negb_false_iff in H. unfold eqb in H.
  destruct (jsstring_eq_dec x y); [subst; reflexivity|discriminate].
Qed.

Lemma update_same_fields : forall env pop g,
  switches env g = false ->
  gameState (fst (updateRecording env true pop g)) = gameState g
  /\ currentGameId (fst (updateRecording env true pop g)) = currentGameId g
  /\ recording (fst (updateRecording env true pop g))
     = recording g
       ++ (if now env - lastRecorded g >? 1000 then [pop] else [])
  /\ lastStorageSave (fst (updateRecording env true pop g))
     = (if now env - lastStorageSave g >? 5000 then now env
        else lastStorageSave g)
  /\ snd (updateRecording env true pop g)
     = (if now env - lastStorageSave g >? 5000
        then saveRecordingToStorage env (fst (updateRecording env true pop g))
        else []).
Proof.
  intros env pop g Hs. rewrite update_same by exact Hs. cbv zeta.
  destruct (now env - lastStorageSave g >? 5000); cbn; auto 6.
Qed.

(** X3. In every state the recorder can reach, the state
    [DONE_RECORDING] does not occur, [NOT_ACTIVE] goes with a null
    session id, the session id is never the empty string, and the value
    0 of a timer means never: the sample timer is 0 with an empty buffer
    and above 1000 with samples in it, the flush timer is 0 or above
    5000. *)
Theorem reachable_invariants :
  forall g, reachable g ->
    gameState g <> DONE_RECORDING
    /\ (gameState g = NOT_ACTIVE -> currentGameId g = None)
    /\ currentGameId g <> Some []
    /\ (recording g = [] /\ lastRecorded g = 0
        \/ recording g <> [] /\ lastRecorded g > 1000)
    /\ (lastStorageSave g = 0 \/ lastStorageSave g > 5000).
Proof.
  induction 1 as [t0' | g [env valid pop] Hr IH].
  - cbn. repeat split; try discriminate; auto.
  - destruct IH as (H1 & H2 & H3 & H4 & H5).
    unfold step. cbn [tick_env tick_valid tick_population].
    destruct valid.
    + destruct (switches env g) eqn:Hs.
      * rewrite update_switch by exact Hs. cbn [fst gameState currentGameId
          recording lastRecorded lastStorageSave].
        split; [discriminate|]. split; [discriminate|].
        split.
        { destruct (getGameId_truthy env) as [E|E]; [rewrite E; discriminate|].
          destruct (truthy_Some _ E) as (c & id & E').
          rewrite E'. discriminate. }
        split.
        { destruct (now env >? 1000) eqn:E; [right|left; auto].
          apply Z.gtb_lt in E. split; [discriminate|lia]. }
        destruct (now env >? 5000) eqn:E; [right|left; auto].
        apply Z.gtb_lt in E. lia.
      * rewrite update_same by exact Hs. cbv zeta.
        assert (Hrec :
          recording g ++ (if now env - lastRecorded g >? 1000
                          then [pop] else []) = []
          /\ (if now env - lastRecorded g >? 1000 then now env
              else lastRecorded g) = 0
          \/ recording g ++ (if now env - lastRecorded g >? 1000
                             then [pop] else []) <> []
             /\ (if now env - lastRecorded g >? 1000 then now env
                 else lastRecorded g) > 1000).
        { destruct (now env - lastRecorded g >? 1000) eqn:E.
          - right. apply Z.gtb_lt in E. split.
            + intros C. apply app_eq_nil in C. destruct C as [_ C].
              discriminate.
            + destruct H4 as [[_ E0]|[_ E0]]; lia.
          - rewrite app_nil_r. exact H4. }
        destruct (now env - lastStorageSave g >? 5000) eqn:E;
          cbn [fst gameState currentGameId recording lastRecorded
               lastStorageSave]; repeat split; auto.
        right. apply Z.gtb_lt in E. destruct H5; lia.
    + rewrite update_invalid. cbn.
      repeat split; try discriminate; auto.
Qed.

Lemma reachable_invariants_witness :
  gameState left_game_A <> DONE_RECORDING
  /\ (gameState left_game_A = NOT_ACTIVE -> currentGameId left_game_A = None)
  /\ currentGameId left_game_A <> Some []
  /\ (recording left_game_A = [] /\ lastRecorded left_game_A = 0
      \/ recording left_game_A <> [] /\ lastRecorded left_game_A > 1000)
  /\ (lastStorageSave left_game_A = 0 \/ lastStorageSave left_game_A > 5000).
Proof.
  exact (reachable_invariants left_game_A left_game_A_reachable).
Defined.

(** X4. The recorder follows the page: after a tick with a valid value
    the session id it holds is the one [getGameId] returns, after any
    other tick it is null; and from a reachable state a valid tick leaves
    the state [NOT_ACTIVE] only when it was [NOT_ACTIVE] and the page
    names no game. *)
Theorem recorder_follows_page :
  forall env pop g,
    reachable g ->
    currentGameId (fst (updateRecording env true pop g)) = getGameId env
    /\ currentGameId (fst (updateRecording env false pop g)) = None
    /\ (gameState (fst (updateRecording env true pop g)) = NOT_ACTIVE
        <-> gameState g = NOT_ACTIVE /\ getGameId env = None)
    /\ (gameState (fst (updateRecording env true pop g)) = RECORDING
        <-> ~ (gameState g = NOT_ACTIVE /\ getGameId env = None)).
Proof.
  intros env pop g Hr.
  destruct (reachable_well_formed _ Hr) as [Hna _].
  assert (Hdone : gameState g <> DONE_RECORDING).
  { clear Hna. induction Hr as [t0' | g [env' valid pop'] Hr IH];
      [discriminate|].
    unfold step. cbn [tick_env tick_valid tick_population].
    destruct valid.
    - destruct (switches env' g) eqn:Hs.
      + rewrite update_switch by exact Hs. discriminate.
      + rewrite update_same by exact Hs. cbv zeta.
        destruct (now env' - lastStorageSave g >? 5000); exact IH.
    - rewrite update_invalid. discriminate. }
  split; [|split; [rewrite update_invalid; reflexivity|]].
  - destruct (switches env g) eqn:Hs.
    + rewrite update_switch by exact Hs. reflexivity.
    + rewrite update_same by exact Hs. cbv zeta.
      unfold switches in Hs. apply strict_neq_false in Hs.
      destruct (now env - lastStorageSave g >? 5000); cbn; congruence.
  - destruct (switches env g) eqn:Hs.
    + rewrite update_switch by exact Hs. cbn [fst gameState].
      assert (Hno : ~ (gameState g = NOT_ACTIVE /\ getGameId env = None)).
      { intros [E1 E2]. unfold switches in Hs.
        rewrite (Hna E1), E2 in Hs. discriminate. }
      split; split; try discriminate; try tauto.
    + pose proof Hs as Hs'.
      unfold switches in Hs. apply strict_neq_false in Hs.
      rewrite (proj1 (update_same_fields env pop g Hs')).
      destruct (gameState g) eqn:Egs.
      * rewrite Hs, (Hna eq_refl).
        split; split; intuition discriminate.
      * split; split; intuition discriminate.
      * contradiction.
Qed.

Lemma recorder_follows_page_witness :
  currentGameId
    (fst (updateRecording (at_game "B" (t0 + 200)) true (of_Z 102)
            left_game_A))
  = getGameId (at_game "B" (t0 + 200))
  /\ currentGameId
       (fst (updateRecording (at_game "B" (t0 + 200)) false (of_Z 102)
               left_game_A))
     = None
  /\ (gameState
        (fst (updateRecording (at_game "B" (t0 + 200)) true (of_Z 102)
                left_game_A))
      = NOT_ACTIVE
      <-> gameState left_game_A = NOT_ACTIVE
          /\ getGameId (at_game "B" (t0 + 200)) = None)
  /\ (gameState
        (fst (updateRecording (at_game "B" (t0 + 200)) true (of_Z 102)
                left_game_A))
      = RECORDING
      <-> ~ (gameState left_game_A = NOT_ACTIVE
             /\ getGameId (at_game "B" (t0 + 200)) = None)).
Proof.
  exact (recorder_follows_page (at_game "B" (t0 + 200)) (of_Z 102)
           left_game_A left_game_A_reachable).
Defined.

Lemma write_snapshot :
  forall env valid pop g w,
    In w (snd (updateRecording env valid pop g)) ->
    (currentGameId g = Some (key w) /\ w = flush_of env g (key w))
    \/ (let g' := fst (updateRecording env valid pop g) in
        currentGameId g' = Some (key w) /\ w = flush_of env g' (key w)).
Proof.
  intros env valid pop g w.
  assert (Hsave : forall g0, In w (saveRecordingToStorage env g0) ->
            currentGameId g0 = Some (key w) /\ w = flush_of env g0 (key w)).
  { intros g0 H. pose proof (save_In _ _ _ H) as (E & _).
    split; [exact E|].
    unfold saveRecordingToStorage in H. rewrite E in H.
    destruct (negb (truthy (Some (key w))) || _); [destruct H|].
    destruct H as [<-|[]]. reflexivity. }
  destruct valid.
  - destruct (switches env g) eqn:Hs.
    + rewrite update_switch by exact Hs. cbn [snd fst]. rewrite guarded_save.
      intros H. apply in_app_or in H. destruct H as [H|H].
      * left. apply Hsave. exact H.
      * right. cbv zeta. cbn [currentGameId].
        destruct (now env >? 5000); [|destruct H].
        destruct (getGameId env) as [id|]; [|destruct H].
        destruct (now env >? 1000); [|destruct H].
        destruct H as [<-|[]]. split; reflexivity.
    + destruct (update_same_fields env pop g Hs) as (_ & _ & _ & _ & E).
      rewrite E. destruct (now env - lastStorageSave g >? 5000);
        [|intros []].
      intros H. right. apply Hsave. exact H.
  - rewrite update_invalid. cbn [snd].
    destruct (negb (GameState_eqb (gameState g) NOT_ACTIVE)); cbn [andb];
      [|intros []].
    rewrite guarded_save. intros H. left. apply Hsave. exact H.
Qed.

(** X5. Every write of a tick is a snapshot of the whole buffer, either
    as the tick found it, under the session id held before the tick, or
    as the tick leaves it, this tick's sample included, under the session
    id held after the tick; its time is the clock of the tick. *)
Theorem writes_are_snapshots :
  forall env valid pop g w,
    In w (snd (updateRecording env valid pop g)) ->
    (currentGameId g = Some (key w) /\ w = flush_of env g (key w))
    \/ (let g' := fst (updateRecording env valid pop g) in
        currentGameId g' = Some (key w) /\ w = flush_of env g' (key w)).
Proof. exact write_snapshot. Qed.

Lemma writes_are_snapshots_witness :
  let env := at_game "B" (t0 + 200) in
  let g := fst (step (initial t0) (valid_tick (at_game "A" t0) 100)) in
  let w := flush_of env g (str "A") in
  (currentGameId g = Some (key w) /\ w = flush_of env g (key w))
  \/ (let g' := fst (updateRecording env true (of_Z 102) g) in
      currentGameId g' = Some (key w) /\ w = flush_of env g' (key w)).
Proof.
  exact (writes_are_snapshots (at_game "B" (t0 + 200)) true (of_Z 102)
           (fst (step (initial t0) (valid_tick (at_game "A" t0) 100)))
           (flush_of (at_game "B" (t0 + 200))
              (fst (step (initial t0) (valid_tick (at_game "A" t0) 100)))
              (str "A"))
           (or_introl eq_refl)).
Defined.

Lemma spaced_by_head : forall d a a' l,
  a <= a' -> spaced_by d (a' :: l) -> spaced_by d (a :: l).
Proof.
  intros d a a' [|b l] Hle H; [exact I|].
  destruct H as [H1 H2]. split; [lia | exact H2].
Qed.

Lemma same_session_tick : forall g t,
  tick_valid t = true -> switches (tick_env t) g = false ->
  let g1 := fst (step g t) in
  currentGameId g1 = currentGameId g
  /\ (exists l, recording g1 = recording g ++ l)
  /\ (snd (step g t) = [] /\ lastStorageSave g <= lastStorageSave g1
      \/ exists id,
           snd (step g t) = [flush_of (tick_env t) g1 id]
           /\ now (tick_env t) - lastStorageSave g > 5000
           /\ lastStorageSave g1 = now (tick_env t)).
Proof.
  intros g [env valid pop]; cbn [tick_env tick_valid tick_population].
  intros -> Hs. unfold step; cbn [tick_env tick_valid tick_population].
  destruct (update_same_fields env pop g Hs) as (_ & Eid & Erec & Elss & Ews).
  cbv zeta. split; [exact Eid|]. split; [eauto|].
  rewrite Ews, Elss.
  destruct (now env - lastStorageSave g >? 5000) eqn:E5.
  - apply Z.gtb_lt in E5.
    destruct (saveRecordingToStorage env
                (fst (updateRecording env true pop g))) as [|w l] eqn:Esave.
    + left. split; [reflexivity | lia].
    + right. rewrite save_spec in Esave.
      destruct (currentGameId (fst (updateRecording env true pop g)))
        as [[|c id]|]; try discriminate.
      destruct (nonempty _); [|discriminate].
      injection Esave as <- <-. exists (c :: id).
      split; [reflexivity|]. split; [lia | reflexivity].
  - left. split; [reflexivity | lia].
Qed.

Lemma same_session_next : forall g t ticks,
  tick_valid t = true -> switches (tick_env t) g = false ->
  same_session g ticks = true ->
  same_session (fst (step g t)) ticks = true.
Proof.
  intros g t ticks Hv Hs H.
  destruct (same_session_tick g t Hv Hs) as (Hid & _).
  unfold same_session, switches in *. rewrite Hid. exact H.
Qed.

Lemma same_session_cons : forall g t ticks,
  same_session g (t :: ticks) = true ->
  tick_valid t = true /\ switches (tick_env t) g = false
  /\ same_session g ticks = true.
Proof.
  intros g t ticks H. cbn in H.
  apply andb_prop in H. destruct H as [Ht H].
  apply andb_prop in Ht. destruct Ht as [Hv Hs].
  apply negb_true_iff in Hs. auto.
Qed.

(** X6. Within one session the writes are more than 5000 ms apart,
    whatever the times of the ticks: the clock values the writes of the
    run carry, after the flush timer the run starts with, differ by more
    than 5000 from one to the next. *)
Theorem flush_cadence :
  forall g ticks,
    same_session g ticks = true ->
    spaced_by 5000 (lastStorageSave g :: write_times g ticks).
Proof.
  intros g ticks. revert g.
  induction ticks as [|t ticks IH]; intros g H; [exact I|].
  apply same_session_cons in H. destruct H as (Hv & Hs & H).
  pose proof (IH _ (same_session_next g t ticks Hv Hs H)) as IH'.
  destruct (same_session_tick g t Hv Hs) as (_ & _ & Hw).
  unfold write_times in *. cbn [run].
  destruct (step g t) as [g1 w1] eqn:E1. cbn [fst snd] in *.
  destruct (run g1 ticks) as [g2 ws] eqn:E2. cbn [fst snd concat] in *.
  destruct Hw as [[-> Hle]|(id & -> & Hgt & Elss)].
  - cbn [app]. apply (spaced_by_head _ _ _ _ Hle). exact IH'.
  - cbn [app map flush_of value_timestamp]. rewrite Elss in IH'.
    split; [lia | exact IH'].
Qed.

Lemma flush_cadence_witness :
  spaced_by 5000
    (lastStorageSave
       (fst (step (initial t0) (valid_tick (at_game "A" t0) 100)))
       :: write_times
            (fst (step (initial t0) (valid_tick (at_game "A" t0) 100)))
            (every_100ms (at_game "A") 100 (t0 + 100) 120)).
Proof.
  exact (flush_cadence
           (fst (step (initial t0) (valid_tick (at_game "A" t0) 100)))
           (every_100ms (at_game "A") 100 (t0 + 100) 120) eq_refl).
Defined.

Lemma same_session_grows : forall ticks g,
  same_session g ticks = true ->
  exists l, recording (fst (run g ticks)) = recording g ++ l.
Proof.
  induction ticks as [|t ticks IH]; intros g H.
  - exists []. cbn. rewrite app_nil_r. reflexivity.
  - apply same_session_cons in H. destruct H as (Hv & Hs & H).
    destruct (IH _ (same_session_next g t ticks Hv Hs H)) as (l & El).
    destruct (same_session_tick g t Hv Hs) as (_ & (l1 & E1) & _).
    cbn [run]. destruct (step g t) as [g1 w1]. cbn [fst] in *.
    destruct (run g1 ticks) as [g2 ws]. cbn [fst] in *.
    exists (l1 ++ l). rewrite El, E1, app_assoc. reflexivity.
Qed.

(** X7. Within one session the buffer only grows at its end, and every
    write holds the buffer the run started with, followed by samples of
    the run, and is itself a beginning of the buffer the run ends with:
    a later write of the session never lacks a sample an earlier one
    held. *)
Theorem session_writes_extend :
  forall g ticks,
    same_session g ticks = true ->
    (exists l, recording (fst (run g ticks)) = recording g ++ l)
    /\ forall ws w,
         In ws (snd (run g ticks)) -> In w ws ->
         (exists l, value_recording w = recording g ++ l)
         /\ (exists l, recording (fst (run g ticks)) = value_recording w ++ l).
Proof.
  intros g ticks H. split; [apply same_session_grows; exact H|].
  revert g H.
  induction ticks as [|t ticks IH]; intros g H ws w; [intros []|].
  apply same_session_cons in H. destruct H as (Hv & Hs & H).
  pose proof (same_session_next g t ticks Hv Hs H) as H1.
  pose proof (same_session_grows ticks _ H1) as (lg & Eg).
  pose proof (IH _ H1) as IH'.
  destruct (same_session_tick g t Hv Hs) as (_ & (l1 & E1) & Hw).
  cbn [run]. destruct (step g t) as [g1 w1] eqn:Est. cbn [fst snd] in *.
  destruct (run g1 ticks) as [g2 wss] eqn:Er. cbn [fst snd] in *.
  intros [<-|Hin] Hw'.
  - destruct Hw as [[-> _]|(id & -> & _)]; [destruct Hw'|].
    destruct Hw' as [<-|[]]. cbn [flush_of value_recording].
    split; [exists l1; exact E1 | exists lg; exact Eg].
  - destruct (IH' ws w Hin Hw') as ((l & El) & Hfin).
    split; [|exact Hfin].
    exists (l1 ++ l). rewrite El, E1, app_assoc. reflexivity.
Qed.

Lemma session_writes_extend_witness :
  exists l,
    recording
      (fst (run (fst (step (initial t0) (valid_tick (at_game "A" t0) 100)))
              (every_100ms (at_game "A") 7 (t0 + 100) 60)))
    = recording (fst (step (initial t0) (valid_tick (at_game "A" t0) 100)))
      ++ l.
Proof.
  exact (proj1 (session_writes_extend
                  (fst (step (initial t0) (valid_tick (at_game "A" t0) 100)))
                  (every_100ms (at_game "A") 7 (t0 + 100) 60) eq_refl)).
Defined.

(* ------------------------------------------------------------------ *)
(** * From the recorder to the export *)

Lemma data_records_app : forall a b,
  data_records (a ++ b) = data_records a ++ data_records b.
Proof.
  induction a as [|[gameId [[[[|x l]|] ts]|]] a IH]; intros b; cbn;
    rewrite ?IH; reflexivity.
Qed.

(** X8. Nothing the recorder writes is skipped by the export: the record
    a write of any run leaves in the storage area yields the row
    [<key>,<v1>,...,<vn>] of its samples, wherever it stands among the
    other records. *)
Theorem recorded_sessions_are_exported :
  forall (numberToString : number -> jsstring) g ticks ws w before after,
    In ws (snd (run g ticks)) -> In w ws ->
    data_records (before ++ (key w, Some (stored_of w)) :: after)
    = data_records before ++ (key w, value_recording w) :: data_records after
    /\ csvContent numberToString
         (before ++ (key w, Some (stored_of w)) :: after)
       = csvContent numberToString before
         ++ comma_separated (key w :: map numberToString (value_recording w))
         ++ nl
         ++ concat
              (map (fun r : jsstring * list number =>
                      comma_separated (fst r :: map numberToString (snd r))
                      ++ nl)
                   (data_records after)).
Proof.
  intros numberToString g ticks ws w before after Hws Hw.
  destruct (run_writes ticks g ws w Hws Hw) as [_ Hne].
  assert (E : data_records
                (before ++ (key w, Some (stored_of w)) :: after)
              = data_records before
                ++ (key w, value_recording w) :: data_records after).
  { rewrite data_records_app. cbn [data_records stored_of].
    destruct (value_recording w) as [|x l]; [contradiction|]. reflexivity. }
  split; [exact E|].
  unfold csvContent. rewrite !csv_fold, E, map_app, concat_app.
  cbn [map concat fst snd]. rewrite <- !app_assoc. reflexivity.
Qed.

Lemma recorded_sessions_are_exported_witness :
  let w := {| key := str "A"; value_recording := [of_Z 100];
              value_timestamp := t0 |} in
  data_records ([] ++ (key w, Some (stored_of w)) :: [])
  = data_records [] ++ (key w, value_recording w) :: data_records [].
Proof.
  exact (proj1 (recorded_sessions_are_exported (fun _ => [])
                  (initial t0) [valid_tick (at_game "A" t0) 100]
                  [ {| key := str "A"; value_recording := [of_Z 100];
                       value_timestamp := t0 |} ]
                  {| key := str "A"; value_recording := [of_Z 100];
                     value_timestamp := t0 |}
                  [] [] (or_introl eq_refl) (or_introl eq_refl))).
Defined.

(* ------------------------------------------------------------------ *)
(** * The base text ([updatePopulationDisplay]) *)

Lemma lang_annotation : forall s,
  lang annotation_re s <->
  exists sp a, s = sp ++ ch "(" :: a ++ [ch ")"]
               /\ spaces sp = true /\ without ")" a = true.
Proof.
  intros s. unfold annotation_re. cbn [seq lang]. split.
  - intros (sp & t1 & -> & Hsp & p1 & t2 & -> & (c1 & -> & H1)
            & a & p2 & -> & Ha & c2 & -> & H2).
    apply is_char_eq in H1, H2. subst. exists sp, a. auto.
  - intros (sp & a & -> & Hsp & Ha).
    exists sp, (ch "(" :: a ++ [ch ")"]). repeat split; auto.
    exists [ch "("], (a ++ [ch ")"]). repeat split; eauto.
    exists a, [ch ")"]. repeat split; eauto.
Qed.

(** What follows the first group of [base_re]: the annotation or nothing,
    then the end of the text. *)
Lemma exec_tail_sound : forall inp s caps a,
  exec (Seq (Opt annotation_re) Eol) inp s caps (fun _ c => Some c) = Some a ->
  a = caps /\ (s = [] \/ lang annotation_re s).
Proof.
  intros inp s caps a H. rewrite exec_Seq in H.
  destruct (exec_sound (Opt annotation_re) eq_refl _ _ _ _ _ _ H)
    as (s1 & s2 & c1 & -> & Hc & Hk).
  destruct (captured_group_free (Opt annotation_re) eq_refl _ _ _ Hc)
    as [Hl ->].
  cbn [exec] in Hk. destruct s2 as [|x s2]; [|discriminate].
  injection Hk as <-. rewrite app_nil_r. split; [reflexivity|].
  cbn [lang] in Hl. exact Hl.
Qed.

Lemma exec_tail_complete : forall inp s caps,
  s = [] \/ lang annotation_re s ->
  exec (Seq (Opt annotation_re) Eol) inp s caps (fun _ c => Some c)
  = Some caps.
Proof.
  intros inp s caps H.
  destruct (exec (Seq (Opt annotation_re) Eol) inp s caps
              (fun _ c => Some c)) as [a|] eqn:E.
  - destruct (exec_tail_sound _ _ _ _ E) as [-> _]. reflexivity.
  - exfalso. rewrite exec_Seq in E. revert E.
    apply (exec_lang (Opt annotation_re) eq_refl _ inp s caps _
             (fun s' => s' = [])).
    + intros [|x s'] c; cbn [exec]; split; try discriminate; auto.
      intros C. contradiction.
    + exists s, []. rewrite app_nil_r. cbn [lang]. auto.
Qed.

Lemma star_lazy_first : forall (A : Type) p (k : jsstring -> option A) a s x,
  forallb p a = true ->
  (forall a1 a2, a = a1 ++ a2 -> a2 <> [] -> k (a2 ++ s) = None) ->
  k s = Some x ->
  star_lazy p (a ++ s) k = Some x.
Proof.
  intros A p k a s x. induction a as [|c a IH]; intros Ha Hno Hk.
  - cbn [app]. destruct s; cbn [star_lazy]; rewrite Hk; reflexivity.
  - cbn [forallb] in Ha. apply andb_prop in Ha. destruct Ha as [Hc Ha].
    cbn [app star_lazy].
    pose proof (Hno [] (c :: a) eq_refl ltac:(discriminate)) as H0.
    cbn [app] in H0. rewrite H0, Hc. apply IH; [exact Ha | | exact Hk].
    intros a1 a2 E Hne. apply (Hno (c :: a1) a2); [|exact Hne].
    rewrite E. reflexivity.
Qed.

Lemma exec_Bol : forall (A : Type) inp s caps
    (k : jsstring -> captures -> option A),
  exec Bol inp s caps k
  = if Nat.eqb (length s) (length inp) then k s caps else None.
Proof. reflexivity. Qed.

Lemma exec_LazyStar : forall (A : Type) p inp s caps
    (k : jsstring -> captures -> option A),
  exec (LazyStar p) inp s caps k = star_lazy p s (fun s' => k s' caps).
Proof. reflexivity. Qed.

Lemma exec_base : forall text b tail,
  text = b ++ tail ->
  forallb is_dot b = true ->
  (forall a1 a2, b = a1 ++ a2 -> a2 <> [] ->
     ~ lang annotation_re (a2 ++ tail)) ->
  tail = [] \/ lang annotation_re tail ->
  re_match base_re text = Some [(1%nat, b)].
Proof.
  intros text b tail -> Hb Hno Htail. unfold re_match.
  apply search_here. unfold base_re. cbn [seq].
  change (seq [ Star is_space; Class (is_char "(");
                Star (fun c => negb (is_char ")" c)); Class (is_char ")") ])
    with annotation_re.
  rewrite exec_Seq, exec_Bol, Nat.eqb_refl.
  rewrite exec_Seq, exec_Group, exec_LazyStar.
  apply star_lazy_first.
  - exact Hb.
  - intros a1 a2 E Hne.
    match goal with
    | |- ?e = None => destruct e as [m|] eqn:Ex; [|reflexivity]
    end.
    exfalso. destruct (exec_tail_sound _ _ _ _ Ex) as [_ [C|C]].
    + apply app_eq_nil in C. destruct C as [C _]. contradiction.
    + exact (Hno a1 a2 E Hne C).
  - rewrite exec_tail_complete by exact Htail.
    rewrite consumed_app. reflexivity.
Qed.

Lemma first_occurrence : forall (x : cu) l1 r1 l2 r2,
  l1 ++ x :: r1 = l2 ++ x :: r2 ->
  forallb (fun c => negb (c =? x)%N) l1 = true ->
  forallb (fun c => negb (c =? x)%N) l2 = true ->
  l1 = l2.
Proof.
  intros x l1. induction l1 as [|c l1 IH]; intros r1 [|c2 l2] r2 E H1 H2.
  - reflexivity.
  - cbn in E. injection E as <- _. cbn in H2. rewrite N.eqb_refl in H2.
    discriminate.
  - cbn in E. injection E as -> _. cbn in H1. rewrite N.eqb_refl in H1.
    discriminate.
  - cbn in E. injection E as <- E. cbn in H1, H2.
    apply andb_prop in H1, H2. destruct H1 as [_ H1]. destruct H2 as [_ H2].
    rewrite (IH _ _ _ E H1 H2). reflexivity.
Qed.

Lemma space_not_paren : forall c, is_space c = true -> is_char "(" c = false.
Proof. intros c H. charclass H. Qed.

Lemma forallb_rev : forall (p : cu -> bool) l,
  forallb p (rev l) = true <-> forallb p l = true.
Proof.
  intros p l. rewrite !forallb_forall.
  split; intros H x Hx; apply H; [apply in_rev in Hx|apply in_rev];
    assumption.
Qed.

Lemma suffix_not_spaces : forall b a1 a2,
  nohead is_space (rev b) = true -> b = a1 ++ a2 -> a2 <> [] ->
  spaces a2 = false.
Proof.
  intros b a1 a2 Hb -> Hne.
  destruct (spaces a2) eqn:E; [|reflexivity]. exfalso.
  rewrite rev_app_distr in Hb.
  apply forallb_rev in E.
  destruct (rev a2) as [|c r] eqn:Er.
  - apply Hne. rewrite <- (rev_involutive a2), Er. reflexivity.
  - cbn in Hb, E. apply andb_prop in E. destruct E as [Hc _].
    rewrite Hc in Hb. discriminate.
Qed.

Lemma baseText_annotated :
  forall b w a,
    forallb is_dot b = true -> without "(" b = true ->
    nohead is_space (rev b) = true ->
    spaces w = true -> without ")" a = true ->
    baseText (b ++ w ++ ch "(" :: a ++ [ch ")"]) = trim b.
Proof.
  intros b w a Hdot Hpar Hend Hw Ha. unfold baseText.
  rewrite (exec_base _ b (w ++ ch "(" :: a ++ [ch ")"]) eq_refl Hdot).
  - reflexivity.
  - intros a1 a2 E Hne C. apply lang_annotation in C.
    destruct C as (sp & a' & E' & Hsp & _).
    rewrite app_assoc in E'.
    apply first_occurrence in E'.
    + pose proof (suffix_not_spaces b a1 a2 Hend E Hne) as Hns.
      rewrite <- E' in Hsp. unfold spaces in *.
      rewrite forallb_app in Hsp. apply andb_prop in Hsp.
      destruct Hsp as [Hsp _]. rewrite Hsp in Hns. discriminate.
    + rewrite forallb_app. apply andb_true_intro. split.
      * unfold without in Hpar. rewrite E, forallb_app in Hpar.
        apply andb_prop in Hpar. destruct Hpar as [_ Hpar]. exact Hpar.
      * unfold spaces in Hw. rewrite forallb_forall in *.
        intros x Hx. apply negb_true_iff.
        apply (space_not_paren x (Hw x Hx)).
    + unfold spaces in Hsp. rewrite forallb_forall in *.
      intros x Hx. apply negb_true_iff.
      apply (space_not_paren x (Hsp x Hx)).
  - right. apply lang_annotation. exists w, a. auto.
Qed.

(** X9. The base text drops one trailing annotation in parentheses: when
    the text is [b], white space, and an annotation [( ... )] without
    closing parenthesis inside, where [b] holds no line terminator and no
    opening parenthesis and does not end in white space, the base text is
    [b] without its leading white space. *)
Theorem baseText_strips_annotation :
  forall b w a,
    forallb is_dot b = true -> without "(" b = true ->
    nohead is_space (rev b) = true ->
    spaces w = true -> without ")" a = true ->
    baseText (b ++ w ++ ch "(" :: a ++ [ch ")"]) = trim b.
Proof. exact baseText_annotated. Qed.

Lemma baseText_strips_annotation_witness :
  baseText (str "12.1K / 12.1K" ++ str " " ++ ch "(" :: str "+3" ++ [ch ")"])
  = trim (str "12.1K / 12.1K").
Proof.
  exact (baseText_strips_annotation (str "12.1K / 12.1K") (str " ")
           (str "+3") eq_refl eq_refl eq_refl eq_refl eq_refl).
Defined.

Lemma baseText_bare :
  forall text,
    forallb is_dot text = true ->
    without "(" text || nohead (is_char ")") (rev text) = true ->
    baseText text = trim text.
Proof.
  intros text Hdot H. unfold baseText.
  rewrite (exec_base text text []);
    [reflexivity | symmetry; apply app_nil_r | exact Hdot | | left; reflexivity].
  intros a1 a2 E Hne C. rewrite app_nil_r in C.
  apply lang_annotation in C. destruct C as (sp & a & -> & _ & _).
  apply orb_prop in H. destruct H as [H|H].
  - unfold without in H. rewrite E, !forallb_app in H.
    apply andb_prop in H. destruct H as [_ H].
    apply andb_prop in H. destruct H as [_ H].
    cbn in H. discriminate.
  - replace text with ((a1 ++ sp ++ ch "(" :: a) ++ [ch ")"]) in H.
    + rewrite rev_unit in H. discriminate.
    + rewrite E, <- !app_assoc. reflexivity.
Qed.

(** X10. Without annotation the base text is the text without the white
    space at its ends: this holds for every text that holds no line
    terminator and either holds no opening parenthesis or does not end in
    a closing one. *)
Theorem baseText_plain :
  forall text,
    forallb is_dot text = true ->
    without "(" text || nohead (is_char ")") (rev text) = true ->
    baseText text = trim text.
Proof. exact baseText_bare. Qed.

Lemma baseText_plain_witness :
  baseText (str "  500/1000 ") = trim (str "  500/1000 ").
Proof.
  exact (baseText_plain (str "  500/1000 ") eq_refl eq_refl).
Defined.

(* ------------------------------------------------------------------ *)
(** * The parser behind the base text *)

Lemma digit_is_dot : forall c, is_digit c = true -> is_dot c = true.
Proof. intros c H. charclass H. Qed.

Lemma unit_is_dot : forall c, is_unit c = true -> is_dot c = true.
Proof. intros c H. charclass H. Qed.

Lemma digit_not_paren : forall c, is_digit c = true -> is_char "(" c = false.
Proof. intros c H. charclass H. Qed.

Lemma unit_not_paren : forall c, is_unit c = true -> is_char "(" c = false.
Proof. intros c H. charclass H. Qed.

Lemma forallb_impl : forall (p q : cu -> bool) l,
  (forall c, q c = true -> p c = true) ->
  forallb q l = true -> forallb p l = true.
Proof.
  intros p q l H. rewrite !forallb_forall. intros Hq x Hx. auto.
Qed.

Lemma number_text_forallb : forall (p : cu -> bool) i f,
  (forall c, is_digit c = true -> p c = true) -> p (ch ".") = true ->
  digits i = true -> fraction_ok f = true ->
  forallb p (number_text i f) = true.
Proof.
  intros p i f Hd Hp Hi Hf. unfold number_text. rewrite forallb_app.
  apply digits_forallb in Hi. rewrite (forallb_impl p is_digit i Hd Hi).
  destruct f as [d|]; [|reflexivity]. cbn [fraction_ok] in Hf.
  apply digits_forallb in Hf. cbn [forallb andb].
  rewrite Hp, (forallb_impl p is_digit d Hd Hf). reflexivity.
Qed.

Lemma population_text_forallb : forall (p : cu -> bool)
    i1 f1 w1 u1 w2 w3 i2 f2 w4 u2,
  (forall c, is_digit c = true -> p c = true) ->
  (forall c, is_unit c = true -> p c = true) ->
  p (ch ".") = true -> p (ch "/") = true ->
  digits i1 = true -> fraction_ok f1 = true -> unit_text u1 = true ->
  digits i2 = true -> fraction_ok f2 = true -> unit_text u2 = true ->
  forallb p w1 = true -> forallb p w2 = true -> forallb p w3 = true ->
  forallb p w4 = true ->
  forallb p (population_text i1 f1 w1 u1 w2 w3 i2 f2 w4 u2) = true.
Proof.
  intros p i1 f1 w1 u1 w2 w3 i2 f2 w4 u2 Hd Hu Hdot Hsl
         Hi1 Hf1 Hu1 Hi2 Hf2 Hu2 Hw1 Hw2 Hw3 Hw4.
  unfold population_text.
  repeat (rewrite ?forallb_app; cbn [forallb]).
  rewrite !number_text_forallb by assumption.
  rewrite (forallb_impl p is_unit u1 Hu (unit_text_forallb _ Hu1)).
  rewrite (forallb_impl p is_unit u2 Hu (unit_text_forallb _ Hu2)).
  rewrite Hw1, Hw2, Hw3, Hw4, Hsl. reflexivity.
Qed.

Lemma number_text_last : forall i f,
  digits i = true -> fraction_ok f = true ->
  exists l c, number_text i f = l ++ [c] /\ is_digit c = true.
Proof.
  intros i f Hi Hf.
  assert (Hlast : forall d, digits d = true ->
            exists l c, d = l ++ [c] /\ is_digit c = true).
  { intros d Hd. destruct d as [|x d]; [discriminate|].
    destruct (exists_last (l := x :: d)) as (l & c & E); [discriminate|].
    exists l, c. split; [exact E|].
    apply digits_forallb in Hd. rewrite E, forallb_app in Hd.
    apply andb_prop in Hd. destruct Hd as [_ Hd]. cbn in Hd.
    apply andb_prop in Hd. tauto. }
  unfold number_text. destruct f as [d|].
  - destruct (Hlast d Hf) as (l & c & -> & Hc).
    exists (i ++ ch "." :: l), c. rewrite <- app_assoc. auto.
  - destruct (Hlast i Hi) as (l & c & -> & Hc).
    exists l, c. rewrite app_nil_r. auto.
Qed.

Lemma population_text_end : forall i1 f1 w1 u1 w2 w3 i2 f2 u2,
  digits i2 = true -> fraction_ok f2 = true -> unit_text u2 = true ->
  nohead is_space
    (rev (population_text i1 f1 w1 u1 w2 w3 i2 f2 [] u2)) = true.
Proof.
  intros i1 f1 w1 u1 w2 w3 i2 f2 u2 Hi2 Hf2 Hu2.
  unfold population_text. cbn [app].
  destruct u2 as [|c [|c' u2]]; cbn [unit_text] in Hu2; [| |discriminate].
  - destruct (number_text_last i2 f2 Hi2 Hf2) as (l & c & -> & Hc).
    rewrite app_nil_r.
    replace (number_text i1 f1 ++ w1 ++ u1 ++ w2 ++ ch "/" :: w3 ++ l ++ [c])
      with ((number_text i1 f1 ++ w1 ++ u1 ++ w2 ++ ch "/" :: w3 ++ l) ++ [c]).
    + rewrite rev_unit. cbn. rewrite (digit_not_space c Hc). reflexivity.
    + repeat (rewrite <- ?app_assoc, <- ?app_comm_cons). reflexivity.
  - replace (number_text i1 f1 ++ w1 ++ u1 ++ w2 ++ ch "/" :: w3
               ++ number_text i2 f2 ++ [c])
      with ((number_text i1 f1 ++ w1 ++ u1 ++ w2 ++ ch "/" :: w3
               ++ number_text i2 f2) ++ [c]).
    + rewrite rev_unit. cbn. rewrite (unit_not_space c Hu2). reflexivity.
    + repeat (rewrite <- ?app_assoc, <- ?app_comm_cons). reflexivity.
Qed.

Lemma trimStart_nohead : forall s,
  nohead is_space s = true -> trimStart s = s.
Proof.
  intros [|c s] H; [reflexivity|]. cbn in *.
  apply negb_true_iff in H. rewrite H. reflexivity.
Qed.

Lemma trim_population_text : forall i1 f1 w1 u1 w2 w3 i2 f2 u2,
  digits i1 = true ->
  digits i2 = true -> fraction_ok f2 = true -> unit_text u2 = true ->
  trim (population_text i1 f1 w1 u1 w2 w3 i2 f2 [] u2)
  = population_text i1 f1 w1 u1 w2 w3 i2 f2 [] u2.
Proof.
  intros i1 f1 w1 u1 w2 w3 i2 f2 u2 Hi1 Hi2 Hf2 Hu2. unfold trim.
  assert (E : trimStart (population_text i1 f1 w1 u1 w2 w3 i2 f2 [] u2)
              = population_text i1 f1 w1 u1 w2 w3 i2 f2 [] u2).
  { unfold population_text, number_text. rewrite <- app_assoc.
    apply trimStart_digits. exact Hi1. }
  rewrite E, trimStart_nohead, rev_involutive;
    [reflexivity | apply population_text_end; assumption].
Qed.

(** X11. The parser reads a population text through a trailing
    annotation: on a population text without line terminator and
    without white space at its end, alone or followed by white space and
    an annotation in parentheses, [parse] returns the values of its
    numbers and units. *)
Theorem parse_ignores_annotation :
  forall pow i1 f1 w1 u1 w2 w3 i2 f2 u2 w a,
    digits i1 = true -> fraction_ok f1 = true -> spaces w1 = true ->
    unit_text u1 = true -> spaces w2 = true -> spaces w3 = true ->
    digits i2 = true -> fraction_ok f2 = true -> unit_text u2 = true ->
    forallb is_dot (w1 ++ w2 ++ w3) = true ->
    spaces w = true -> without ")" a = true ->
    parse pow (population_text i1 f1 w1 u1 w2 w3 i2 f2 [] u2)
    = Some (values_of pow i1 f1 u1 i2 f2 u2)
    /\ parse pow (population_text i1 f1 w1 u1 w2 w3 i2 f2 [] u2
                  ++ w ++ ch "(" :: a ++ [ch ")"])
       = Some (values_of pow i1 f1 u1 i2 f2 u2).
Proof.
  intros pow i1 f1 w1 u1 w2 w3 i2 f2 u2 w a
         Hi1 Hf1 Hw1 Hu1 Hw2 Hw3 Hi2 Hf2 Hu2 Hdots Hw Ha.
  rewrite !forallb_app in Hdots.
  apply andb_prop in Hdots. destruct Hdots as [Hd1 Hdots].
  apply andb_prop in Hdots. destruct Hdots as [Hd2 Hd3].
  set (P := population_text i1 f1 w1 u1 w2 w3 i2 f2 [] u2).
  assert (Hdot : forallb is_dot P = true).
  { apply population_text_forallb; auto using digit_is_dot, unit_is_dot. }
  assert (Hpar : without "(" P = true).
  { unfold without. apply population_text_forallb; auto.
    - intros c H. rewrite (digit_not_paren c H). reflexivity.
    - intros c H. rewrite (unit_not_paren c H). reflexivity.
    - apply (forallb_impl _ is_space); [|exact Hw1].
      intros c H. rewrite (space_not_paren c H). reflexivity.
    - apply (forallb_impl _ is_space); [|exact Hw2].
      intros c H. rewrite (space_not_paren c H). reflexivity.
    - apply (forallb_impl _ is_space); [|exact Hw3].
      intros c H. rewrite (space_not_paren c H). reflexivity. }
  assert (Hend : nohead is_space (rev P) = true).
  { apply population_text_end; assumption. }
  assert (Hparse : parsePopulationValues pow P
                   = Some (values_of pow i1 f1 u1 i2 f2 u2)).
  { pose proof (parse_population_text pow [] i1 f1 w1 u1 w2 w3 i2 f2 [] u2 []
                  eq_refl Hi1 Hf1 Hw1 Hu1 Hw2 Hw3 Hi2 Hf2 eq_refl Hu2
                  eq_refl) as H.
    cbn [app] in H. rewrite app_nil_r in H. exact H. }
  unfold parse. split.
  - rewrite baseText_bare; [| exact Hdot | rewrite Hpar; reflexivity].
    unfold P. rewrite trim_population_text by assumption. exact Hparse.
  - rewrite baseText_annotated by assumption.
    unfold P. rewrite trim_population_text by assumption. exact Hparse.
Qed.

Lemma parse_ignores_annotation_witness :
  parse pow_stand_in (str "50k / 10M")
  = Some (values_of pow_stand_in (str "50") None (str "k")
            (str "10") None (str "M"))
  /\ parse pow_stand_in (str "50k / 10M" ++ str "  " ++ ch "(" :: str "+12"
                           ++ [ch ")"])
     = Some (values_of pow_stand_in (str "50") None (str "k")
               (str "10") None (str "M")).
Proof.
  exact (parse_ignores_annotation pow_stand_in
           (str "50") None [] (str "k") (str " ") (str " ")
           (str "10") None (str "M") (str "  ") (str "+12")
           eq_refl eq_refl eq_refl eq_refl eq_refl eq_refl
           eq_refl eq_refl eq_refl eq_refl eq_refl eq_refl).
Defined.

(* ------------------------------------------------------------------ *)
(** * A unit after the second number *)

Lemma exec_population_unit_normal :
  forall inp i1 f1 w1 u1 w2 w3 i2 f2 w4 c rest,
    digits i1 = true -> fraction_ok f1 = true -> spaces w1 = true ->
    unit_text u1 = true -> spaces w2 = true -> spaces w3 = true ->
    digits i2 = true -> fraction_ok f2 = true -> spaces w4 = true ->
    is_unit c = true ->
    (u1 = [] -> w2 = []) ->
    exec population_re inp
      (population_text i1 f1 w1 u1 w2 w3 i2 f2 w4 [c] ++ rest) []
      (fun _ caps => Some caps)
    = Some [ (4%nat, [c]); (3%nat, number_text i2 f2);
             (2%nat, u1); (1%nat, number_text i1 f1) ].
Proof.
  intros inp i1 f1 w1 u1 w2 w3 i2 f2 w4 c rest
         Hi1 Hf1 Hw1 Hu1 Hw2 Hw3 Hi2 Hf2 Hw4 Hc Hnorm.
  assert (Hu2 : unit_text [c] = true) by exact Hc.
  assert (Hcd : nohead is_digit ([c] ++ rest) = true).
  { cbn. rewrite (unit_not_digit c Hc). reflexivity. }
  assert (Hcp : nohead (is_char ".") ([c] ++ rest) = true).
  { cbn. rewrite (unit_not_dot c Hc). reflexivity. }
  assert (Hcs : nohead is_space ([c] ++ rest) = true).
  { cbn. rewrite (unit_not_space c Hc). reflexivity. }
  rewrite population_text_assoc.
  unfold population_re. cbn [seq].
  rewrite exec_Seq, exec_Group.
  apply exec_number; [exact Hi1 | exact Hf1 | | |].
  { nohead_tac. }
  { nohead_tac. }
  rewrite consumed_app, exec_Seq.
  apply exec_spaces; [exact Hw1 | |].
  { destruct u1 as [|x u1].
    - rewrite (Hnorm eq_refl). reflexivity.
    - apply unit_text_forallb in Hu1. cbn in Hu1.
      apply andb_prop in Hu1. destruct Hu1 as [Hx _].
      cbn. rewrite (unit_not_space x Hx). reflexivity. }
  rewrite exec_Seq, exec_Group.
  apply exec_unit; [exact Hu1 | nohead_tac |].
  rewrite consumed_app, exec_Seq.
  apply exec_spaces; [exact Hw2 | reflexivity |].
  rewrite exec_Seq, exec_Class_cons by reflexivity.
  rewrite exec_Seq.
  apply exec_spaces; [exact Hw3 | nohead_tac |].
  rewrite exec_Seq, exec_Group.
  apply exec_number; [exact Hi2 | exact Hf2 | | |].
  { apply (nohead_app is_digit is_space w4);
      [exact Hw4 | exact space_not_digit | exact Hcd]. }
  { apply (nohead_app (is_char ".") is_space w4);
      [exact Hw4 | exact space_not_dot | exact Hcp]. }
  rewrite consumed_app, exec_Seq.
  apply exec_spaces; [exact Hw4 | exact Hcs |].
  rewrite exec_Group, exec_Opt.
  cbn [app]. rewrite exec_Class_cons by exact Hc.
  change (c :: rest) with ([c] ++ rest). rewrite consumed_app. reflexivity.
Qed.

(** X12. A letter [k], [m] or [b] that follows the second number, after
    optional white space, is taken as its unit whatever text comes after
    it: the values are those of the population text that ends with that
    letter. *)
Theorem unit_then_anything :
  forall pow pre i1 f1 w1 u1 w2 w3 i2 f2 w4 c rest,
    forallb (fun x => negb (is_digit x)) pre = true ->
    digits i1 = true -> fraction_ok f1 = true -> spaces w1 = true ->
    unit_text u1 = true -> spaces w2 = true -> spaces w3 = true ->
    digits i2 = true -> fraction_ok f2 = true -> spaces w4 = true ->
    is_unit c = true ->
    parsePopulationValues pow
      (pre ++ population_text i1 f1 w1 u1 w2 w3 i2 f2 w4 [c] ++ rest)
    = Some (values_of pow i1 f1 u1 i2 f2 [c]).
Proof.
  intros pow pre i1 f1 w1 u1 w2 w3 i2 f2 w4 c rest
         Hpre Hi1 Hf1 Hw1 Hu1 Hw2 Hw3 Hi2 Hf2 Hw4 Hc.
  assert (Hexec :
    exec population_re
      (pre ++ population_text i1 f1 w1 u1 w2 w3 i2 f2 w4 [c] ++ rest)
      (population_text i1 f1 w1 u1 w2 w3 i2 f2 w4 [c] ++ rest) []
      (fun _ caps => Some caps)
    = Some [ (4%nat, [c]); (3%nat, number_text i2 f2);
             (2%nat, u1); (1%nat, number_text i1 f1) ]).
  { destruct u1 as [|x u1].
    - replace (population_text i1 f1 w1 [] w2 w3 i2 f2 w4 [c])
        with (population_text i1 f1 (w1 ++ w2) [] [] w3 i2 f2 w4 [c]).
      + apply exec_population_unit_normal; auto using spaces_app.
      + unfold population_text. cbn [app]. rewrite <- !app_assoc.
        reflexivity.
    - apply exec_population_unit_normal; auto. discriminate. }
  unfold parsePopulationValues, re_match.
  rewrite (search_skip _ pre _ Hpre), (search_here _ _ _ _ Hexec).
  unfold match_at, values_of. cbn [group Nat.eqb].
  rewrite !parseFloat_number_text by assumption.
  rewrite (getMultiplier_unit_text u1 Hu1).
  rewrite (getMultiplier_unit_text [c] Hc).
  reflexivity.
Qed.

Lemma unit_then_anything_witness :
  parsePopulationValues pow_stand_in (str "500/1000 blah")
  = Some (values_of pow_stand_in (str "500") None []
            (str "1000") None (str "b")).
Proof.
  exact (unit_then_anything pow_stand_in [] (str "500") None [] [] [] []
           (str "1000") None (str " ") (ch "b") (str "lah")
           eq_refl eq_refl eq_refl eq_refl eq_refl eq_refl eq_refl
           eq_refl eq_refl eq_refl eq_refl).
Defined.

(* ------------------------------------------------------------------ *)
(** * The values the parser returns *)

Lemma of_decimal_signed : forall n k, signed false (of_decimal n k).
Proof.
  intros n k. unfold of_decimal. destruct n as [|p|p]; try reflexivity.
  unfold SFdiv_core_binary.
  set (m' := match _ - _ - _ with Z0 => Zpos p | Zpos _ => _ | Zneg _ => 0 end).
  assert (Hm' : 0 <= m').
  { unfold m'. destruct (_ - _ - _); [lia | apply Z.shiftl_nonneg; lia | lia]. }
  assert (Hten : 0 < 10 ^ Z.of_nat k) by (apply Z.pow_pos_nonneg; lia).
  pose proof (Z.div_pos m' _ Hm' Hten) as Hq.
  unfold Z.div in Hq. destruct (Z.div_eucl m' (10 ^ Z.of_nat k)) as [q r].
  cbn [fst] in Hq. apply binary_round_aux_signed. exact Hq.
Qed.

Lemma unit_multiplier_cases : forall u,
  unit_multiplier u = of_Z 1 \/ unit_multiplier u = of_Z 1000
  \/ unit_multiplier u = of_Z 1000000
  \/ unit_multiplier u = of_Z 1000000000.
Proof.
  intros u. unfold unit_multiplier.
  destruct (eqb u (str "k") || eqb u (str "K")); [auto|].
  destruct (eqb u (str "m") || eqb u (str "M")); [auto|].
  destruct (eqb u (str "b") || eqb u (str "B")); auto.
Qed.

Lemma fmul_finite_signed : forall x m e,
  signed false x -> signed false (fmul x (S754_finite false m e)).
Proof.
  intros [s|s| |s mx ex] m e H; cbn in H; try contradiction; subst;
    try reflexivity.
  unfold fmul, SFmul. apply binary_round_aux_signed. lia.
Qed.

Lemma scaled_signed : forall i f u,
  signed false (fmul (decimal_value i f) (unit_multiplier u)).
Proof.
  intros i f u. pose proof (of_decimal_signed
    (digits_val 0 (i ++ fraction_digits f)) (length (fraction_digits f))) as H.
  fold (decimal_value i f) in H.
  destruct (unit_multiplier_cases u) as [E|[E|[E|E]]]; rewrite E;
    apply fmul_finite_signed; exact H.
Qed.

Lemma fdiv_signed : forall c m,
  signed false c -> signed false m ->
  if (is_zero c && is_zero m) || (is_infinite c && is_infinite m)
  then fdiv c m = NaN
  else signed false (fdiv c m).
Proof.
  intros [sc|sc| |sc mc ec] [sm|sm| |sm mm em] Hc Hm; cbn in Hc, Hm;
    try contradiction; subst; try reflexivity.
  cbn [is_zero is_infinite andb orb].
  unfold fdiv, SFdiv, SFdiv_core_binary.
  set (m' := match _ - _ - _ with Z0 => Zpos mc | Zpos _ => _ | Zneg _ => 0 end).
  assert (Hm' : 0 <= m').
  { unfold m'. destruct (_ - _ - _); [lia | apply Z.shiftl_nonneg; lia | lia]. }
  pose proof (Z.div_pos m' (Zpos mm) Hm' ltac:(lia)) as Hq.
  unfold Z.div in Hq. destruct (Z.div_eucl m' (Zpos mm)) as [q r].
  cbn [fst] in Hq. apply binary_round_aux_signed. exact Hq.
Qed.

Lemma Math_round_signed : forall x,
  signed false x -> signed false (Math_round x).
Proof.
  intros [s|s| |s m e] H; cbn in H; try contradiction; subst;
    try reflexivity.
  unfold Math_round. destruct (0 <=? e) eqn:E; [reflexivity|].
  apply Z.leb_gt in E. cbn [cond_Zopp].
  assert (Hn : 0 <= (2 * Zpos m + 2 ^ (- e)) / 2 ^ (1 - e)).
  { apply Z.div_pos; [|apply Z.pow_pos_nonneg; lia].
    pose proof (Z.pow_pos_nonneg 2 (- e)). lia. }
  destruct ((2 * Zpos m + 2 ^ (- e)) / 2 ^ (1 - e)) as [|n|n];
    [reflexivity | | lia].
  unfold of_Z, binary_normalize, binary_round.
  destruct (shl_align _ _ _) as [mz ez].
  apply binary_round_aux_signed. lia.
Qed.

(** X13. The [current], the [maximum] and the [percentage] the parser
    returns are never negative, and [current] and [maximum] are never
    NaN; the percentage is NaN exactly when [current] and [maximum] are
    both zero or both infinite, and is otherwise not negative either.
    The growth multiplier is no part of this property. *)
Theorem parsed_values_signs :
  forall pow text r,
    parsePopulationValues pow text = Some r ->
    signed false (current r) /\ signed false (maximum r)
    /\ (if (is_zero (current r) && is_zero (maximum r))
           || (is_infinite (current r) && is_infinite (maximum r))
        then percentage r = NaN
        else signed false (percentage r)).
Proof.
  intros pow text r H.
  destruct (parse_sound pow text r H)
    as (pre & i1 & f1 & w1 & u1 & w2 & w3 & i2 & f2 & w4 & u2 & post & _ & _
        & _ & _ & _ & _ & _ & _ & _ & _ & _ & ->).
  unfold values_of. cbn [current maximum percentage].
  pose proof (scaled_signed i1 f1 u1) as Hc.
  pose proof (scaled_signed i2 f2 u2) as Hm.
  split; [exact Hc|]. split; [exact Hm|].
  pose proof (fdiv_signed _ _ Hc Hm) as Hd.
  destruct ((is_zero _ && is_zero _) || (is_infinite _ && is_infinite _)).
  - rewrite Hd. reflexivity.
  - apply Math_round_signed.
    change (of_Z 100) with (S754_finite false 7036874417766400 (-46)).
    apply fmul_finite_signed. exact Hd.
Qed.

Lemma parsed_values_signs_witness :
  let r := values_of pow_stand_in (str "0") None [] (str "0") None [] in
  signed false (current r) /\ signed false (maximum r)
  /\ (if (is_zero (current r) && is_zero (maximum r))
         || (is_infinite (current r) && is_infinite (maximum r))
      then percentage r = NaN
      else signed false (percentage r)).
Proof.
  exact (parsed_values_signs pow_stand_in (str "0/0")
           (values_of pow_stand_in (str "0") None [] (str "0") None [])
           eq_refl).
Defined.

(* ------------------------------------------------------------------ *)
(** * The multiplier of any string *)

Lemma eqb_single : forall x y, eqb [x] [y] = (x =? y)%N.
Proof.
  intros x y. unfold eqb.
  destruct (jsstring_eq_dec [x] [y]) as [E|E]; symmetry.
  - injection E as ->. apply N.eqb_refl.
  - apply N.eqb_neq. intros ->. apply E. reflexivity.
Qed.

Lemma eqb_longer : forall x y l z, eqb (x :: y :: l) [z] = false.
Proof.
  intros x y l z. unfold eqb.
  destruct (jsstring_eq_dec (x :: y :: l) [z]); [discriminate|reflexivity].
Qed.

Lemma eqb_nil_single : forall z, eqb [] [z] = false.
Proof. reflexivity. Qed.

(** X14. [getMultiplier] is the table of the units on every string: 1000,
    1000000 and 1000000000 for the one-letter strings [k], [m], [b] in
    either case, and 1 for every other string, the empty one and the
    longer ones included. *)
Theorem getMultiplier_table :
  forall u,
    getMultiplier u
    = if eqb u (str "k") || eqb u (str "K") then of_Z 1000
      else if eqb u (str "m") || eqb u (str "M") then of_Z 1000000
      else if eqb u (str "b") || eqb u (str "B") then of_Z 1000000000
      else of_Z 1.
Proof.
  intros [|c [|c' u]].
  - reflexivity.
  - unfold getMultiplier, toUpperCase. cbn [map str].
    rewrite !eqb_single. unfold upper_cu.
    change (ch "K") with 75%N. change (ch "k") with 107%N.
    change (ch "M") with 77%N. change (ch "m") with 109%N.
    change (ch "B") with 66%N. change (ch "b") with 98%N.
    destruct (N.eqb_spec c 107); [subst; reflexivity|].
    destruct (N.eqb_spec c 75); [subst; reflexivity|].
    destruct (N.eqb_spec c 109); [subst; reflexivity|].
    destruct (N.eqb_spec c 77); [subst; reflexivity|].
    destruct (N.eqb_spec c 98); [subst; reflexivity|].
    destruct (N.eqb_spec c 66); [subst; reflexivity|].
    cbn [orb].
    destruct ((97 <=? c) && (c <=? 122))%N eqn:E.
    + apply andb_prop in E. destruct E as [E1 E2].
      apply N.leb_le in E1, E2.
      replace (c - 32 =? 75)%N with false by (symmetry; apply N.eqb_neq; lia).
      replace (c - 32 =? 77)%N with false by (symmetry; apply N.eqb_neq; lia).
      replace (c - 32 =? 66)%N with false by (symmetry; apply N.eqb_neq; lia).
      reflexivity.
    + replace (c =? 75)%N with false by (symmetry; apply N.eqb_neq; lia).
      replace (c =? 77)%N with false by (symmetry; apply N.eqb_neq; lia).
      replace (c =? 66)%N with false by (symmetry; apply N.eqb_neq; lia).
      reflexivity.
  - unfold getMultiplier, toUpperCase. cbn [map str].
    rewrite !eqb_longer. reflexivity.
Qed.

(* ------------------------------------------------------------------ *)
(** * The display *)

Lemma removePercentNodes_filter : forall l,
  removePercentNodes l = filter (fun n => negb (has_percent n)) l.
Proof.
  induction l as [|n l IH]; [reflexivity|]. cbn.
  destruct (has_percent n); cbn; rewrite IH; reflexivity.
Qed.

Lemma insertMetrics_split : forall m l,
  exists l1 l2,
    l = l1 ++ l2 /\ insertMetrics m l = l1 ++ m :: l2
    /\ forallb (fun n => negb (is_span n)) l1 = true
    /\ match l2 with
       | [] => True
       | n :: _ => is_span n = true
       end.
Proof.
  intros m l. induction l as [|n l IH].
  - exists [], []. auto.
  - cbn [insertMetrics]. destruct (is_span n) eqn:E.
    + exists [], (n :: l). cbn. auto.
    + destruct IH as (l1 & l2 & -> & -> & H1 & H2).
      exists (n :: l1), l2. cbn. rewrite E, H1. auto.
Qed.

Lemma metrics_has_percent : forall n2s fx v,
  has_percent (TextNode (metricsText n2s fx v)) = true.
Proof.
  intros n2s fx v. unfold metricsText. cbn [has_percent].
  apply andb_true_intro. split; [reflexivity|].
  rewrite !existsb_app. cbn.
  rewrite orb_true_r. reflexivity.
Qed.

Lemma filter_removePercentNodes : forall l,
  filter has_percent (removePercentNodes l) = [].
Proof.
  induction l as [|n l IH]; [reflexivity|]. cbn.
  destruct (has_percent n) eqn:E; [exact IH|]. cbn. rewrite E. exact IH.
Qed.

(** X15. An update never piles up metrics: afterwards the population
    element holds exactly one text node with a percent sign, the new
    metrics, when its text could be parsed, and none when it could not;
    every other child node is kept, in its order. *)
Theorem refresh_replaces_metrics :
  forall pow numberToString toFixed2 childNodes,
    filter has_percent (refreshDisplay pow numberToString toFixed2 childNodes)
    = match parse pow (textContent_of childNodes) with
      | Some values =>
          [TextNode (metricsText numberToString toFixed2 values)]
      | None => []
      end
    /\ filter (fun n => negb (has_percent n))
         (refreshDisplay pow numberToString toFixed2 childNodes)
       = filter (fun n => negb (has_percent n)) childNodes.
Proof.
  intros pow n2s fx l. unfold refreshDisplay. cbv zeta.
  destruct (parse pow (textContent_of l)) as [v|].
  - destruct (insertMetrics_split (TextNode (metricsText n2s fx v))
                (removePercentNodes l)) as (l1 & l2 & E & -> & _ & _).
    pose proof (filter_removePercentNodes l) as Hf.
    rewrite E, filter_app in Hf. apply app_eq_nil in Hf.
    destruct Hf as [Hf1 Hf2].
    rewrite !filter_app. cbn [filter].
    rewrite metrics_has_percent, Hf1, Hf2. cbn [negb app].
    split; [reflexivity|].
    rewrite <- filter_app, <- E, removePercentNodes_filter.
    clear. induction l as [|n l IH]; [reflexivity|]. cbn.
    destruct (has_percent n) eqn:En; cbn; rewrite ?En; cbn; rewrite IH;
      reflexivity.
  - split; [apply filter_removePercentNodes|].
    rewrite removePercentNodes_filter.
    induction l as [|n l IH]; [reflexivity|]. cbn.
    destruct (has_percent n) eqn:En; cbn; rewrite ?En; cbn; rewrite IH;
      reflexivity.
Qed.

(** X16. The metrics stand right before the first [SPAN] child of the
    population element, and at the end when it has none: the child nodes
    after an update on a text that could be parsed are the remaining
    nodes up to that [SPAN], the metrics, and the remaining nodes from
    that [SPAN] on. *)
Theorem metrics_before_span :
  forall pow numberToString toFixed2 childNodes values,
    parse pow (textContent_of childNodes) = Some values ->
    exists before after,
      removePercentNodes childNodes = before ++ after
      /\ refreshDisplay pow numberToString toFixed2 childNodes
         = before
           ++ TextNode (metricsText numberToString toFixed2 values) :: after
      /\ forallb (fun n => negb (is_span n)) before = true
      /\ match after with
         | [] => True
         | n :: _ => is_span n = true
         end.
Proof.
  intros pow n2s fx l v H. unfold refreshDisplay. cbv zeta. rewrite H.
  destruct (insertMetrics_split (TextNode (metricsText n2s fx v))
              (removePercentNodes l)) as (l1 & l2 & E & E' & H1 & H2).
  exists l1, l2. auto.
Qed.

Lemma metrics_before_span_witness :
  exists before after,
    removePercentNodes
      [ TextNode (str "500 / 1000"); TextNode (str " pop: 49% g: 0.50");
        ElementNode (str "SPAN") (str "(+3)") ]
    = before ++ after
    /\ refreshDisplay pow_stand_in (fun _ => str "50") (fun _ => str "0.51")
         [ TextNode (str "500 / 1000"); TextNode (str " pop: 49% g: 0.50");
           ElementNode (str "SPAN") (str "(+3)") ]
       = before
         ++ TextNode (metricsText (fun _ => str "50") (fun _ => str "0.51")
                        (values_of pow_stand_in (str "500") None []
                           (str "1000") None []))
         :: after
    /\ forallb (fun n => negb (is_span n)) before = true
    /\ match after with
       | [] => True
       | n :: _ => is_span n = true
       end.
Proof.
  exact (metrics_before_span pow_stand_in (fun _ => str "50")
           (fun _ => str "0.51")
           [ TextNode (str "500 / 1000"); TextNode (str " pop: 49% g: 0.50");
             ElementNode (str "SPAN") (str "(+3)") ]
           (values_of pow_stand_in (str "500") None [] (str "1000") None [])
           eq_refl).
Defined.

(* ------------------------------------------------------------------ *)
(** * From the display to the storage area *)

Lemma parsed_current_signed : forall pow text r,
  parsePopulationValues pow text = Some r -> signed false (current r).
Proof.
  intros pow text r H.
  destruct (parse_sound pow text r H)
    as (pre & i1 & f1 & w1 & u1 & w2 & w3 & i2 & f2 & w4 & u2 & post & _ & _
        & _ & _ & _ & _ & _ & _ & _ & _ & _ & ->).
  apply scaled_signed.
Qed.

Lemma valid_tick_keeps : forall (P : number -> Prop) env pop g,
  P pop -> Forall P (recording g) ->
  Forall P (recording (fst (updateRecording env true pop g))).
Proof.
  intros P env pop g Hp Hg. destruct (switches env g) eqn:Hs.
  - rewrite update_switch by exact Hs. cbn [fst recording].
    destruct (now env >? 1000); auto.
  - destruct (update_same_fields env pop g Hs) as (_ & _ & -> & _).
    apply Forall_app. split; [exact Hg|].
    destruct (now env - lastRecorded g >? 1000); auto.
Qed.

Lemma polled_recording : forall pow g,
  polled pow g -> Forall (signed false) (recording g).
Proof.
  intros pow g H. induction H as [t | g env text H IH].
  - constructor.
  - unfold updatePopulationDisplay.
    destruct text as [textContent|];
      [destruct (parse pow textContent) as [v|] eqn:E|].
    + apply valid_tick_keeps; [|exact IH].
      apply (parsed_current_signed pow (baseText textContent)). exact E.
    + rewrite update_invalid. constructor.
    + rewrite update_invalid. constructor.
Qed.

(** X17. No sample the polling of the display records is NaN or
    negative, and no write it causes holds such a sample: whatever the
    texts the display shows, the buffer and the values written hold
    numbers of sign plus only. *)
Theorem polled_samples_signed :
  forall pow g env text,
    polled pow g ->
    Forall (signed false) (recording g)
    /\ forall w,
         In w (snd (updatePopulationDisplay pow env text g)) ->
         Forall (signed false) (value_recording w).
Proof.
  intros pow g env text H.
  pose proof (polled_recording pow g H) as Hg.
  split; [exact Hg|].
  pose proof (polled_recording pow _ (polled_tick pow g env text H)) as Hg'.
  intros w Hw. unfold updatePopulationDisplay in *.
  destruct text as [textContent|];
    [destruct (parse pow textContent) as [v|]|];
    (destruct (write_snapshot _ _ _ _ _ Hw) as [[_ ->]|[_ ->]];
     [exact Hg | exact Hg']).
Qed.

Lemma polled_samples_signed_witness :
  Forall (signed false) (recording (initial t0))
  /\ forall w,
       In w (snd (updatePopulationDisplay pow_stand_in (at_game "A" t0)
                    (Some (str "50k / 10M")) (initial t0))) ->
       Forall (signed false) (value_recording w).
Proof.
  exact (polled_samples_signed pow_stand_in (initial t0) (at_game "A" t0)
           (Some (str "50k / 10M")) (polled_initial pow_stand_in t0)).
Defined.

(* ------------------------------------------------------------------ *)
(** * The base text and the leftmost match *)

(** The lazy star stops at the first length at which what follows
    succeeds. *)
Lemma star_lazy_shortest : forall (A : Type) p (k : jsstring -> option A) s a,
  star_lazy p s k = Some a ->
  exists s1 s2, s = s1 ++ s2 /\ forallb p s1 = true /\ k s2 = Some a
    /\ forall a1 a2, s1 = a1 ++ a2 -> a2 <> [] -> k (a2 ++ s2) = None.
Proof.
  intros A p k s a. induction s as [|c s IH]; cbn [star_lazy]; intros H.
  - exists [], []. destruct (k []) eqn:E; [|discriminate].
    repeat split; auto.
    intros a1 a2 E' Hne. symmetry in E'. apply app_eq_nil in E'.
    destruct E' as [_ ->]. contradiction.
  - destruct (k (c :: s)) as [b|] eqn:E.
    + exists [], (c :: s). rewrite E. repeat split; auto.
      intros a1 a2 E' Hne. symmetry in E'. apply app_eq_nil in E'.
      destruct E' as [_ ->]. contradiction.
    + destruct (p c) eqn:Hc; [|discriminate].
      destruct (IH H) as (s1 & s2 & -> & H1 & H2 & H3).
      exists (c :: s1), s2. cbn. rewrite Hc, H1. repeat split; auto.
      intros [|x a1] a2 E' Hne; cbn [app] in E'.
      * subst a2. exact E.
      * injection E' as <- ->. apply (H3 a1 a2 eq_refl Hne).
Qed.

Lemma search_unfold : forall r inp s,
  search r inp s
  = match exec r inp s [] (fun _ caps => Some caps) with
    | Some c => Some c
    | None =>
        match s with
        | [] => None
        | _ :: s' => search r inp s'
        end
    end.
Proof. intros r inp [|c s]; reflexivity. Qed.

(** [^] holds at the start of the text only. *)
Lemma search_base_inside : forall inp s,
  (length s < length inp)%nat -> search base_re inp s = None.
Proof.
  intros inp s. induction s as [|c s IH]; intros H;
    rewrite search_unfold; unfold base_re; cbn [seq];
    rewrite exec_Seq, exec_Bol;
    replace (Nat.eqb _ (length inp)) with false
      by (symmetry; apply Nat.eqb_neq; lia).
  - reflexivity.
  - apply IH. cbn [length] in H. lia.
Qed.

Lemma re_match_base : forall text,
  match re_match base_re text with
  | Some m =>
      exists b, m = [(1%nat, b)] /\ cuts text b
                /\ forall b', cuts text b' -> (length b <= length b')%nat
  | None => forall b, ~ cuts text b
  end.
Proof.
  intros text. unfold re_match. rewrite search_unfold.
  unfold base_re at 1. cbn [seq].
  change (seq [ Star is_space; Class (is_char "(");
                Star (fun c => negb (is_char ")" c)); Class (is_char ")") ])
    with annotation_re.
  rewrite exec_Seq, exec_Bol, Nat.eqb_refl.
  rewrite exec_Seq, exec_Group, exec_LazyStar.
  match goal with
  | |- match match ?e with _ => _ end with _ => _ end =>
      destruct e as [m|] eqn:E
  end.
  - apply star_lazy_shortest in E.
    destruct E as (s1 & s2 & -> & H1 & H2 & H3).
    destruct (exec_tail_sound _ _ _ _ H2) as [-> Ht].
    rewrite consumed_app. exists s1. split; [reflexivity|]. split.
    + split; [exact H1|]. exists s2. auto.
    + intros b' [Hb' (tail' & E' & Ht')].
      destruct (Nat.le_gt_cases (length s1) (length b')) as [Hle|Hlt];
        [exact Hle|exfalso].
      apply app_eq_app in E'. destruct E' as (l & [[-> ->]|[-> ->]]).
      * assert (Hl : l <> []).
        { intros ->. rewrite app_nil_r in Hlt. lia. }
        pose proof (H3 b' l eq_refl Hl) as Hn.
        rewrite (exec_tail_complete _ _ _ Ht') in Hn. discriminate.
      * rewrite length_app in Hlt. lia.
  - assert (Hrest : match text with
                    | [] => None
                    | _ :: s' => search base_re text s'
                    end = None).
    { destruct text as [|c s]; [reflexivity|].
      apply search_base_inside. cbn. lia. }
    rewrite Hrest. intros b [Hb (tail & -> & Ht)].
    revert E. apply star_lazy_lang. exists b, tail.
    repeat split; auto.
    rewrite (exec_tail_complete _ _ _ Ht). discriminate.
Qed.

Lemma baseText_cases : forall text,
  (exists b, cuts text b
             /\ (forall b', cuts text b' -> (length b <= length b')%nat)
             /\ baseText text = trim b)
  \/ ((forall b, ~ cuts text b) /\ baseText text = text).
Proof.
  intros text. unfold baseText. pose proof (re_match_base text) as H.
  destruct (re_match base_re text) as [m|].
  - left. destruct H as (b & -> & Hc & Hmin). exists b. auto.
  - right. auto.
Qed.

(** A search returns the match at the first start index at which the
    expression matches. *)
Lemma search_leftmost : forall r, anchor_free r = true ->
  forall inp s m,
    search r inp s = Some m ->
    exists pre core post,
      s = pre ++ core ++ post /\ captured r core [] m
      /\ forall p1 p2, s = p1 ++ p2 -> (length p1 < length pre)%nat ->
         forall c1 c2, p2 = c1 ++ c2 -> ~ lang r c1.
Proof.
  intros r Haf inp s m.
  assert (Hexec : forall s,
            exec r inp s [] (fun _ caps => Some caps) <> None <->
            exists s1 s2, s = s1 ++ s2 /\ lang r s1 /\ True).
  { intros s0. apply (exec_lang r Haf). intros s' c.
    split; [auto | discriminate]. }
  induction s as [|c s IH]; rewrite search_unfold; intros H.
  - destruct (exec r inp [] [] _) as [b|] eqn:E; [|discriminate].
    injection H as ->.
    destruct (exec_sound r Haf _ _ _ _ _ _ E) as (s1 & s2 & c1 & E1 & H1 & H2).
    injection H2 as ->. exists [], s1, s2. repeat split; auto.
    intros p1 p2 _ Hl. cbn in Hl. lia.
  - destruct (exec r inp (c :: s) [] _) as [b|] eqn:E.
    + injection H as ->.
      destruct (exec_sound r Haf _ _ _ _ _ _ E)
        as (s1 & s2 & c1 & E1 & H1 & H2).
      injection H2 as ->. exists [], s1, s2. repeat split; auto.
      intros p1 p2 _ Hl. cbn in Hl. lia.
    + destruct (IH H) as (pre & core & post & -> & H1 & Hleft).
      exists (c :: pre), core, post. repeat split; auto.
      intros [|x p1] p2 E' Hl c1 c2 -> L; cbn [app] in E'.
      * apply (proj2 (Hexec (c :: pre ++ core ++ post))); [|exact E].
        exists c1, c2. auto.
      * injection E' as <- E'. cbn [length] in Hl.
        apply (Hleft p1 (c1 ++ c2) E' ltac:(lia) c1 c2 eq_refl L).
Qed.

Lemma parse_leftmost : forall pow text r,
  parsePopulationValues pow text = Some r ->
  exists pre i1 f1 w1 u1 w2 w3 i2 f2 w4 u2 post,
    text = pre ++ population_text i1 f1 w1 u1 w2 w3 i2 f2 w4 u2 ++ post
    /\ digits i1 = true /\ fraction_ok f1 = true /\ spaces w1 = true
    /\ unit_text u1 = true /\ spaces w2 = true /\ spaces w3 = true
    /\ digits i2 = true /\ fraction_ok f2 = true /\ spaces w4 = true
    /\ unit_text u2 = true
    /\ r = values_of pow i1 f1 u1 i2 f2 u2
    /\ forall p1 p2, text = p1 ++ p2 -> (length p1 < length pre)%nat ->
       forall c1 c2, p2 = c1 ++ c2 -> ~ has_shape c1.
Proof.
  intros pow text r. unfold parsePopulationValues, re_match.
  destruct (search population_re text text) as [m|] eqn:E; [|discriminate].
  intros H. injection H as <-.
  destruct (search_leftmost population_re eq_refl _ _ _ E)
    as (pre & core & post & -> & Hc & Hleft).
  destruct (captured_population _ _ Hc)
    as (i1 & f1 & w1 & u1 & w2 & w3 & i2 & f2 & w4 & u2 & -> & -> & Hi1 & Hf1
        & Hw1 & Hu1 & Hw2 & Hw3 & Hi2 & Hf2 & Hw4 & Hu2).
  exists pre, i1, f1, w1, u1, w2, w3, i2, f2, w4, u2, post.
  repeat (split; [first [reflexivity | assumption]|]).
  split.
  - unfold match_at, values_of. cbn [group Nat.eqb].
    rewrite !parseFloat_number_text, !getMultiplier_unit_text by assumption.
    reflexivity.
  - intros p1 p2 E' Hl c1 c2 E2 Hs.
    apply (Hleft p1 p2 E' Hl c1 c2 E2). apply lang_population. exact Hs.
Qed.

(** The match on a population text that nothing prolongs. *)
Lemma no_fraction_head : forall s,
  nohead (is_char ".") s = true -> no_fraction_follows s = true.
Proof.
  intros [|c [|d s]] H; try reflexivity.
  cbn in *. apply negb_true_iff in H. rewrite H. reflexivity.
Qed.

Lemma exec_number_greedy : forall (A : Type) inp i f s caps
    (k : jsstring -> captures -> option A) x,
  digits i = true -> fraction_ok f = true ->
  nohead is_digit s = true ->
  (f = None -> no_fraction_follows s = true) ->
  k s caps = Some x ->
  exec number_re inp (number_text i f ++ s) caps k = Some x.
Proof.
  intros A inp i f s caps k x Hi Hf Hd Hp Hk.
  unfold number_re, number_text. rewrite <- app_assoc, exec_Seq.
  apply (exec_plus_run _ is_digit inp i); [exact Hi | |].
  - destruct f as [d|]; [reflexivity | exact Hd].
  - rewrite exec_Opt, exec_Seq.
    destruct f as [d|]; cbn [fraction_ok] in Hf; cbn [app].
    + rewrite exec_Class_cons by reflexivity.
      rewrite (exec_plus_run _ is_digit inp d s caps k x Hf Hd Hk).
      reflexivity.
    + specialize (Hp eq_refl).
      replace (exec (Class (is_char ".")) inp s caps
                 (fun s1 caps1 => exec (Plus is_digit) inp s1 caps1 k))
        with (@None A); [exact Hk|].
      destruct s as [|c [|d s]]; cbn [exec]; try reflexivity.
      * destruct (is_char "." c); reflexivity.
      * cbn in Hp. destruct (is_char "." c); [|reflexivity].
        cbn in Hp. apply negb_true_iff in Hp. rewrite Hp. reflexivity.
Qed.

Lemma exec_tail_greedy : forall inp i2 f2 w4 u2 rest caps,
  digits i2 = true -> fraction_ok f2 = true -> spaces w4 = true ->
  unit_text u2 = true -> greedy_end f2 w4 u2 rest = true ->
  exec (seq [ Group 3 number_re; Star is_space;
              Group 4 (Opt (Class is_unit)) ])
    inp (number_text i2 f2 ++ w4 ++ u2 ++ rest) caps
    (fun _ c => Some c)
  = Some ((4%nat, u2) :: (3%nat, number_text i2 f2) :: caps).
Proof.
  intros inp i2 f2 w4 u2 rest caps Hi2 Hf2 Hw4 Hu2 Hg.
  cbn [seq]. rewrite exec_Seq, exec_Group.
  assert (Hsp : nohead is_space (u2 ++ rest) = true).
  { destruct u2 as [|c [|c' u2]]; cbn [unit_text] in Hu2;
      [| |discriminate]; cbn [app].
    - cbn [greedy_end] in Hg. apply andb_prop in Hg. destruct Hg as [Hg _].
      apply andb_prop in Hg. tauto.
    - cbn. rewrite (unit_not_space c Hu2). reflexivity. }
  assert (Hun : u2 = [] -> nohead is_unit rest = true).
  { intros ->. cbn [greedy_end] in Hg. apply andb_prop in Hg.
    destruct Hg as [Hg _]. apply andb_prop in Hg. tauto. }
  assert (Hdig : nohead is_digit (w4 ++ u2 ++ rest) = true).
  { destruct w4 as [|x w4]; cbn [app].
    - destruct u2 as [|c [|c' u2]]; cbn [unit_text] in Hu2;
        [| |discriminate]; cbn [app].
      + cbn [greedy_end] in Hg. apply andb_prop in Hg. destruct Hg as [_ Hg].
        apply andb_prop in Hg. tauto.
      + cbn. rewrite (unit_not_digit c Hu2). reflexivity.
    - cbn in Hw4. apply andb_prop in Hw4. destruct Hw4 as [Hx _].
      cbn. rewrite (space_not_digit x Hx). reflexivity. }
  assert (Hfr : f2 = None -> no_fraction_follows (w4 ++ u2 ++ rest) = true).
  { intros ->. destruct w4 as [|x w4]; cbn [app].
    - destruct u2 as [|c [|c' u2]]; cbn [unit_text] in Hu2;
        [| |discriminate]; cbn [app].
      + cbn [greedy_end] in Hg. apply andb_prop in Hg. destruct Hg as [_ Hg].
        apply andb_prop in Hg. tauto.
      + apply no_fraction_head. cbn. rewrite (unit_not_dot c Hu2).
        reflexivity.
    - cbn in Hw4. apply andb_prop in Hw4. destruct Hw4 as [Hx _].
      apply no_fraction_head. cbn. rewrite (space_not_dot x Hx).
      reflexivity. }
  apply exec_number_greedy; [exact Hi2 | exact Hf2 | exact Hdig | exact Hfr |].
  rewrite consumed_app, exec_Seq.
  apply exec_spaces; [exact Hw4 | exact Hsp |].
  rewrite exec_Group.
  destruct u2 as [|c [|c' u2]]; cbn [unit_text] in Hu2; [| |discriminate].
  - apply exec_unit; [reflexivity | exact (Hun eq_refl) |].
    rewrite consumed_app. reflexivity.
  - cbn [app]. rewrite exec_Opt, exec_Class_cons by exact Hu2.
    change (c :: rest) with ([c] ++ rest). rewrite consumed_app.
    reflexivity.
Qed.

Lemma exec_population_greedy_normal :
  forall inp i1 f1 w1 u1 w2 w3 i2 f2 w4 u2 rest,
    digits i1 = true -> fraction_ok f1 = true -> spaces w1 = true ->
    unit_text u1 = true -> spaces w2 = true -> spaces w3 = true ->
    digits i2 = true -> fraction_ok f2 = true -> spaces w4 = true ->
    unit_text u2 = true -> greedy_end f2 w4 u2 rest = true ->
    (u1 = [] -> w2 = []) ->
    exec population_re inp
      (population_text i1 f1 w1 u1 w2 w3 i2 f2 w4 u2 ++ rest) []
      (fun _ caps => Some caps)
    = Some [ (4%nat, u2); (3%nat, number_text i2 f2);
             (2%nat, u1); (1%nat, number_text i1 f1) ].
Proof.
  intros inp i1 f1 w1 u1 w2 w3 i2 f2 w4 u2 rest
         Hi1 Hf1 Hw1 Hu1 Hw2 Hw3 Hi2 Hf2 Hw4 Hu2 Hg Hnorm.
  rewrite population_text_assoc.
  unfold population_re. cbn [seq].
  rewrite exec_Seq, exec_Group.
  apply exec_number; [exact Hi1 | exact Hf1 | | |].
  { nohead_tac. }
  { nohead_tac. }
  rewrite consumed_app, exec_Seq.
  apply exec_spaces; [exact Hw1 | |].
  { destruct u1 as [|c u1].
    - rewrite (Hnorm eq_refl). reflexivity.
    - apply unit_text_forallb in Hu1. cbn in Hu1.
      apply andb_prop in Hu1. destruct Hu1 as [Hc _].
      cbn. rewrite (unit_not_space c Hc). reflexivity. }
  rewrite exec_Seq, exec_Group.
  apply exec_unit; [exact Hu1 | nohead_tac |].
  rewrite consumed_app, exec_Seq.
  apply exec_spaces; [exact Hw2 | reflexivity |].
  rewrite exec_Seq, exec_Class_cons by reflexivity.
  rewrite exec_Seq.
  apply exec_spaces; [exact Hw3 | nohead_tac |].
  apply (exec_tail_greedy inp i2 f2 w4 u2 rest); assumption.
Qed.

Lemma exec_population_greedy :
  forall inp i1 f1 w1 u1 w2 w3 i2 f2 w4 u2 rest,
    digits i1 = true -> fraction_ok f1 = true -> spaces w1 = true ->
    unit_text u1 = true -> spaces w2 = true -> spaces w3 = true ->
    digits i2 = true -> fraction_ok f2 = true -> spaces w4 = true ->
    unit_text u2 = true -> greedy_end f2 w4 u2 rest = true ->
    exec population_re inp
      (population_text i1 f1 w1 u1 w2 w3 i2 f2 w4 u2 ++ rest) []
      (fun _ caps => Some caps)
    = Some [ (4%nat, u2); (3%nat, number_text i2 f2);
             (2%nat, u1); (1%nat, number_text i1 f1) ].
Proof.
  intros inp i1 f1 w1 u1 w2 w3 i2 f2 w4 u2 rest
         Hi1 Hf1 Hw1 Hu1 Hw2 Hw3 Hi2 Hf2 Hw4 Hu2 Hg.
  destruct u1 as [|c u1].
  - replace (population_text i1 f1 w1 [] w2 w3 i2 f2 w4 u2)
      with (population_text i1 f1 (w1 ++ w2) [] [] w3 i2 f2 w4 u2).
    + apply exec_population_greedy_normal; auto using spaces_app.
    + unfold population_text. cbn [app]. rewrite <- !app_assoc. reflexivity.
  - apply exec_population_greedy_normal; auto. discriminate.
Qed.

Lemma search_skip_leftmost : forall r, anchor_free r = true ->
  forall inp pre s,
    (forall p1 p2, pre ++ s = p1 ++ p2 -> (length p1 < length pre)%nat ->
       forall c1 c2, p2 = c1 ++ c2 -> ~ lang r c1) ->
    search r inp (pre ++ s) = search r inp s.
Proof.
  intros r Haf inp pre s. induction pre as [|c pre IH]; intros H;
    [reflexivity|].
  cbn [app]. rewrite search_unfold.
  destruct (exec r inp (c :: pre ++ s) [] (fun _ caps => Some caps))
    as [m|] eqn:E.
  - exfalso.
    assert (Hne : exec r inp (c :: pre ++ s) [] (fun _ caps => Some caps)
                  <> None) by (rewrite E; discriminate).
    apply (exec_lang r Haf _ inp _ [] _ (fun _ => True)) in Hne.
    + destruct Hne as (s1 & s2 & E' & L & _).
      apply (H [] (c :: pre ++ s) eq_refl ltac:(cbn; lia) s1 s2 E' L).
    + intros s' c0. split; [auto | discriminate].
  - apply IH. intros p1 p2 E' Hl c1 c2 E2 L.
    assert (E3 : (c :: pre) ++ s = (c :: p1) ++ p2)
      by (cbn [app]; rewrite E'; reflexivity).
    assert (Hl3 : (length (c :: p1) < length (c :: pre))%nat)
      by (cbn [length]; lia).
    exact (H (c :: p1) p2 E3 Hl3 c1 c2 E2 L).
Qed.

Lemma leftmost_lang : forall pre s,
  leftmost (pre ++ s) pre ->
  forall p1 p2, pre ++ s = p1 ++ p2 -> (length p1 < length pre)%nat ->
  forall c1 c2, p2 = c1 ++ c2 -> ~ lang population_re c1.
Proof.
  intros pre s H p1 p2 E Hl c1 c2 E2 L.
  apply (H p1 p2 E Hl c1 c2 E2). apply lang_population. exact L.
Qed.

Lemma parse_population_greedy :
  forall pow pre i1 f1 w1 u1 w2 w3 i2 f2 w4 u2 rest,
    leftmost (pre ++ population_text i1 f1 w1 u1 w2 w3 i2 f2 w4 u2 ++ rest)
      pre ->
    digits i1 = true -> fraction_ok f1 = true -> spaces w1 = true ->
    unit_text u1 = true -> spaces w2 = true -> spaces w3 = true ->
    digits i2 = true -> fraction_ok f2 = true -> spaces w4 = true ->
    unit_text u2 = true -> greedy_end f2 w4 u2 rest = true ->
    parsePopulationValues pow
      (pre ++ population_text i1 f1 w1 u1 w2 w3 i2 f2 w4 u2 ++ rest)
    = Some (values_of pow i1 f1 u1 i2 f2 u2).
Proof.
  intros pow pre i1 f1 w1 u1 w2 w3 i2 f2 w4 u2 rest
         Hpre Hi1 Hf1 Hw1 Hu1 Hw2 Hw3 Hi2 Hf2 Hw4 Hu2 Hrest.
  unfold parsePopulationValues, re_match.
  rewrite (search_skip_leftmost population_re eq_refl _ pre _
             (leftmost_lang _ _ Hpre)).
  rewrite (search_here _ _ _ _
             (exec_population_greedy _ i1 f1 w1 u1 w2 w3 i2 f2 w4 u2 rest
                Hi1 Hf1 Hw1 Hu1 Hw2 Hw3 Hi2 Hf2 Hw4 Hu2 Hrest)).
  unfold match_at. cbn [group Nat.eqb].
  rewrite !parseFloat_number_text, !getMultiplier_unit_text by assumption.
  reflexivity.
Qed.

Lemma digits_snoc : forall i c,
  digits i = true -> is_digit c = true -> digits (i ++ [c]) = true.
Proof.
  intros i c Hi Hc. unfold digits in *.
  apply andb_prop in Hi. destruct Hi as [Hn Hi].
  rewrite forallb_app, Hi. cbn. rewrite Hc.
  destruct i; [discriminate|reflexivity].
Qed.

Lemma greedy_extension : forall n post i2 f2 w4 u2,
  (length post <= n)%nat ->
  digits i2 = true -> fraction_ok f2 = true -> spaces w4 = true ->
  unit_text u2 = true ->
  exists i2' f2' w4' u2' post',
    number_text i2 f2 ++ w4 ++ u2 ++ post
    = number_text i2' f2' ++ w4' ++ u2' ++ post'
    /\ digits i2' = true /\ fraction_ok f2' = true /\ spaces w4' = true
    /\ unit_text u2' = true
    /\ greedy_end f2' w4' u2' post' = true.
Proof.
  induction n as [n IH] using lt_wf_ind.
  intros post i2 f2 w4 u2 Hn Hi2 Hf2 Hw4 Hu2.
  destruct (greedy_end f2 w4 u2 post) eqn:Hg.
  { exists i2, f2, w4, u2, post. auto 10. }
  destruct u2 as [|c u2]; [|discriminate].
  destruct post as [|x post].
  { exfalso. destruct w4, f2; discriminate. }
  cbn [length] in Hn. cbn [app].
  destruct (is_unit x) eqn:Hux.
  { exists i2, f2, w4, [x], post. cbn [unit_text greedy_end app].
    auto 10. }
  destruct (is_space x) eqn:Hsx.
  { assert (Hx : spaces [x] = true)
      by (unfold spaces; cbn [forallb]; rewrite Hsx; reflexivity).
    destruct (IH (length post) ltac:(lia) post i2 f2 (w4 ++ [x]) []
               (Nat.le_refl _) Hi2 Hf2 (spaces_app _ _ Hw4 Hx) eq_refl)
      as (i2' & f2' & w4' & u2' & post' & E & H).
    exists i2', f2', w4', u2', post'. split; [|exact H].
    rewrite <- E. cbn [app]. rewrite <- !app_assoc. reflexivity. }
  destruct w4 as [|y w4].
  2:{ exfalso. cbn [greedy_end nohead] in Hg. rewrite Hux, Hsx in Hg.
      discriminate. }
  cbn [app].
  destruct (is_digit x) eqn:Hdx.
  { destruct f2 as [d|].
    - destruct (IH (length post) ltac:(lia) post i2 (Some (d ++ [x])) [] []
                 (Nat.le_refl _) Hi2 (digits_snoc d x Hf2 Hdx)
                 eq_refl eq_refl)
        as (i2' & f2' & w4' & u2' & post' & E & H).
      exists i2', f2', w4', u2', post'. split; [|exact H].
      rewrite <- E. unfold number_text. cbn [app].
      rewrite <- !app_assoc. cbn [app]. rewrite <- !app_assoc. reflexivity.
    - destruct (IH (length post) ltac:(lia) post (i2 ++ [x]) None [] []
                 (Nat.le_refl _) (digits_snoc i2 x Hi2 Hdx) eq_refl
                 eq_refl eq_refl)
        as (i2' & f2' & w4' & u2' & post' & E & H).
      exists i2', f2', w4', u2', post'. split; [|exact H].
      rewrite <- E. unfold number_text. cbn [app].
      rewrite <- !app_assoc. reflexivity. }
  destruct f2 as [d|].
  { exfalso. cbn [greedy_end nohead] in Hg. rewrite Hux, Hsx, Hdx in Hg.
    discriminate. }
  cbn [greedy_end nohead] in Hg. rewrite Hux, Hsx, Hdx in Hg.
  cbn [negb andb] in Hg.
  destruct post as [|d post]; [discriminate|].
  cbn [no_fraction_follows] in Hg.
  apply negb_false_iff in Hg. apply andb_prop in Hg. destruct Hg as [Hx Hd].
  apply is_char_eq in Hx. subst x.
  cbn [length] in Hn.
  assert (Hfd : fraction_ok (Some [d]) = true)
    by (unfold fraction_ok, digits; cbn [nonempty forallb];
        rewrite Hd; reflexivity).
  destruct (IH (length post) ltac:(lia) post i2 (Some [d]) [] []
              (Nat.le_refl _) Hi2 Hfd eq_refl eq_refl)
    as (i2' & f2' & w4' & u2' & post' & E & H).
  exists i2', f2', w4', u2', post'. split; [|exact H].
  rewrite <- E. unfold number_text. cbn [app].
  rewrite <- !app_assoc. reflexivity.
Qed.

(** The parser, exactly: the values of the leftmost population text,
    taken as far as it goes. *)
Lemma parse_characterised : forall pow text r,
  parsePopulationValues pow text = Some r <->
  exists pre i1 f1 w1 u1 w2 w3 i2 f2 w4 u2 post,
    text = pre ++ population_text i1 f1 w1 u1 w2 w3 i2 f2 w4 u2 ++ post
    /\ leftmost text pre
    /\ digits i1 = true /\ fraction_ok f1 = true /\ spaces w1 = true
    /\ unit_text u1 = true /\ spaces w2 = true /\ spaces w3 = true
    /\ digits i2 = true /\ fraction_ok f2 = true /\ spaces w4 = true
    /\ unit_text u2 = true
    /\ greedy_end f2 w4 u2 post = true
    /\ r = values_of pow i1 f1 u1 i2 f2 u2.
Proof.
  intros pow text r. split.
  - intros H.
    destruct (parse_leftmost pow text r H)
      as (pre & i1 & f1 & w1 & u1 & w2 & w3 & i2 & f2 & w4 & u2 & post
          & E & Hi1 & Hf1 & Hw1 & Hu1 & Hw2 & Hw3 & Hi2 & Hf2 & Hw4 & Hu2
          & _ & Hleft).
    destruct (greedy_extension (length post) post i2 f2 w4 u2
                (Nat.le_refl _) Hi2 Hf2 Hw4 Hu2)
      as (i2' & f2' & w4' & u2' & post' & E' & Hi2' & Hf2' & Hw4' & Hu2'
          & Hg).
    assert (Et : text
                 = pre ++ population_text i1 f1 w1 u1 w2 w3 i2' f2' w4' u2'
                     ++ post').
    { rewrite E, !population_text_assoc.
      repeat (apply f_equal || apply (f_equal (cons (ch "/")))).
      exact E'. }
    exists pre, i1, f1, w1, u1, w2, w3, i2', f2', w4', u2', post'.
    split; [exact Et|]. split; [exact Hleft|].
    repeat (split; [assumption|]).
    assert (Hl : leftmost
                   (pre ++ population_text i1 f1 w1 u1 w2 w3 i2' f2' w4' u2'
                      ++ post') pre)
      by (rewrite <- Et; exact Hleft).
    pose proof (parse_population_greedy pow pre i1 f1 w1 u1 w2 w3
                  i2' f2' w4' u2' post' Hl Hi1 Hf1 Hw1 Hu1 Hw2 Hw3
                  Hi2' Hf2' Hw4' Hu2' Hg) as Hp.
    rewrite <- Et, H in Hp. injection Hp as ->. reflexivity.
  - intros (pre & i1 & f1 & w1 & u1 & w2 & w3 & i2 & f2 & w4 & u2 & post
            & -> & Hleft & Hi1 & Hf1 & Hw1 & Hu1 & Hw2 & Hw3 & Hi2 & Hf2
            & Hw4 & Hu2 & Hg & ->).
    apply parse_population_greedy; assumption.
Qed.

(** C7 (as amended). The parser never fails otherwise than by returning
    no values.  Its base text is the text cut at the earliest point
    before which no line terminator stands and after which nothing or
    one trailing annotation [( ... )] remains, without the white space
    at its ends; when there is no such point it is the text itself,
    untouched.  The parser returns no values exactly when no part of the
    base text is a population text [<number><unit>? / <number><unit>?]:
    the pattern need not cover the whole base text, only some part of
    it.  The values it returns are exactly those of the population text
    that starts at the first position of the base text at which one
    starts and that what follows cannot prolong. *)
Theorem no_match_iff_no_shape :
  forall pow text,
    ((exists b, cuts text b
                /\ (forall b', cuts text b' -> (length b <= length b')%nat)
                /\ baseText text = trim b)
     \/ ((forall b, ~ cuts text b) /\ baseText text = text))
    /\ (parse pow text = None <-> ~ contains_shape (baseText text))
    /\ (forall r,
          parse pow text = Some r <->
          exists pre i1 f1 w1 u1 w2 w3 i2 f2 w4 u2 post,
            baseText text
            = pre ++ population_text i1 f1 w1 u1 w2 w3 i2 f2 w4 u2 ++ post
            /\ leftmost (baseText text) pre
            /\ digits i1 = true /\ fraction_ok f1 = true
            /\ spaces w1 = true /\ unit_text u1 = true
            /\ spaces w2 = true /\ spaces w3 = true
            /\ digits i2 = true /\ fraction_ok f2 = true
            /\ spaces w4 = true /\ unit_text u2 = true
            /\ greedy_end f2 w4 u2 post = true
            /\ r = values_of pow i1 f1 u1 i2 f2 u2).
Proof.
  intros pow text. split; [apply baseText_cases|]. split.
  - unfold parse, parsePopulationValues.
    rewrite <- population_match_iff.
    destruct (re_match population_re (baseText text)).
    + split; [discriminate|]. intros H. exfalso. apply H. discriminate.
    + split; [intros _ H; apply H; reflexivity | reflexivity].
  - intros r. unfold parse. apply parse_characterised.
Qed.

(** C7 as stated fails.  The base text of [x 99/200 y] is the text
    itself, which is not a population text in its entirety, and the
    parser returns the values 99, 200 and 50. *)
Lemma whole_text_counterexample :
  baseText (str "x 99/200 y") = str "x 99/200 y"
  /\ ~ has_shape (str "x 99/200 y")
  /\ (forall pow,
        option_map (fun r => (current r, maximum r, percentage r))
          (parse pow (str "x 99/200 y"))
        = Some (of_Z 99, of_Z 200, of_Z 50)).
Proof.
  split; [reflexivity|]. split.
  - intros H. apply has_shape_head in H.
    destruct H as (c & t & E & Hc). injection E as <- _. discriminate.
  - intros pow. reflexivity.
Qed.

(* ------------------------------------------------------------------ *)
(** * The growth multiplier of a parsed text *)



(* ------------------------------------------------------------------ *)
(** * The worked examples of the design document *)

Example parse_annotated : forall pow,
  option_map (fun r => (current r, maximum r, percentage r))
    (parse pow (str "12.1K / 12.1K (+3)"))
  = Some (of_Z 12100, of_Z 12100, of_Z 100).
Proof. intros pow. reflexivity. Qed.

Example parse_plain : forall pow,
  option_map (fun r => (current r, maximum r, percentage r))
    (parse pow (str "500/1000"))
  = Some (of_Z 500, of_Z 1000, of_Z 50).
Proof. intros pow. reflexivity. Qed.

Example parse_no_number : forall pow, parse pow (str "not a number") = None.
Proof. intros pow. reflexivity. Qed.

(** The binary64 product is that of the source: [1.005k] is read as the
    number written 1004.9999999999999. *)
Example parse_rounded_product : forall pow,
  option_map current (parse pow (str "1.005k / 2k"))
  = Some (lit "1004.9999999999999").
Proof. intros pow. reflexivity. Qed.

(** Ties of [Math.round] go toward +infinity, also below zero. *)
Example round_ties :
  Math_round (lit "2.5") = of_Z 3
  /\ Math_round (fsub pos_zero (lit "2.5")) = of_Z (-2)
  /\ Math_round (fsub pos_zero (lit "0.5")) = S754_zero true.
Proof. repeat split. Qed.

(** Ticks every 100 ms during 3.5 s of a clock that starts at 0: three
    samples, at 1100, 2200 and 3300 ms; the first write comes with the
    tick at 5100 ms. *)
Example ten_hertz_simulated :
  sample_times (initial 0) (every_100ms (at_game "A") 100 100 35)
  = [1100; 2200; 3300]
  /\ length (recording (fst (run (initial 0)
                               (every_100ms (at_game "A") 100 100 35))))
     = 3%nat
  /\ map (@length StorageSet)
       (skipn 49 (snd (run (initial 0)
                         (every_100ms (at_game "A") 100 100 52))))
     = [0; 1; 0]%nat.
Proof. vm_compute. repeat split. Qed.

(** With the clock of the present day the first tick of a session
    samples and writes at once: four samples in the same 3.5 s. *)
Example ten_hertz_today :
  sample_times (initial t0) (every_100ms (at_game "A") 100 t0 36)
  = [t0; t0 + 1100; t0 + 2200; t0 + 3300].
Proof. vm_compute. reflexivity. Qed.

Example export_two_records : forall numberToString,
  csvContent numberToString
    [ (str "A", Some {| stored_recording := Some [of_Z 1; of_Z 2; of_Z 3];
                        stored_timestamp := t0 |});
      (str "B", Some {| stored_recording := Some [];
                        stored_timestamp := t0 |}) ]
  = str "game_id,population_values" ++ nl
    ++ str "A," ++ numberToString (of_Z 1) ++ str ","
    ++ numberToString (of_Z 2) ++ str "," ++ numberToString (of_Z 3) ++ nl.
Proof.
  intros numberToString. unfold csvContent, header. cbn [fold_left exported].
  unfold join. cbn [fold_left]. rewrite <- !app_assoc. reflexivity.
Qed.

(** A line terminator before the annotation: the base expression does
    not match, the text is left as it is, and the numbers inside the
    annotation are parsed. *)
Example annotation_after_line_terminator :
  baseText (str "a" ++ nl ++ str "b (500/1000)")
  = str "a" ++ nl ++ str "b (500/1000)"
  /\ forall pow,
       option_map (fun r => (current r, maximum r, percentage r))
         (parse pow (str "a" ++ nl ++ str "b (500/1000)"))
       = Some (of_Z 500, of_Z 1000, of_Z 50).
Proof. split; [reflexivity | intros pow; reflexivity]. Qed.
